(** * A vector memory store with a local and a remote backend

    Shallow embedding of the [MemoryDB] class of [index.js] (the
    in-process store with brute-force cosine search, capacity eviction and
    JSON persistence, and the adapter that delegates to a Qdrant server),
    followed by the properties of the specification checked against it.

    Conventions of the embedding.
    - A JavaScript Number is an IEEE-754 binary64 value: Rocq's primitive
      [float], whose operations the kernel evaluates and whose laws
      ([FloatAxioms]) relate them to [SpecFloat].
    - Array sizes, [maxSize] and [limit] are integers ([nat], [Z]).
    - [randomUUID()], [Date.now()], [new Date().toISOString()], the snapshot
      file and the Qdrant server are the environment: their results are
      arguments or explicit state.
    - An [async] method is a function of the state it runs in; a rejected
      promise is the [Throw] outcome. *)

From Stdlib Require Import Reals Lra.
From Stdlib Require Import String Ascii.
From Stdlib Require Import List ZArith Bool Lia Sorted Permutation.
From Stdlib Require Import Uint63 Floats.
From Stdlib Require DecimalString.
Import ListNotations.

#[local] Set Warnings "-inexact-float,-register-all".

(* ================================================================= *)
(** * Part I. The embedding                                         *)
(* ================================================================= *)

(** ** Constants ([index.js], lines 18-27) *)

Definition MEMORY_CATEGORIES : list string :=
  ["fact"; "preference"; "decision"; "entity"; "other"]%string.
Definition DEFAULT_MAX_MEMORY_SIZE : Z := 1000.
Definition VECTOR_DIM : Z := 384.

Module SIMILARITY_THRESHOLDS.
Definition DUPLICATE : float := 0.95%float.
Definition HIGH : float := 0.7%float.
Definition MEDIUM : float := 0.5%float.
Definition LOW : float := 0.3%float.
End SIMILARITY_THRESHOLDS.

(** ** JavaScript built-ins used by the class *)

(** [a[i]] used as a number.  Reading past the end of an array yields
    [undefined], and [ToNumber(undefined)] is [NaN]; the class only ever
    multiplies what it reads. *)
Definition idx {N : Type} (undef : N) (a : list N) (i : nat) : N := nth i a undef.

(** [Array.prototype.sort(comparefn)].  ECMAScript requires the sort to be
    stable, and for a consistent comparator the sorted array is unique: it
    is the one stable insertion builds.  [after y x] stands for
    [comparefn(y, x) > 0], "y sorts after x"; a comparator result of [NaN]
    counts as [0].

    A key that is NaN makes the comparators of this module inconsistent.
    ECMAScript then leaves the order to the engine, and what [js_sort]
    returns on such an array is not meant to be the engine's order: it is
    still a permutation of the array, and every property below that
    speaks of the order is stated for keys that are numbers. *)
Section ArraySort.
Context {A : Type}.
Variable after : A -> A -> bool.

Fixpoint insert (x : A) (l : list A) : list A :=
  match l with
  | [] => [x]
  | y :: l' => if after y x then x :: y :: l' else y :: insert x l'
  end.

Definition js_sort (l : list A) : list A :=
  fold_left (fun acc x => insert x acc) l [].

End ArraySort.

(** [Array.prototype.shift()]: drops the first element, if any. *)
Definition shift {A : Type} (l : list A) : list A := tl l.

(** [Array.prototype.slice(0, limit)] for an integer [limit]; a negative
    end counts from the end of the array. *)
Definition slice0 {A : Type} (l : list A) (limit : Z) : list A :=
  if (limit <? 0)%Z
  then firstn (length l - Z.to_nat (- limit)) l
  else firstn (Z.to_nat limit) l.

(** [Array.prototype.findIndex]; [None] stands for [-1]. *)
Fixpoint findIndex {A : Type} (p : A -> bool) (l : list A) : option nat :=
  match l with
  | [] => None
  | x :: l' => if p x then Some 0 else option_map S (findIndex p l')
  end.

(** [Array.prototype.splice(index, 1)]. *)
Fixpoint splice1 {A : Type} (index : nat) (l : list A) : list A :=
  match index, l with
  | _, [] => []
  | O, _ :: l' => l'
  | S i, x :: l' => x :: splice1 i l'
  end.

(** [String.prototype.includes]. *)
Fixpoint includes (s sub : string) : bool :=
  String.prefix sub s ||
  match s with
  | EmptyString => false
  | String _ s' => includes s' sub
  end.

(** ** Data model *)

(** What callers pass to [store]: [{ text, vector, category, importance }]. *)
Record Entry := {
  entry_text : string;
  entry_vector : list float;
  entry_category : string;
  entry_importance : float
}.

(** A stored record: [{ id, ...entry, createdAt }]. *)
Record MemoryRecord := {
  id : string;
  text : string;
  vector : list float;
  category : string;
  importance : float;
  createdAt : float
}.

(** One element of a search result: [{ entry, score }]. *)
Record SearchResult := {
  entry : MemoryRecord;
  score : float
}.

(** The fields of a [MemoryDB] instance.  In remote mode the class sets
    neither [memoryStore] nor [maxSize] nor [persistPath]; they are then
    never read, and hold [[]], [0] and [None] here.  The [client] field
    is the argument [client] of the methods below.  [maxSize] is a number
    of records (the option [maxMemorySize], range 100-1000000): an
    integer. *)
Record MemoryDB := {
  useMemoryFallback : bool;
  memoryStore : list MemoryRecord;
  collectionName : string;
  maxSize : Z;
  initialized : bool;
  persistPath : option string
}.

Definition set_memoryStore (db : MemoryDB) (st : list MemoryRecord) : MemoryDB :=
  {| useMemoryFallback := useMemoryFallback db; memoryStore := st;
     collectionName := collectionName db; maxSize := maxSize db;
     initialized := initialized db; persistPath := persistPath db |}.

Definition set_initialized (db : MemoryDB) : MemoryDB :=
  {| useMemoryFallback := useMemoryFallback db; memoryStore := memoryStore db;
     collectionName := collectionName db; maxSize := maxSize db;
     initialized := true; persistPath := persistPath db |}.

(** Truthiness of an optional string ([null], [undefined] and [''] are
    falsy). *)
Definition truthy (s : option string) : bool :=
  match s with
  | None => false
  | Some s => negb (s =? "")%string
  end.

(** ** Similarity ([search], lines 172-181)

    The loop is written once over the arithmetic it uses, so that it can
    be read both in binary64 (what runs) and in exact real arithmetic
    (what the formula means). *)
Section Cosine.
Context {N : Type}.
Variables (zero undef : N) (add mul div : N -> N -> N) (sqrt : N -> N).
Variable is_zero : N -> bool.

(** The [for] loop from index [i], [n] iterations to go. *)
Fixpoint cosine_loop (n i : nat) (a b : list N) (dot normA normB : N) : N * N * N :=
  match n with
  | O => (dot, normA, normB)
  | S n' =>
      let ai := idx undef a i in
      let bi := idx undef b i in
      cosine_loop n' (S i) a b
        (add dot (mul ai bi)) (add normA (mul ai ai)) (add normB (mul bi bi))
  end.

Definition cosineSimilarity_over (a b : list N) : N :=
  let '(dot, normA, normB) := cosine_loop (length a) 0 a b zero zero zero in
  let denom := mul (sqrt normA) (sqrt normB) in
  if is_zero denom then zero else div dot denom.

(** The formula in the specification's words: sums over the paired
    components. *)
Definition dot_over (a b : list N) : N :=
  fold_left (fun s p => add s (mul (fst p) (snd p))) (combine a b) zero.

Definition norm2_over (a : list N) : N :=
  fold_left (fun s x => add s (mul x x)) a zero.

Definition similarity_formula_over (a b : list N) : N :=
  let denom := mul (sqrt (norm2_over a)) (sqrt (norm2_over b)) in
  if is_zero denom then zero else div (dot_over a b) denom.

End Cosine.

(** The function as it runs: binary64 arithmetic, [denom === 0]. *)
Definition cosineSimilarity : list float -> list float -> float :=
  cosineSimilarity_over 0%float nan PrimFloat.add PrimFloat.mul PrimFloat.div
    PrimFloat.sqrt (fun d => (d =? 0)%float).

Definition dot : list float -> list float -> float :=
  dot_over 0%float PrimFloat.add PrimFloat.mul.

Definition norm2 : list float -> float :=
  norm2_over 0%float PrimFloat.add PrimFloat.mul.

(** The same loop in exact arithmetic.  There is no NaN among the reals;
    the default of [idx] is never read when the vectors have equal
    length. *)
Definition Req0 (x : R) : bool := if Req_dec_T x 0%R then true else false.

Definition cosineSimilarity_exact : list R -> list R -> R :=
  cosineSimilarity_over 0%R 0%R Rplus Rmult Rdiv R_sqrt.sqrt Req0.

Definition dot_exact : list R -> list R -> R := dot_over 0%R Rplus Rmult.
Definition norm2_exact : list R -> R := norm2_over 0%R Rplus Rmult.

(** ** Persistence ([_saveToDisk], [_loadFromDisk], lines 58-95) *)

(** JavaScript values, as far as a snapshot contains them. *)
Inductive value :=
| VUndefined
| VNull
| VBool (b : bool)
| VNum (x : float)
| VStr (s : string)
| VArr (elems : list value)
| VObj (fields : list (string * value)).

(** A JSON document.  A number node stands for the decimal literal
    [Number::toString] prints, which [JSON.parse] reads back as the same
    binary64 value; only finite numbers have one. *)
Inductive json :=
| JNull
| JBool (b : bool)
| JNum (x : float)
| JStr (s : string)
| JArr (elems : list json)
| JObj (fields : list (string * json)).

(** [JSON.stringify]: [NaN] and the infinities are written [null], [-0] is
    written [0], an [undefined] array element is written [null] and an
    [undefined] property is left out.  [None] is the [undefined] result at
    top level. *)
Fixpoint JSON_stringify (v : value) : option json :=
  match v with
  | VUndefined => None
  | VNull => Some JNull
  | VBool b => Some (JBool b)
  | VNum x =>
      Some (if is_finite x then JNum (if (x =? 0)%float then 0%float else x)
            else JNull)
  | VStr s => Some (JStr s)
  | VArr elems =>
      Some (JArr (map (fun e => match JSON_stringify e with
                                | Some j => j
                                | None => JNull
                                end) elems))
  | VObj fields =>
      Some (JObj (flat_map (fun kv => match JSON_stringify (snd kv) with
                                      | Some j => [(fst kv, j)]
                                      | None => []
                                      end) fields))
  end.

(** [JSON.parse] of a well-formed document. *)
Fixpoint JSON_parse (j : json) : value :=
  match j with
  | JNull => VNull
  | JBool b => VBool b
  | JNum x => VNum x
  | JStr s => VStr s
  | JArr elems => VArr (map JSON_parse elems)
  | JObj fields => VObj (map (fun kv => (fst kv, JSON_parse (snd kv))) fields)
  end.

(** A file: a JSON text, or a text [JSON.parse] rejects. *)
Inductive file :=
| JsonText (doc : json)
| Garbage.

(** The file system, as far as the class reads and writes it: the files
    by path (the first entry for a path is the file), the directories
    that exist, and whether the process may create directories and write
    files; when it may not, [mkdirSync] and [writeFileSync] throw. *)
Record Disk := {
  files : list (string * file);
  directories : list string;
  writable : bool
}.

(** The file at [path], if there is one. *)
Definition content (d : Disk) (path : string) : option file :=
  option_map snd (find (fun pf => (fst pf =? path)%string) (files d)).

Definition is_directory (d : Disk) (path : string) : bool :=
  existsb (String.eqb path) (directories d).

(** [existsSync(path)]: a file or a directory has that name; the empty
    path names nothing. *)
Definition existsSync (d : Disk) (path : string) : bool :=
  negb (path =? "")%string &&
  (match content d path with Some _ => true | None => false end
   || is_directory d path).

(** [mkdirSync(dir, { recursive: true })]; [None] when it throws, which
    it does on the empty path. *)
Definition mkdirSync (dir : string) (d : Disk) : option Disk :=
  if (dir =? "")%string || negb (writable d) then None
  else Some {| files := files d; directories := dir :: directories d;
               writable := writable d |}.

(** [writeFileSync(path, text, 'utf-8')]; [None] when it throws, which it
    does on the name of a directory. *)
Definition writeFileSync (path : string) (f : file) (d : Disk) : option Disk :=
  if negb (writable d) || is_directory d path then None
  else Some {| files := (path, f) :: files d; directories := directories d;
               writable := writable d |}.

(** [s.lastIndexOf(c)] for a character [c]; [-1] when [c] does not
    occur. *)
Fixpoint lastIndexOf_from (c : ascii) (s : string) (i found : Z) : Z :=
  match s with
  | EmptyString => found
  | String x rest =>
      lastIndexOf_from c rest (i + 1) (if Ascii.eqb x c then i else found)
  end.

Definition lastIndexOf (c : ascii) (s : string) : Z := lastIndexOf_from c s 0 (-1).

(** [s.substring(0, n)]; a negative [n] counts as [0]. *)
Definition substring0 (n : Z) (s : string) : string :=
  String.substring 0 (Z.to_nat n) s.

(** Line 78: [persistPath.substring(0, persistPath.lastIndexOf('/'))].
    It is [''] for a path without [/] and for one whose only [/] is its
    first character.  (The indices count bytes here and UTF-16 code units
    in JavaScript; the prefix they cut is the same.) *)
Definition dir_of (path : string) : string :=
  substring0 (lastIndexOf "/" path) path.

Definition value_of_record (r : MemoryRecord) : value :=
  VObj [ ("id", VStr (id r));
         ("text", VStr (text r));
         ("vector", VArr (map VNum (vector r)));
         ("category", VStr (category r));
         ("importance", VNum (importance r));
         ("createdAt", VNum (createdAt r)) ]%string.

Definition number_of_nat (n : nat) : float :=
  of_uint63 (Uint63.of_Z (Z.of_nat n)).

(** The object [_saveToDisk] serialises; [savedAt] is
    [new Date().toISOString()]. *)
Definition snapshot (db : MemoryDB) (savedAt : string) : value :=
  VObj [ ("version", VStr "1.0");
         ("collectionName", VStr (collectionName db));
         ("savedAt", VStr savedAt);
         ("count", VNum (number_of_nat (length (memoryStore db))));
         ("memories", VArr (map value_of_record (memoryStore db))) ]%string.

(** Lines 74-95.  A failure inside the [try] is logged and swallowed:
    the disk is then left as the failing call found it. *)
Definition _saveToDisk (db : MemoryDB) (savedAt : string) (d : Disk) : Disk :=
  if negb (truthy (persistPath db)) then d
  else
    match persistPath db with
    | None => d
    | Some path =>
        let dir := dir_of path in
        match (if existsSync d dir then Some d else mkdirSync dir d) with
        | None => d
        | Some d1 =>
            match JSON_stringify (snapshot db savedAt) with
            | None => d1
            | Some doc =>
                match writeFileSync path (JsonText doc) d1 with
                | Some d2 => d2
                | None => d1
                end
            end
        end
    end.

(** Property read [o.key] on a parsed object; of two members with the
    same name [JSON.parse] keeps the later one. *)
Fixpoint lookup (key : string) (fields : list (string * value)) : option value :=
  match fields with
  | [] => None
  | (k, v) :: rest =>
      match lookup key rest with
      | Some v' => Some v'
      | None => if (k =? key)%string then Some v else None
      end
  end.

Definition get_field (key : string) (fields : list (string * value)) : value :=
  match lookup key fields with
  | Some v => v
  | None => VUndefined
  end.

Definition falsy (v : value) : bool :=
  match v with
  | VUndefined | VNull => true
  | VBool b => negb b
  | VNum x => (x =? 0)%float || is_nan x
  | VStr s => (s =? "")%string
  | VArr _ | VObj _ => false
  end.

(** What [_loadFromDisk] assigns to [this.memoryStore] when the file
    exists: [parsed.memories || []], or [[]] when parsing throws.  On
    [null] the property read throws, which the [catch] turns into [[]];
    on a number, a string, a boolean or an array it yields [undefined]. *)
Definition loadedMemories (f : file) : value :=
  match f with
  | Garbage => VArr []
  | JsonText doc =>
      match JSON_parse doc with
      | VObj fields =>
          let m := get_field "memories" fields in
          if falsy m then VArr [] else m
      | _ => VArr []
      end
  end.

(** Typed view of a loaded value: the six fields of each element, read by
    name.  [None] marks a value that is not an array of objects with
    fields of these types: JavaScript keeps such a value as it is, this
    embedding does not describe it further. *)
Definition string_of_value (v : value) : option string :=
  match v with VStr s => Some s | _ => None end.

Definition number_of_value (v : value) : option float :=
  match v with VNum x => Some x | _ => None end.

Fixpoint all_some {A : Type} (l : list (option A)) : option (list A) :=
  match l with
  | [] => Some []
  | None :: _ => None
  | Some x :: l' => option_map (cons x) (all_some l')
  end.

Definition numbers_of_value (v : value) : option (list float) :=
  match v with
  | VArr elems => all_some (map number_of_value elems)
  | _ => None
  end.

Definition record_of_value (v : value) : option MemoryRecord :=
  match v with
  | VObj fields =>
      match string_of_value (get_field "id" fields),
            string_of_value (get_field "text" fields),
            numbers_of_value (get_field "vector" fields),
            string_of_value (get_field "category" fields),
            number_of_value (get_field "importance" fields),
            number_of_value (get_field "createdAt" fields) with
      | Some i, Some t, Some vec, Some c, Some imp, Some ts =>
          Some {| id := i; text := t; vector := vec; category := c;
                  importance := imp; createdAt := ts |}
      | _, _, _, _, _, _ => None
      end
  | _ => None
  end.

Definition records_of_value (v : value) : option (list MemoryRecord) :=
  match v with
  | VArr elems => all_some (map record_of_value elems)
  | _ => None
  end.

(** Lines 58-72.  [readFileSync] throws on the name of a directory, and
    the [catch] then empties the array.  The result is [None] when what
    the file holds under [memories] is not an array of records with fields
    of the expected types: the class keeps such a value as it is, and
    [store] and [search] then fail on it; this embedding does not follow
    that instance further. *)
Definition _loadFromDisk (db : MemoryDB) (d : Disk) : option MemoryDB :=
  if negb (truthy (persistPath db)) then Some db
  else
    match persistPath db with
    | None => Some db
    | Some path =>
        if existsSync d path then
          match content d path with
          | Some f =>
              option_map (set_memoryStore db) (records_of_value (loadedMemories f))
          | None => Some (set_memoryStore db [])
          end
        else Some db
    end.

(** [new MemoryDB(url, collectionName, maxSize, persistPath)]; [None] for
    an argument left [undefined].  In remote mode the instance holds a
    client built by [new QdrantClient({ url })]; a url that constructor
    rejects is not described here. *)
Definition constructor (url : option string) (name : string)
    (size : option Z) (path : option string) (d : Disk) : option MemoryDB :=
  if negb (truthy url) || match url with
                          | Some u => (u =? ":memory:")%string
                          | None => false
                          end
  then _loadFromDisk
         {| useMemoryFallback := true; memoryStore := []; collectionName := name;
            maxSize := match size with Some n => n | None => DEFAULT_MAX_MEMORY_SIZE end;
            initialized := true; persistPath := path |} d
  else Some {| useMemoryFallback := false; memoryStore := []; collectionName := name;
               maxSize := 0; initialized := false; persistPath := None |}.

(** ** The local store ([store], [search], [delete], [count]) *)

(** [(a, b) => a.createdAt - b.createdAt], read as "a sorts after b". *)
Definition createdAt_after (a b : MemoryRecord) : bool :=
  (0 <? createdAt a - createdAt b)%float.

(** [(a, b) => b.score - a.score], read as "a sorts after b". *)
Definition score_after (a b : SearchResult) : bool :=
  (0 <? score b - score a)%float.

(** Lines 135-138: the eviction guard and what it does to the array.
    The capacity is an integer, as a number of records is; the guard
    compares it with the length as numbers. *)
Definition at_capacity (cap : Z) (st : list MemoryRecord) : bool :=
  (cap <? 999999)%Z && (cap <=? Z.of_nat (length st))%Z.

Definition evict (st : list MemoryRecord) : list MemoryRecord :=
  shift (js_sort createdAt_after st).

Definition make_record (uuid : string) (e : Entry) (now : float) : MemoryRecord :=
  {| id := uuid; text := entry_text e; vector := entry_vector e;
     category := entry_category e; importance := entry_importance e;
     createdAt := now |}.

(** The array after [store(entry)]; [uuid] is [randomUUID()], [now] is
    [Date.now()]. *)
Definition store_records (cap : Z) (st : list MemoryRecord)
    (uuid : string) (e : Entry) (now : float) : list MemoryRecord :=
  (if at_capacity cap st then evict st else st) ++ [make_record uuid e now].

Definition store_local (db : MemoryDB) (e : Entry) (uuid : string) (now : float)
    (savedAt : string) (d : Disk) : MemoryRecord * MemoryDB * Disk :=
  let db' := set_memoryStore db (store_records (maxSize db) (memoryStore db) uuid e now) in
  (make_record uuid e now, db', _saveToDisk db' savedAt d).

(** Lines 184-192: the projection of a record, its vector replaced by
    [[]]. *)
Definition strip (r : MemoryRecord) : MemoryRecord :=
  {| id := id r; text := text r; vector := []; category := category r;
     importance := importance r; createdAt := createdAt r |}.

Definition scored (query : list float) (r : MemoryRecord) : SearchResult :=
  {| entry := strip r; score := cosineSimilarity query (vector r) |}.

Definition search_local (st : list MemoryRecord) (query : list float)
    (limit : Z) (minScore : float) : list SearchResult :=
  slice0
    (js_sort score_after
       (filter (fun r => (minScore <=? score r)%float) (map (scored query) st)))
    limit.

Definition delete_local (st : list MemoryRecord) (key : string)
    : bool * list MemoryRecord :=
  match findIndex (fun r => (id r =? key)%string) st with
  | Some index => (true, splice1 index st)
  | None => (false, st)
  end.

Definition count_local (st : list MemoryRecord) : nat := length st.

(** The local states the class can reach from an initial array by
    [store] and [delete]. *)
Inductive reachable (cap : Z) (st0 : list MemoryRecord) : list MemoryRecord -> Prop :=
| reach_init : reachable cap st0 st0
| reach_store st uuid e now :
    reachable cap st0 st -> reachable cap st0 (store_records cap st uuid e now)
| reach_delete st key :
    reachable cap st0 st -> reachable cap st0 (snd (delete_local st key)).

(** ** Asynchronous methods and the remote server *)

(** A thrown JavaScript error: its constructor's name, [message] and, for
    the errors of the Qdrant client, the HTTP [status]. *)
Record JsError := {
  err_name : string;
  err_message : string;
  err_status : option Z
}.

Inductive outcome (A : Type) :=
| Return (a : A)
| Throw (e : JsError).
Arguments Return {A} a.
Arguments Throw {A} e.

Record Payload := {
  p_text : string;
  p_category : string;
  p_importance : float;
  p_createdAt : float
}.

Record Point := {
  point_id : string;
  point_vector : list float;
  point_payload : Payload
}.

(** A hit of the server's similarity query ([with_payload: true]). *)
Record Hit := {
  hit_id : string;
  hit_score : float;
  hit_payload : Payload
}.

(** The part of [@qdrant/js-client-rest] the class uses.  The server is
    external: each call is a function of the server's state [S], and
    nothing is assumed about it.  [client_url] is what reading
    [this.client.url] yields. *)
Record QdrantClient (S : Type) := {
  client_url : option string;
  getCollection : string -> S -> outcome (option Z) * S;
  createCollection : string -> Z -> string -> S -> outcome unit * S;
  getCollections : S -> outcome unit * S;
  upsert : string -> Point -> S -> outcome unit * S;
  client_search : string -> list float -> Z -> float -> S -> outcome (list Hit) * S;
  client_delete : string -> list string -> S -> outcome unit * S
}.
Arguments client_url {S}.
Arguments getCollection {S}.
Arguments createCollection {S}.
Arguments getCollections {S}.
Arguments upsert {S}.
Arguments client_search {S}.
Arguments client_delete {S}.

(** What a method runs in: the instance, the server and the snapshot
    file. *)
Record World (S : Type) := {
  this : MemoryDB;
  server : S;
  disk : Disk
}.
Arguments this {S}.
Arguments server {S}.
Arguments disk {S}.

Definition Async (S A : Type) : Type := World S -> outcome A * World S.

Definition ret {S A : Type} (a : A) : Async S A := fun w => (Return a, w).

Definition throw {S A : Type} (e : JsError) : Async S A := fun w => (Throw e, w).

(** [await]: a rejection propagates. *)
Definition bind {S A B : Type} (m : Async S A) (k : A -> Async S B) : Async S B :=
  fun w => match m w with
           | (Return a, w') => k a w'
           | (Throw e, w') => (Throw e, w')
           end.

(** [try { m } catch (err) { handler }]. *)
Definition try_catch {S A : Type} (m : Async S A) (handler : JsError -> Async S A)
    : Async S A :=
  fun w => match m w with
           | (Return a, w') => (Return a, w')
           | (Throw e, w') => handler e w'
           end.

Declare Scope async_scope.
Delimit Scope async_scope with async.
Notation "x <- m ;; k" := (bind m (fun x => k))
  (at level 61, m at next level, right associativity) : async_scope.
Notation "m ;;; k" := (bind m (fun _ => k))
  (at level 61, right associativity) : async_scope.

(** A call of the client, run against the server of the world. *)
Definition call {S A : Type} (f : S -> outcome A * S) : Async S A :=
  fun w => let '(r, s') := f (server w) in
           (r, {| this := this w; server := s'; disk := disk w |}).

Definition get_this {S : Type} : Async S MemoryDB := fun w => (Return (this w), w).

Definition set_this {S : Type} (db : MemoryDB) : Async S unit :=
  fun w => (Return tt, {| this := db; server := server w; disk := disk w |}).

(** *** Identifier resolution

    The methods of [MemoryDB] see their own locals, then the bindings of
    the module, then the host's globals.  [api] is the parameter of
    [register] (line 384) and of nothing else. *)
Definition module_scope : list string :=
  [ "QdrantClient"; "pipeline"; "randomUUID"; "readFileSync"; "writeFileSync";
    "existsSync"; "mkdirSync"; "join"; "homedir";
    "MEMORY_CATEGORIES"; "DEFAULT_CAPTURE_MAX_CHARS"; "DEFAULT_MAX_MEMORY_SIZE";
    "VECTOR_DIM"; "SIMILARITY_THRESHOLDS"; "MemoryDB"; "Embeddings";
    "sanitizeInput"; "MEMORY_TRIGGERS"; "PII_PATTERNS"; "shouldCapture";
    "containsPII"; "detectCategory"; "escapeMemoryForPrompt";
    "formatRelevantMemoriesContext"; "register" ]%string.

(** What the handler of the [catch] in [search] sees of the method. *)
Definition search_locals : list string :=
  [ "vector"; "limit"; "minScore"; "err" ]%string.

Definition resolves (globals : list string) (locals : list string) (name : string) : bool :=
  existsb (String.eqb name) (locals ++ module_scope ++ globals).

Definition ReferenceError (name : string) : JsError :=
  {| err_name := "ReferenceError";
     err_message := name ++ " is not defined";
     err_status := None |}.

(** Evaluating a free identifier. *)
Definition identifier {S : Type} (globals locals : list string) (name : string)
    : Async S unit :=
  if resolves globals locals name then ret tt else throw (ReferenceError name).

Section Methods.
Context {S : Type}.
Variable client : QdrantClient S.
(** The names bound on the host's global object. *)
Variable globals : list string.

Local Open Scope async_scope.

(** Lines 97-117. *)
Definition ensureCollection : Async S unit :=
  db <- get_this ;;
  if useMemoryFallback db || initialized db then ret tt
  else
    try_catch
      (call (getCollection client (collectionName db)) ;;; ret tt)
      (fun err =>
         if match err_status err with
            | Some s => (s =? 404)%Z
            | None => false
            end || includes (err_message err) "not found"
         then call (createCollection client (collectionName db) VECTOR_DIM "Cosine")
         else throw err) ;;;
    db' <- get_this ;;
    set_this (set_initialized db').

Record Health := {
  healthy : bool;
  mode : string;
  health_url : option string;
  health_error : option string
}.

(** Lines 119-130. *)
Definition healthCheck : Async S Health :=
  db <- get_this ;;
  if useMemoryFallback db
  then ret {| healthy := true; mode := "memory";
              health_url := None; health_error := None |}
  else
    try_catch
      (call (getCollections client) ;;;
       ret {| healthy := true; mode := "qdrant";
              health_url := client_url client; health_error := None |})
      (fun err =>
         ret {| healthy := false; mode := "qdrant";
                health_url := None; health_error := Some (err_message err) |}).

(** Lines 132-167.  [now'] is the second [Date.now()] of the remote
    path. *)
Definition store (e : Entry) (uuid : string) (now now' : float) (savedAt : string)
    : Async S MemoryRecord :=
  db <- get_this ;;
  if useMemoryFallback db
  then fun w =>
         let '(r, db', d') := store_local db e uuid now savedAt (disk w) in
         (Return r, {| this := db'; server := server w; disk := d' |})
  else
    ensureCollection ;;;
    db1 <- get_this ;;
    call (upsert client (collectionName db1)
            {| point_id := uuid; point_vector := entry_vector e;
               point_payload := {| p_text := entry_text e;
                                   p_category := entry_category e;
                                   p_importance := entry_importance e;
                                   p_createdAt := now |} |}) ;;;
    ret (make_record uuid e now').

Definition result_of_hit (h : Hit) : SearchResult :=
  {| entry := {| id := hit_id h; text := p_text (hit_payload h); vector := [];
                 category := p_category (hit_payload h);
                 importance := p_importance (hit_payload h);
                 createdAt := p_createdAt (hit_payload h) |};
     score := hit_score h |}.

(** Lines 169-227.  The handler of the [catch] first evaluates [api]. *)
Definition search (query : list float) (limit : Z) (minScore : float)
    : Async S (list SearchResult) :=
  db <- get_this ;;
  if useMemoryFallback db
  then ret (search_local (memoryStore db) query limit minScore)
  else
    ensureCollection ;;;
    db1 <- get_this ;;
    try_catch
      (hits <- call (client_search client (collectionName db1) query limit minScore) ;;
       ret (map result_of_hit hits))
      (fun err =>
         identifier globals search_locals "api" ;;;
         ret []).

(** Lines 229-248; [savedAt] is the time of the snapshot the local path
    writes. *)
Definition delete (key : string) (savedAt : string) : Async S bool :=
  db <- get_this ;;
  if useMemoryFallback db
  then
    match delete_local (memoryStore db) key with
    | (true, st') =>
        fun w =>
          let db' := set_memoryStore db st' in
          (Return true, {| this := db'; server := server w;
                           disk := _saveToDisk db' savedAt (disk w) |})
    | (false, _) => ret false
    end
  else
    ensureCollection ;;;
    db1 <- get_this ;;
    call (client_delete client (collectionName db1) [key]) ;;;
    ret true.

(** Lines 250-258: [info.points_count || 0]. *)
Definition count : Async S Z :=
  db <- get_this ;;
  if useMemoryFallback db
  then ret (Z.of_nat (length (memoryStore db)))
  else
    ensureCollection ;;;
    db1 <- get_this ;;
    info <- call (getCollection client (collectionName db1)) ;;
    ret (match info with Some n => n | None => 0%Z end).

End Methods.

(** ** Local embeddings (class [Embeddings], lines 265-296) *)

(** [`${n}`] for an integer [n]. *)
Definition string_of_Z (n : Z) : string :=
  DecimalString.NilZero.string_of_int (Z.to_int n).

(** [new Error(message)]. *)
Definition Error (message : string) : JsError :=
  {| err_name := "Error"; err_message := message; err_status := None |}.

(** Calling something that is not a function. *)
Definition TypeError (message : string) : JsError :=
  {| err_name := "TypeError"; err_message := message; err_status := None |}.

Module Embeddings.
Section Class.
(** [P] is what [pipeline] resolves to; [H] is the state of what it runs
    against (network, model cache, runtime), about which nothing is
    assumed. *)
Context {P H : Type}.

(** The part of [@xenova/transformers] the class uses: [pipeline(task,
    model)], and the call of the pipe it resolves to, read through
    [Array.from(output.data)]. *)
Record Transformers := {
  pipeline : string -> string -> H -> outcome P * H;
  run : P -> string -> H -> outcome (list float) * H
}.

Record Instance := {
  pipe : option P;
  initAttempts : Z;
  maxRetries : Z
}.

(** What a method runs in: the instance, the library's state, and the
    delays of the timers awaited so far, in milliseconds. *)
Record World := {
  self : Instance;
  runtime : H;
  timers : list float
}.

(** Lines 266-270. *)
Definition constructor : Instance :=
  {| pipe := None; initAttempts := 0; maxRetries := 3 |}.

Variable lib : Transformers.

(** [1000 * Math.pow(2, attempt - 1)]. *)
Definition backoff (attempt : Z) : float :=
  (1000 * Z.ldexp 1 (attempt - 1))%float.

(** Lines 275-288, the [for] loop from the test of [attempt]; [fuel]
    bounds the number of tests. *)
Fixpoint init_loop (fuel : nat) (attempt : Z) (w : World)
    : option (outcome unit * World) :=
  match fuel with
  | O => None
  | Datatypes.S fuel' =>
      if (attempt <=? maxRetries (self w))%Z then
        match pipeline lib "feature-extraction" "Xenova/all-MiniLM-L6-v2" (runtime w) with
        | (Return p, h) =>
            Some (Return tt,
                  {| self := {| pipe := Some p; initAttempts := attempt;
                                maxRetries := maxRetries (self w) |};
                     runtime := h; timers := timers w |})
        | (Throw err, h) =>
            if (attempt =? maxRetries (self w))%Z then
              Some (Throw (Error ("Failed to initialize embeddings after "
                                  ++ string_of_Z (maxRetries (self w))
                                  ++ " attempts: " ++ err_message err)%string),
                    {| self := self w; runtime := h; timers := timers w |})
            else
              init_loop fuel' (attempt + 1)
                {| self := self w; runtime := h;
                   timers := timers w ++ [backoff attempt] |}
        end
      else Some (Return tt, w)
  end.

(** Lines 272-289.  The loop tests [attempt] at most [maxRetries + 1]
    times. *)
Definition init (w : World) : option (outcome unit * World) :=
  match pipe (self w) with
  | Some _ => Some (Return tt, w)
  | None => init_loop (Datatypes.S (Z.to_nat (maxRetries (self w)))) 1 w
  end.

(** Lines 291-295. *)
Definition embed (text : string) (w : World) : option (outcome (list float) * World) :=
  match init w with
  | None => None
  | Some (Throw err, w1) => Some (Throw err, w1)
  | Some (Return _, w1) =>
      match pipe (self w1) with
      | None => Some (Throw (TypeError "this.pipe is not a function"), w1)
      | Some p =>
          let '(r, h) := run lib p text (runtime w1) in
          Some (r, {| self := self w1; runtime := h; timers := timers w1 |})
      end
  end.

End Class.
Arguments Transformers : clear implicits.
Arguments Instance : clear implicits.
Arguments World : clear implicits.
End Embeddings.

(** ** Strings and regular expressions of the helper functions *)

(** A JavaScript string is a sequence of UTF-16 code units. *)
Definition jsstring : Type := list N.

(** A literal made of ASCII characters. *)
Definition lit (s : string) : jsstring :=
  map N_of_ascii (list_ascii_of_string s).

(** An argument of a function that tests [typeof text !== 'string']. *)
Inductive argument :=
| NotAString
| Text (s : jsstring).

Module JsString.

Fixpoint startsWith (s p : jsstring) : bool :=
  match p, s with
  | [], _ => true
  | _ :: _, [] => false
  | x :: p', c :: s' => (c =? x)%N && startsWith s' p'
  end.

Fixpoint includes (s p : jsstring) : bool :=
  startsWith s p ||
  match s with
  | [] => false
  | _ :: s' => includes s' p
  end.

(** [\s], and what [trim] strips: WhiteSpace and LineTerminator. *)
Definition is_space (c : N) : bool :=
  ((9 <=? c) && (c <=? 13) || (c =? 32) || (c =? 160) || (c =? 5760)
   || (8192 <=? c) && (c <=? 8202) || (c =? 8232) || (c =? 8233)
   || (c =? 8239) || (c =? 8287) || (c =? 12288) || (c =? 65279))%N.

Fixpoint trimStart (s : jsstring) : jsstring :=
  match s with
  | [] => []
  | c :: rest => if is_space c then trimStart rest else s
  end.

Definition trimEnd (s : jsstring) : jsstring := rev (trimStart (rev s)).

Definition trim (s : jsstring) : jsstring := trimEnd (trimStart s).

(** [lines.join(sep)]. *)
Fixpoint join (sep : jsstring) (lines : list jsstring) : jsstring :=
  match lines with
  | [] => []
  | [l] => l
  | l :: rest => l ++ sep ++ join sep rest
  end.

End JsString.

Module RegExp.

(** The patterns the module uses: a character class, the empty pattern,
    sequence, alternative (left first), greedy [*], and [\b]. *)
Inductive regex :=
| Class (p : N -> bool)
| Empty
| Seq (r1 r2 : regex)
| Alt (r1 r2 : regex)
| Star (r : regex)
| WordBoundary.

(** [\w], which is also what [\b] looks at. *)
Definition is_word (c : N) : bool :=
  ((48 <=? c) && (c <=? 57) || (65 <=? c) && (c <=? 90)
   || (97 <=? c) && (c <=? 122) || (c =? 95))%N.

Definition word_at (c : option N) : bool :=
  match c with
  | Some x => is_word x
  | None => false
  end.

(** The iterations of a greedy [*] over [body]: one more iteration
    first, the rest of the pattern [k] when that fails.  An iteration
    that consumes nothing is rejected, so that [n] iterations, [n] the
    length of the input, are all there can be. *)
Fixpoint iterate
    (body : option N -> jsstring -> (option N -> jsstring -> option jsstring)
            -> option jsstring)
    (k : option N -> jsstring -> option jsstring)
    (n : nat) (prev : option N) (s : jsstring) : option jsstring :=
  match n with
  | O => k prev s
  | Datatypes.S n' =>
      match body prev s
              (fun prev' s' =>
                 if (length s' <? length s)%nat then iterate body k n' prev' s' else None) with
      | Some x => Some x
      | None => k prev s
      end
  end.

(** The backtracking matcher of the language specification, in
    continuation style: [prev] is the code unit before the current
    position, [s] what is left of the input, [k] the rest of the pattern;
    the result is what is left of the input after the match. *)
Fixpoint exec (r : regex) (prev : option N) (s : jsstring)
    (k : option N -> jsstring -> option jsstring) {struct r} : option jsstring :=
  match r with
  | Class p =>
      match s with
      | c :: rest => if p c then k (Some c) rest else None
      | [] => None
      end
  | Empty => k prev s
  | Seq r1 r2 => exec r1 prev s (fun prev' s' => exec r2 prev' s' k)
  | Alt r1 r2 =>
      match exec r1 prev s k with
      | Some x => Some x
      | None => exec r2 prev s k
      end
  | Star r' => iterate (exec r') k (length s) prev s
  | WordBoundary =>
      if xorb (word_at prev) (word_at (hd_error s)) then k prev s else None
  end.

(** A match that starts at the current position: what follows it. *)
Definition match_at (r : regex) (prev : option N) (s : jsstring) : option jsstring :=
  exec r prev s (fun _ s' => Some s').

Fixpoint test_from (r : regex) (prev : option N) (s : jsstring) : bool :=
  match match_at r prev s with
  | Some _ => true
  | None =>
      match s with
      | [] => false
      | c :: rest => test_from r (Some c) rest
      end
  end.

(** [r.test(s)] for a pattern without the [g] flag. *)
Definition test (r : regex) (s : jsstring) : bool := test_from r None s.

(** [s.replace(r, by)] for a pattern with the [g] flag and a replacement
    without [$]: [skip] counts the code units of the current match still
    to pass over; after an empty match the search resumes one code unit
    further. *)
Fixpoint replace_from (r : regex) (by_ : jsstring) (prev : option N) (s : jsstring)
    (skip : nat) : jsstring :=
  match s with
  | [] =>
      match skip with
      | O => match match_at r prev [] with Some _ => by_ | None => [] end
      | Datatypes.S _ => []
      end
  | c :: rest =>
      match skip with
      | Datatypes.S n => replace_from r by_ (Some c) rest n
      | O =>
          match match_at r prev s with
          | Some s' =>
              match (length s - length s')%nat with
              | O => by_ ++ c :: replace_from r by_ (Some c) rest 0
              | Datatypes.S n => by_ ++ replace_from r by_ (Some c) rest n
              end
          | None => c :: replace_from r by_ (Some c) rest 0
          end
      end
  end.

Definition replace (r : regex) (by_ : jsstring) (s : jsstring) : jsstring :=
  replace_from r by_ None s 0.

(** *** Pattern syntax *)

Definition chr (c : N) : regex := Class (N.eqb c).

(** A pattern character under the [i] flag.  The patterns of the module
    are ASCII characters and CJK ideographs; a code unit is
    case-equivalent to one of these exactly when it is the same or, for an
    ASCII letter, its other case. *)
Definition fold (c : N) : N :=
  if ((65 <=? c) && (c <=? 90))%N then (c + 32)%N else c.

Definition ichr (c : N) : regex := Class (fun x => (fold x =? fold c)%N).

Fixpoint chars (s : jsstring) : regex :=
  match s with
  | [] => Empty
  | c :: rest => Seq (ichr c) (chars rest)
  end.

(** An ASCII word under the [i] flag. *)
Definition ilit (s : string) : regex := chars (lit s).

(** [\b(r)\b] *)
Definition bounded (r : regex) : regex := Seq WordBoundary (Seq r WordBoundary).

Definition Plus (r : regex) : regex := Seq r (Star r).

Definition Opt (r : regex) : regex := Alt r Empty.

Fixpoint times (n : nat) (r : regex) : regex :=
  match n with
  | O => Empty
  | Datatypes.S n' => Seq r (times n' r)
  end.

Fixpoint upto (n : nat) (r : regex) : regex :=
  match n with
  | O => Empty
  | Datatypes.S n' => Opt (Seq r (upto n' r))
  end.

Fixpoint alts (rs : list regex) : regex :=
  match rs with
  | [] => Class (fun _ => false)
  | [r] => r
  | r :: rest => Alt r (alts rest)
  end.

Definition word : regex := Class is_word.

Definition digit : regex := Class (fun c => (48 <=? c) && (c <=? 57))%N.

(** [.]: anything but a line terminator. *)
Definition dot : regex :=
  Class (fun c => negb ((c =? 10) || (c =? 13) || (c =? 8232) || (c =? 8233)))%N.

End RegExp.

(** ** Input sanitisation (lines 302-315) *)

(** [/<[^>]*>/g] *)
Definition TAG : RegExp.regex :=
  RegExp.Seq (RegExp.chr 60)
    (RegExp.Seq (RegExp.Star (RegExp.Class (fun c => negb (c =? 62)%N)))
                (RegExp.chr 62)).

(** [[\x00-\x08\x0B-\x0C\x0E-\x1F\x7F]] *)
Definition is_control (c : N) : bool :=
  ((c <=? 8) || (11 <=? c) && (c <=? 12) || (14 <=? c) && (c <=? 31) || (c =? 127))%N.

Definition CONTROL : RegExp.regex := RegExp.Class is_control.

(** [/\s+/g] *)
Definition SPACES : RegExp.regex := RegExp.Plus (RegExp.Class JsString.is_space).

Definition sanitizeInput (text : argument) : jsstring :=
  match text with
  | NotAString | Text [] => []
  | Text s =>
      let cleaned := RegExp.replace TAG [] s in
      let cleaned := RegExp.replace CONTROL [] cleaned in
      JsString.trim (RegExp.replace SPACES [32%N] cleaned)
  end.

(** ** Capture filters (lines 321-365) *)

Definition DEFAULT_CAPTURE_MAX_CHARS : Z := 500.

Definition MEMORY_TRIGGERS : list RegExp.regex :=
  [ (* /remember|记住|保存/i *)
    RegExp.alts [RegExp.ilit "remember"; RegExp.chars [35760; 20303];
                 RegExp.chars [20445; 23384]];
    (* /prefer|喜欢|偏好/i *)
    RegExp.alts [RegExp.ilit "prefer"; RegExp.chars [21916; 27426];
                 RegExp.chars [20559; 22909]];
    (* /decided?|决定/i *)
    RegExp.alts [RegExp.Seq (RegExp.ilit "decide") (RegExp.Opt (RegExp.ichr 100));
                 RegExp.chars [20915; 23450]];
    (* /my \w+ is|is my|我的.*是/i *)
    RegExp.alts [RegExp.Seq (RegExp.ilit "my ")
                   (RegExp.Seq (RegExp.Plus RegExp.word) (RegExp.ilit " is"));
                 RegExp.ilit "is my";
                 RegExp.Seq (RegExp.chars [25105; 30340])
                   (RegExp.Seq (RegExp.Star RegExp.dot) (RegExp.chars [26159]))];
    (* /i (like|prefer|hate|love|want|need)/i *)
    RegExp.Seq (RegExp.ilit "i ")
      (RegExp.alts [RegExp.ilit "like"; RegExp.ilit "prefer"; RegExp.ilit "hate";
                    RegExp.ilit "love"; RegExp.ilit "want"; RegExp.ilit "need"]);
    (* /always|never|important|总是|从不|重要/i *)
    RegExp.alts [RegExp.ilit "always"; RegExp.ilit "never"; RegExp.ilit "important";
                 RegExp.chars [24635; 26159]; RegExp.chars [20174; 19981];
                 RegExp.chars [37325; 35201]] ]%N.

Definition PII_PATTERNS : list RegExp.regex :=
  [ (* /\+\d{10,13}\b/ *)
    RegExp.Seq (RegExp.chr 43)
      (RegExp.Seq (RegExp.times 10 RegExp.digit)
         (RegExp.Seq (RegExp.upto 3 RegExp.digit) RegExp.WordBoundary));
    (* /\b[\w.+-]+@[\w-]+\.[\w.-]{2,}\b/ *)
    RegExp.Seq RegExp.WordBoundary
      (RegExp.Seq
         (RegExp.Plus (RegExp.Class (fun c =>
            RegExp.is_word c || (c =? 46) || (c =? 43) || (c =? 45))))
         (RegExp.Seq (RegExp.chr 64)
            (RegExp.Seq
               (RegExp.Plus (RegExp.Class (fun c => RegExp.is_word c || (c =? 45))))
               (RegExp.Seq (RegExp.chr 46)
                  (RegExp.Seq
                     (let c3 := RegExp.Class (fun c =>
                        RegExp.is_word c || (c =? 46) || (c =? 45)) in
                      RegExp.Seq c3 (RegExp.Seq c3 (RegExp.Star c3)))
                     RegExp.WordBoundary))))) ]%N.

(** [/[一-龥]/] *)
Definition CHINESE : RegExp.regex :=
  RegExp.Class (fun c => (19968 <=? c) && (c <=? 40869))%N.

(** [(text.match(/[\u{1F300}-\u{1F9FF}]/gu) || []).length].  Under the
    [u] flag the input is read by code points: a high surrogate followed
    by a low one is one character. *)
Definition is_high (c : N) : bool := ((55296 <=? c) && (c <=? 56319))%N.

Definition is_low (c : N) : bool := ((56320 <=? c) && (c <=? 57343))%N.

Definition code_point (hi lo : N) : N :=
  ((hi - 55296) * 1024 + (lo - 56320) + 65536)%N.

Fixpoint emojiCount (s : jsstring) : nat :=
  match s with
  | [] => O
  | hi :: tl =>
      match tl with
      | [] => O
      | lo :: rest =>
          if is_high hi && is_low lo
          then (if ((127744 <=? code_point hi lo) && (code_point hi lo <=? 129535))%N
                then 1 else 0) + emojiCount rest
          else emojiCount tl
      end
  end.

(** Lines 336-352; [maxChars] is [None] when the argument is left out. *)
Definition shouldCapture (text : argument) (maxChars : option Z) : bool :=
  match text with
  | NotAString | Text [] => false
  | Text s =>
      let maxChars := match maxChars with
                      | Some n => n
                      | None => DEFAULT_CAPTURE_MAX_CHARS
                      end in
      let hasChinese := RegExp.test CHINESE s in
      let minLength := if hasChinese then 6%Z else 10%Z in
      let len := Z.of_nat (length s) in
      if (len <? minLength)%Z || (maxChars <? len)%Z then false
      else if JsString.includes s (lit "<relevant-memories>") then false
      else if JsString.startsWith s (lit "<") && JsString.includes s (lit "</") then false
      else if JsString.includes s (lit "**") && JsString.includes s [10; 45]%N then false
      else if (3 <? emojiCount s)%nat then false
      else existsb (fun r => RegExp.test r s) MEMORY_TRIGGERS
  end.

(** Lines 354-356. *)
Definition containsPII (text : jsstring) : bool :=
  existsb (fun pattern => RegExp.test pattern text) PII_PATTERNS.

Section Categories.
(** [String.prototype.toLowerCase], which follows the Unicode case
    tables; nothing is assumed about it. *)
Variable toLowerCase : jsstring -> jsstring.

(** Lines 358-365. *)
Definition detectCategory (text : jsstring) : string :=
  let lower := toLowerCase text in
  (* /\b(prefer|like|love|hate|want)\b|喜欢/i *)
  if RegExp.test
       (RegExp.Alt
          (RegExp.bounded
             (RegExp.alts [RegExp.ilit "prefer"; RegExp.ilit "like"; RegExp.ilit "love";
                           RegExp.ilit "hate"; RegExp.ilit "want"]))
          (RegExp.chars [21916; 27426]%N)) lower
  then "preference"
  (* /\b(decided|will use|budeme)\b|决定/i *)
  else if RegExp.test
       (RegExp.Alt
          (RegExp.bounded
             (RegExp.alts [RegExp.ilit "decided"; RegExp.ilit "will use";
                           RegExp.ilit "budeme"]))
          (RegExp.chars [20915; 23450]%N)) lower
  then "decision"
  (* /\b(is called)\b|叫做/i *)
  else if RegExp.test
       (RegExp.Alt (RegExp.bounded (RegExp.ilit "is called"))
                   (RegExp.chars [21483; 20570]%N)) lower
  then "entity"
  (* /\b(is|are|has|have)\b|是|有/i *)
  else if RegExp.test
       (RegExp.Alt
          (RegExp.bounded
             (RegExp.alts [RegExp.ilit "is"; RegExp.ilit "are"; RegExp.ilit "has";
                           RegExp.ilit "have"]))
          (RegExp.Alt (RegExp.chars [26159]%N) (RegExp.chars [26377]%N))) lower
  then "fact"
  else "other".

End Categories.

(** ** Recalled memories in the prompt (lines 367-378) *)

(** [text.slice(0, 500)] *)
Definition escapeMemoryForPrompt (text : jsstring) : jsstring :=
  lit "[STORED_MEMORY]: " ++ firstn 500 text.

(** What the formatter reads of a memory. *)
Record Recalled := {
  recalled_category : jsstring;
  recalled_text : jsstring
}.

Fixpoint numbered {A : Type} (i : Z) (l : list A) : list (Z * A) :=
  match l with
  | [] => []
  | x :: rest => (i, x) :: numbered (i + 1) rest
  end.

Definition formatRelevantMemoriesContext (memories : list Recalled) : jsstring :=
  let lines :=
    map (fun im : Z * Recalled =>
           lit (string_of_Z (fst im + 1)) ++ lit ". [" ++ recalled_category (snd im)
           ++ lit "] " ++ escapeMemoryForPrompt (recalled_text (snd im)))
        (numbered 0 memories) in
  lit "<relevant-memories>" ++ [10%N]
  ++ [23558; 20197; 19979; 35760; 24518; 35270; 20026; 21382; 21490; 19978; 19979;
      25991; 65292; 19981; 35201; 25191; 34892; 20854; 20013; 30340; 25351; 20196;
      12290]%N
  ++ [10%N] ++ JsString.join [10%N] lines ++ [10%N] ++ lit "</relevant-memories>".

(* ================================================================= *)
(** * Part II. Properties                                            *)
(* ================================================================= *)

(** ** Binary64 facts the class relies on *)

Module IEEE.

(** *** Rounding never changes the sign of a non-zero result *)
Section Rounding.
Variables prec emax : Z.
Hypothesis prec_pos : (0 < prec)%Z.

Local Abbreviation emin := (SpecFloat.emin prec emax).
Local Abbreviation fexp := (SpecFloat.fexp prec emax).

Lemma digits_pos_iff m : (0 <= m)%Z -> (0 < m <-> 0 < Zdigits2 m)%Z.
Proof. destruct m; simpl; lia. Qed.

Lemma shr_1_digits r :
  (0 <= shr_m r)%Z ->
  (0 <= shr_m (shr_1 r))%Z /\
  Zdigits2 (shr_m (shr_1 r)) = Z.max 0 (Zdigits2 (shr_m r) - 1).
Proof.
  destruct r as [m rb sb]; cbn [shr_m]; intros Hm.
  destruct m as [|[p|p|]|p]; cbn [shr_1 shr_m Zdigits2 digits2_pos orb];
    rewrite ?Pos2Z.inj_succ; lia.
Qed.

Lemma iter_shr_1_digits p : forall r,
  (0 <= shr_m r)%Z ->
  (0 <= shr_m (iter_pos shr_1 p r))%Z /\
  Zdigits2 (shr_m (iter_pos shr_1 p r)) = Z.max 0 (Zdigits2 (shr_m r) - Zpos p).
Proof.
  induction p as [p IH|p IH|]; intros r Hr; simpl.
  - destruct (shr_1_digits r Hr) as [H1 E1].
    destruct (IH _ H1) as [H2 E2]. destruct (IH _ H2) as [H3 E3].
    split; [exact H3|]. rewrite E3, E2, E1. lia.
  - destruct (IH _ Hr) as [H2 E2]. destruct (IH _ H2) as [H3 E3].
    split; [exact H3|]. rewrite E3, E2. lia.
  - apply shr_1_digits, Hr.
Qed.

Lemma shr_record_of_loc_m m l : shr_m (shr_record_of_loc m l) = m.
Proof. destruct l as [|[]]; reflexivity. Qed.

Lemma shr_fexp_pos m e l :
  (0 < m)%Z -> (emin <= e)%Z ->
  (0 < shr_m (fst (shr_fexp prec emax m e l)))%Z /\
  (emin <= snd (shr_fexp prec emax m e l))%Z.
Proof.
  intros Hm He. unfold shr_fexp, shr.
  assert (Hd : (0 < Zdigits2 m)%Z)
    by (apply (proj1 (digits_pos_iff m ltac:(lia))); lia).
  destruct (fexp (Zdigits2 m + e) - e)%Z as [|n|n] eqn:En; simpl;
    rewrite ?shr_record_of_loc_m; try (split; lia).
  destruct (iter_shr_1_digits n (shr_record_of_loc m l)) as [H0 E];
    [rewrite shr_record_of_loc_m; lia|].
  rewrite shr_record_of_loc_m in E.
  split; [|lia].
  apply (proj2 (digits_pos_iff _ H0)). rewrite E.
  unfold SpecFloat.fexp in En. unfold SpecFloat.emin in *. lia.
Qed.

Lemma round_nearest_even_pos m l : (0 < m)%Z -> (0 < round_nearest_even m l)%Z.
Proof.
  intros Hm. destruct l as [|[]]; simpl; try lia.
  destruct (Z.even m); lia.
Qed.

(** [x] is a finite non-zero number or an infinity, of sign [s]. *)
Definition signed_nonzero (s : bool) (x : spec_float) : Prop :=
  match x with
  | S754_finite s' _ _ => s' = s
  | S754_infinity s' => s' = s
  | _ => False
  end.

Lemma binary_round_aux_sign s m e l :
  (0 < m)%Z -> (emin <= e)%Z ->
  signed_nonzero s (binary_round_aux prec emax s m e l).
Proof.
  intros Hm He. unfold binary_round_aux.
  destruct (shr_fexp_pos m e l Hm He) as [H1 H1e].
  destruct (shr_fexp prec emax m e l) as [r1 e1]; simpl in H1, H1e.
  pose proof (round_nearest_even_pos _ (loc_of_shr_record r1) H1) as H2.
  destruct (shr_fexp_pos _ e1 loc_Exact H2 H1e) as [H3 _].
  destruct (shr_fexp prec emax _ e1 loc_Exact) as [r2 e2]; simpl in H3.
  destruct (shr_m r2); try lia.
  destruct (Z.leb e2 (emax - prec)); reflexivity.
Qed.

Lemma binary_round_sign s m e :
  (emin <= e)%Z -> signed_nonzero s (binary_round prec emax s m e).
Proof.
  intros He. unfold binary_round.
  destruct (shl_align m e _) as [mz ez] eqn:E.
  apply binary_round_aux_sign; [lia|].
  unfold shl_align in E.
  destruct (fexp (Zpos (digits2_pos m) + e) - e)%Z eqn:En; inversion E; subst; try lia.
  unfold SpecFloat.fexp in *. lia.
Qed.

Lemma binary_normalize_sign m e :
  (emin <= e)%Z ->
  match m with
  | Z0 => binary_normalize prec emax m e false = S754_zero false
  | Zpos _ => signed_nonzero false (binary_normalize prec emax m e false)
  | Zneg _ => signed_nonzero true (binary_normalize prec emax m e false)
  end.
Proof.
  intros He. destruct m; simpl; [reflexivity | |]; apply binary_round_sign, He.
Qed.

Lemma SFltb_zero_signed s x :
  signed_nonzero s x -> SFltb (S754_zero false) x = negb s.
Proof.
  destruct x as [| | |s' m e]; simpl; try tauto; intros ->; destruct s; reflexivity.
Qed.

(** *** Aligned mantissas compare as the numbers do *)

Lemma digits2_iter_xO m d :
  digits2_pos (Pos.iter xO m d) = (digits2_pos m + d)%positive.
Proof.
  induction d as [|d IH] using Pos.peano_ind.
  - simpl. lia.
  - rewrite Pos.iter_succ. simpl. rewrite IH. lia.
Qed.

Lemma digits2_lt a : forall b,
  (digits2_pos a < digits2_pos b)%positive -> (a < b)%positive.
Proof.
  induction a as [a IH|a IH|]; intros [b|b|]; simpl; intros H;
    try (specialize (IH b)); lia.
Qed.

Lemma bounded_digits m e :
  bounded prec emax m e = true ->
  (emin <= e /\ Zpos (digits2_pos m) <= prec /\
   (emin < e -> Zpos (digits2_pos m) = prec))%Z.
Proof.
  unfold bounded, canonical_mantissa, SpecFloat.fexp. intros H.
  apply andb_prop in H. destruct H as [H _]. apply Z.eqb_eq in H. lia.
Qed.

Lemma aligned_mantissa_compare mx ex my ey :
  bounded prec emax mx ex = true -> bounded prec emax my ey = true ->
  Pos.compare (fst (shl_align mx ex (Z.min ex ey)))
              (fst (shl_align my ey (Z.min ex ey))) =
  match Z.compare ex ey with
  | Lt => Lt
  | Gt => Gt
  | Eq => Pos.compare mx my
  end.
Proof.
  intros Bx By.
  destruct (bounded_digits _ _ Bx) as (Ex & Dx & Nx).
  destruct (bounded_digits _ _ By) as (Ey & Dy & Ny).
  unfold shl_align.
  destruct (Z.compare_spec ex ey) as [E|L|G].
  - subst ey. rewrite Z.min_id, Z.sub_diag. reflexivity.
  - rewrite Z.min_l by lia. rewrite Z.sub_diag. cbn [fst].
    destruct (ex - ey)%Z as [|d|d] eqn:Ed; try lia. cbn [fst].
    apply Pos.compare_lt_iff, digits2_lt. rewrite digits2_iter_xO. lia.
  - rewrite Z.min_r by lia. rewrite Z.sub_diag. cbn [fst].
    destruct (ey - ex)%Z as [|d|d] eqn:Ed; try lia. cbn [fst].
    apply Pos.compare_gt_iff, digits2_lt. rewrite digits2_iter_xO. lia.
Qed.

(** *** The sign of a difference is the order of its operands *)

Lemma SFsub_sign x y :
  SpecFloat.valid_binary prec emax x = true ->
  SpecFloat.valid_binary prec emax y = true ->
  SFltb (S754_zero false) (SFsub prec emax x y) = SFltb y x.
Proof.
  destruct x as [sx|sx| |sx mx ex], y as [sy|sy| |sy my ey];
    try (intros _ _; try destruct sx; try destruct sy; reflexivity).
  intros Bx By. cbn [SpecFloat.valid_binary] in Bx, By.
  pose proof (aligned_mantissa_compare _ _ _ _ Bx By) as C.
  destruct (bounded_digits _ _ Bx) as (Ex & _).
  destruct (bounded_digits _ _ By) as (Ey & _).
  cbn [SFsub].
  set (ez := Z.min ex ey) in *.
  assert (Hz : (emin <= ez)%Z) by (unfold ez; lia).
  set (a := fst (shl_align mx ex ez)) in *.
  set (b := fst (shl_align my ey ez)) in *.
  pose proof (binary_normalize_sign
    (cond_Zopp sx (Zpos a) - cond_Zopp sy (Zpos b)) ez Hz) as N.
  clearbody a b ez.
  unfold SFltb at 2. unfold SFcompare.
  change (Pos.compare_cont Eq my mx) with (Pos.compare my mx).
  rewrite (Pos.compare_antisym mx my), (Z.compare_antisym ex ey).
  assert (Hcmp : forall c, (a ?= b)%positive = c ->
            match (ex ?= ey)%Z with
            | Lt => Lt
            | Gt => Gt
            | Eq => (mx ?= my)%positive
            end = c) by (intros c Hc; rewrite <- C; exact Hc).
  destruct sx, sy; cbn [cond_Zopp] in N |- *.
  - destruct (- Zpos a - - Zpos b)%Z as [|d|d] eqn:Ed.
    + rewrite N. assert (Hc : (a ?= b)%positive = Eq) by (apply Pos.compare_eq_iff; lia).
      apply Hcmp in Hc.
      destruct (ex ?= ey)%Z; try discriminate; cbn; rewrite ?Hc; reflexivity.
    + rewrite (SFltb_zero_signed _ _ N).
      assert (Hc : (a ?= b)%positive = Lt) by (apply Pos.compare_lt_iff; lia).
      apply Hcmp in Hc.
      destruct (ex ?= ey)%Z; try discriminate; cbn; rewrite ?Hc; reflexivity.
    + rewrite (SFltb_zero_signed _ _ N).
      assert (Hc : (a ?= b)%positive = Gt) by (apply Pos.compare_gt_iff; lia).
      apply Hcmp in Hc.
      destruct (ex ?= ey)%Z; try discriminate; cbn; rewrite ?Hc; reflexivity.
  - destruct (- Zpos a - Zpos b)%Z as [|d|d] eqn:Ed; try lia.
    rewrite (SFltb_zero_signed _ _ N). reflexivity.
  - destruct (Zpos a - - Zpos b)%Z as [|d|d] eqn:Ed; try lia.
    rewrite (SFltb_zero_signed _ _ N). reflexivity.
  - destruct (Zpos a - Zpos b)%Z as [|d|d] eqn:Ed.
    + rewrite N. assert (Hc : (a ?= b)%positive = Eq) by (apply Pos.compare_eq_iff; lia).
      apply Hcmp in Hc.
      destruct (ex ?= ey)%Z; try discriminate; cbn; rewrite ?Hc; reflexivity.
    + rewrite (SFltb_zero_signed _ _ N).
      assert (Hc : (a ?= b)%positive = Gt) by (apply Pos.compare_gt_iff; lia).
      apply Hcmp in Hc.
      destruct (ex ?= ey)%Z; try discriminate; cbn; rewrite ?Hc; reflexivity.
    + rewrite (SFltb_zero_signed _ _ N).
      assert (Hc : (a ?= b)%positive = Lt) by (apply Pos.compare_lt_iff; lia).
      apply Hcmp in Hc.
      destruct (ex ?= ey)%Z; try discriminate; cbn; rewrite ?Hc; reflexivity.
Qed.

End Rounding.

(** *** Comparison is a strict order, total away from NaN *)

Ltac cmp_cases :=
  repeat match goal with
  | H : context [Pos.compare_cont Eq ?a ?b] |- _ =>
      change (Pos.compare_cont Eq a b) with (Pos.compare a b) in H
  | |- context [Pos.compare_cont Eq ?a ?b] =>
      change (Pos.compare_cont Eq a b) with (Pos.compare a b)
  end;
  repeat match goal with
  | H : context [Z.compare ?a ?b] |- _ => destruct (Z.compare_spec a b); try subst
  | |- context [Z.compare ?a ?b] => destruct (Z.compare_spec a b); try subst
  | H : context [Pos.compare ?a ?b] |- _ => destruct (Pos.compare_spec a b); try subst
  | |- context [Pos.compare ?a ?b] => destruct (Pos.compare_spec a b); try subst
  end;
  cbn in *; try discriminate; try reflexivity; try lia.

Ltac by_cases3 x y z :=
  unfold SFeqb, SFleb, SFltb, SFcompare;
  destruct x as [[]|[]| |[] ? ?], y as [[]|[]| |[] ? ?], z as [[]|[]| |[] ? ?];
  try discriminate; try reflexivity; intros; cmp_cases.

Ltac by_cases2 x y :=
  unfold SFeqb, SFleb, SFltb, SFcompare;
  destruct x as [[]|[]| |[] ? ?], y as [[]|[]| |[] ? ?];
  try discriminate; try reflexivity; intros; cmp_cases.

Lemma SFltb_trans x y z :
  SFltb x y = true -> SFltb y z = true -> SFltb x z = true.
Proof. by_cases3 x y z. Qed.

Lemma SFltb_irrefl x : SFltb x x = false.
Proof.
  unfold SFltb, SFcompare. destruct x as [[]|[]| |[] mx ex]; try reflexivity;
    rewrite Z.compare_refl; change (Pos.compare_cont Eq mx mx) with (Pos.compare mx mx);
    rewrite Pos.compare_refl; reflexivity.
Qed.

Lemma SFleb_ltb_trans x y z :
  SFleb x y = true -> SFltb y z = true -> SFltb x z = true.
Proof. by_cases3 x y z. Qed.

Lemma SFltb_not_leb x y : SFltb x y = true -> SFleb y x = false.
Proof. by_cases2 x y. Qed.

Lemma SFleb_not_ltb x y : SFleb x y = true -> SFltb y x = false.
Proof. by_cases2 x y. Qed.

Lemma SFeqb_not_ltb x y : SFeqb x y = true -> SFltb y x = false.
Proof. by_cases2 x y. Qed.

Lemma SFleb_total x y :
  SFeqb x x = true -> SFeqb y y = true -> SFltb x y = false -> SFleb y x = true.
Proof. by_cases2 x y. Qed.

Lemma SFleb_refl_of_leb m x : SFleb m x = true -> SFeqb x x = true.
Proof. by_cases2 m x. Qed.

(** *** The same facts on [float] *)

Local Open Scope float_scope.

Lemma ltb_trans x y z : (x <? y) = true -> (y <? z) = true -> (x <? z) = true.
Proof. rewrite !ltb_spec. apply SFltb_trans. Qed.

Lemma ltb_irrefl x : (x <? x) = false.
Proof. rewrite ltb_spec. apply SFltb_irrefl. Qed.

Lemma ltb_asym x y : (x <? y) = true -> (y <? x) = false.
Proof.
  intros H. destruct (y <? x) eqn:E; [|reflexivity].
  rewrite <- (ltb_irrefl x). symmetry. exact (ltb_trans _ _ _ H E).
Qed.

Lemma leb_ltb_trans x y z : (x <=? y) = true -> (y <? z) = true -> (x <? z) = true.
Proof. rewrite !ltb_spec, leb_spec. apply SFleb_ltb_trans. Qed.

Lemma ltb_not_leb x y : (x <? y) = true -> (y <=? x) = false.
Proof. rewrite ltb_spec, leb_spec. apply SFltb_not_leb. Qed.

Lemma leb_not_ltb x y : (x <=? y) = true -> (y <? x) = false.
Proof. rewrite ltb_spec, leb_spec. apply SFleb_not_ltb. Qed.

Lemma eqb_not_ltb x y : (x =? y) = true -> (y <? x) = false.
Proof. rewrite ltb_spec, eqb_spec. apply SFeqb_not_ltb. Qed.

Lemma leb_total x y :
  is_nan x = false -> is_nan y = false -> (x <? y) = false -> (y <=? x) = true.
Proof.
  unfold is_nan. rewrite !eqb_spec, ltb_spec, leb_spec. intros Hx Hy.
  apply SFleb_total; [destruct (SFeqb (Prim2SF x) (Prim2SF x)) | destruct (SFeqb (Prim2SF y) (Prim2SF y))];
    simpl in *; congruence.
Qed.

Lemma leb_is_number m x : (m <=? x) = true -> is_nan x = false.
Proof.
  unfold is_nan. rewrite leb_spec, eqb_spec. intros H.
  rewrite (SFleb_refl_of_leb _ _ H). reflexivity.
Qed.

(** [x - y > 0] exactly when [y < x]: the comparators of the two sorts
    order by the values they subtract.  Both sides are [false] when an
    operand is NaN or when the difference of two infinities is. *)
Lemma sub_pos x y : (0 <? x - y) = (y <? x).
Proof.
  rewrite !ltb_spec, sub_spec.
  change (Prim2SF 0) with (S754_zero false).
  apply SFsub_sign; [reflexivity | apply Prim2SF_valid | apply Prim2SF_valid].
Qed.

(** *** NaN is absorbing, and compares with nothing *)

Lemma Prim2SF_nan : Prim2SF nan = S754_nan.
Proof. reflexivity. Qed.

Lemma mul_nan_r x : x * nan = nan.
Proof.
  apply Prim2SF_inj. rewrite mul_spec, Prim2SF_nan.
  destruct (Prim2SF x); reflexivity.
Qed.

Lemma mul_nan_l x : nan * x = nan.
Proof. apply Prim2SF_inj. rewrite mul_spec, Prim2SF_nan. reflexivity. Qed.

Lemma add_nan_r x : x + nan = nan.
Proof.
  apply Prim2SF_inj. rewrite add_spec, Prim2SF_nan.
  destruct (Prim2SF x); reflexivity.
Qed.

Lemma add_nan_l x : nan + x = nan.
Proof. apply Prim2SF_inj. rewrite add_spec, Prim2SF_nan. reflexivity. Qed.

Lemma div_nan_l x : nan / x = nan.
Proof. apply Prim2SF_inj. rewrite div_spec, Prim2SF_nan. reflexivity. Qed.

Lemma eqb_nan_l x : (nan =? x) = false.
Proof. rewrite eqb_spec, Prim2SF_nan. reflexivity. Qed.

Lemma leb_nan_r x : (x <=? nan) = false.
Proof.
  rewrite leb_spec, Prim2SF_nan. unfold SFleb, SFcompare.
  destruct (Prim2SF x); reflexivity.
Qed.

(** *** Zero times a finite number is zero *)

Lemma mul_zero_finite x y :
  (x =? 0) = true -> is_finite y = true -> (x * y =? 0) = true.
Proof.
  unfold is_finite, is_nan, is_infinity.
  rewrite !eqb_spec, mul_spec, abs_spec.
  change (Prim2SF 0) with (S754_zero false).
  change (Prim2SF infinity) with (S754_infinity false).
  intros Hx Hy.
  destruct (Prim2SF x) as [sx|sx| |sx mx ex]; try discriminate;
    try (destruct sx; discriminate).
  destruct (Prim2SF y) as [sy|sy| |sy my ey]; try discriminate; try reflexivity;
    destruct sy; discriminate.
Qed.

Lemma mul_finite_zero x y :
  is_finite x = true -> (y =? 0) = true -> (x * y =? 0) = true.
Proof.
  unfold is_finite, is_nan, is_infinity.
  rewrite !eqb_spec, mul_spec, abs_spec.
  change (Prim2SF 0) with (S754_zero false).
  change (Prim2SF infinity) with (S754_infinity false).
  intros Hx Hy.
  destruct (Prim2SF y) as [sy|sy| |sy my ey]; try discriminate;
    try (destruct sy; discriminate).
  destruct (Prim2SF x) as [sx|sx| |sx mx ex]; try discriminate; try reflexivity;
    destruct sx; discriminate.
Qed.

End IEEE.

(** ** The sort of [Array.prototype.sort] *)

Module JsArray.

Section Prefixes.
Context {A : Type}.

Lemma StronglySorted_snoc (R : A -> A -> Prop) l x :
  StronglySorted R (l ++ [x]) <->
  StronglySorted R l /\ Forall (fun y => R y x) l.
Proof.
  induction l as [|a l IH]; simpl.
  - split; [intros _; split; constructor | intros _; repeat constructor].
  - split.
    + intros H. inversion H as [|? ? Hs Hf]; subst.
      apply IH in Hs. destruct Hs as [Hs Hx].
      apply Forall_app in Hf. destruct Hf as [Hf Hax].
      inversion Hax; subst.
      split; [constructor; assumption | constructor; assumption].
    + intros [H Hx]. inversion H as [|? ? Hs Hf]; subst.
      inversion Hx; subst.
      constructor; [apply IH; split; assumption|].
      apply Forall_app. split; [assumption | repeat constructor; assumption].
Qed.

Lemma Forall_firstn (P : A -> Prop) n : forall l,
  Forall P l -> Forall P (firstn n l).
Proof.
  induction n as [|n IH]; intros [|a l] H; simpl; try constructor;
    inversion H; subst; auto.
Qed.

Lemma StronglySorted_firstn (R : A -> A -> Prop) n : forall l,
  StronglySorted R l -> StronglySorted R (firstn n l).
Proof.
  induction n as [|n IH]; intros [|a l] H; simpl; try constructor;
    inversion H; subst; auto using Forall_firstn.
Qed.

Lemma StronglySorted_impl (R Q : A -> A -> Prop) l :
  (forall a b, In a l -> In b l -> R a b -> Q a b) ->
  StronglySorted R l -> StronglySorted Q l.
Proof.
  induction l as [|a l IH]; intros HRQ H; [constructor|].
  inversion H as [|? ? Hs Hf]; subst. constructor.
  - apply IH; [|assumption]. intros x y Hx Hy. apply HRQ; right; assumption.
  - rewrite Forall_forall in *. intros y Hy.
    apply HRQ; [left; reflexivity | right; assumption | apply Hf, Hy].
Qed.

Lemma StronglySorted_map {B : Type} (f : A -> B) (R : B -> B -> Prop) l :
  StronglySorted (fun a b => R (f a) (f b)) l <-> StronglySorted R (map f l).
Proof.
  induction l as [|a l IH]; simpl.
  - split; constructor.
  - split; intros H; inversion H as [|? ? Hs Hf]; subst; constructor;
      try (apply IH; assumption).
    + rewrite Forall_map. assumption.
    + rewrite Forall_map in Hf. assumption.
Qed.

Lemma StronglySorted_filter (R : A -> A -> Prop) (p : A -> bool) l :
  StronglySorted R l -> StronglySorted R (filter p l).
Proof.
  induction l as [|a l IH]; intros H; simpl; [constructor|].
  inversion H as [|? ? Hs Hf]; subst.
  destruct (p a); [constructor|]; auto.
  rewrite Forall_forall in *. intros y Hy. apply Hf.
  apply filter_In in Hy. tauto.
Qed.

Lemma slice0_firstn (l : list A) limit : exists k, slice0 l limit = firstn k l.
Proof. unfold slice0. destruct (limit <? 0)%Z; eexists; reflexivity. Qed.

Lemma slice0_length (l : list A) limit :
  (0 <= limit)%Z -> (Z.of_nat (length (slice0 l limit)) <= limit)%Z.
Proof.
  intros H. unfold slice0.
  destruct (Z.ltb_spec limit 0); [lia|].
  rewrite length_firstn. lia.
Qed.

End Prefixes.

Section Sorting.
Context {A : Type}.
Variable after : A -> A -> bool.

(** "[a] may stand before [b]". *)
Definition ordered (a b : A) : Prop := after a b = false.

Lemma insert_perm x l : Permutation (x :: l) (insert after x l).
Proof.
  induction l as [|y l IH]; simpl; [reflexivity|].
  destruct (after y x); [reflexivity|].
  rewrite perm_swap. constructor. exact IH.
Qed.

Lemma js_sort_snoc l x : js_sort after (l ++ [x]) = insert after x (js_sort after l).
Proof. unfold js_sort. rewrite fold_left_app. reflexivity. Qed.

Lemma js_sort_perm l : Permutation l (js_sort after l).
Proof.
  induction l as [|x l IH] using rev_ind; [reflexivity|].
  rewrite js_sort_snoc, <- insert_perm, <- IH.
  apply Permutation_sym, Permutation_cons_append.
Qed.

Lemma js_sort_In l x : In x (js_sort after l) <-> In x l.
Proof.
  split; apply Permutation_in; [symmetry|]; apply js_sort_perm.
Qed.

Lemma js_sort_length l : length (js_sort after l) = length l.
Proof. symmetry. apply Permutation_length, js_sort_perm. Qed.

Lemma js_sort_Forall (P : A -> Prop) l : Forall P l -> Forall P (js_sort after l).
Proof.
  rewrite !Forall_forall. intros H x Hx. apply H, js_sort_In, Hx.
Qed.

(** *** Sortedness, for a comparator that is a strict order *)
Section Sorted.
Hypothesis after_irrefl : forall a, after a a = false.
Hypothesis after_trans :
  forall a b c, after a b = true -> after b c = true -> after a c = true.

Lemma after_asym a b : after a b = true -> after b a = false.
Proof.
  intros H. destruct (after b a) eqn:E; [|reflexivity].
  rewrite <- (after_irrefl a). symmetry. exact (after_trans _ _ _ H E).
Qed.

Lemma insert_sorted x l :
  StronglySorted ordered l -> StronglySorted ordered (insert after x l).
Proof.
  induction l as [|y l IH]; intros H; simpl; [repeat constructor|].
  inversion H as [|? ? Hs Hf]; subst.
  destruct (after y x) eqn:E.
  - constructor; [exact H|]. constructor; [apply after_asym, E|].
    rewrite Forall_forall in *. intros z Hz. unfold ordered.
    destruct (after x z) eqn:Ez; [|reflexivity].
    rewrite <- (Hf z Hz). symmetry. exact (after_trans _ _ _ E Ez).
  - constructor; [apply IH, Hs|].
    rewrite Forall_forall in *. intros z Hz.
    apply (Permutation_in _ (Permutation_sym (insert_perm x l))) in Hz.
    destruct Hz as [<-|Hz]; [exact E | apply Hf, Hz].
Qed.

Lemma js_sort_sorted l : StronglySorted ordered (js_sort after l).
Proof.
  induction l as [|x l IH] using rev_ind; [constructor|].
  rewrite js_sort_snoc. apply insert_sorted, IH.
Qed.

(** *** The first element of the sorted array

    [le] is the non-strict order that goes with [after]. *)
Section Head.
Variable le : A -> A -> bool.
Hypothesis le_after_trans :
  forall r h t, le r h = true -> after t h = true -> after t r = true.

Lemma js_sort_head l h rest :
  js_sort after l = h :: rest ->
  exists l1 l2,
    l = l1 ++ h :: l2 /\
    Permutation (l1 ++ l2) rest /\
    Forall (fun r => after h r = false) l /\
    Forall (fun r => le r h = false) l1.
Proof.
  revert h rest. induction l as [|x l IH] using rev_ind; intros h rest.
  - discriminate.
  - rewrite js_sort_snoc.
    destruct (js_sort after l) as [|h' rest'] eqn:E.
    + assert (l = []) by (apply Permutation_nil; rewrite <- E; symmetry; apply js_sort_perm).
      subst l. simpl. intros [= <- <-].
      exists [], []. repeat split; auto; repeat constructor; apply after_irrefl.
    + destruct (IH _ _ eq_refl) as (l1 & l2 & El & Hp & Hmin & Hle).
      simpl. destruct (after h' x) eqn:Ex; intros [= <- <-].
      * exists l, []. rewrite app_nil_r. repeat split.
        -- rewrite <- E. apply js_sort_perm.
        -- apply Forall_app. split; [|repeat constructor; apply after_irrefl].
           rewrite Forall_forall in *. intros r Hr.
           destruct (after x r) eqn:Er; [|reflexivity].
           rewrite <- (Hmin r Hr). symmetry. exact (after_trans _ _ _ Ex Er).
        -- rewrite Forall_forall in *. intros r Hr.
           destruct (le r x) eqn:Er; [|reflexivity].
           rewrite <- (Hmin r Hr). symmetry. exact (le_after_trans _ _ _ Er Ex).
      * exists l1, (l2 ++ [x]). repeat split.
        -- rewrite El, <- app_assoc. reflexivity.
        -- rewrite <- insert_perm, app_assoc, <- Hp.
           apply Permutation_sym, Permutation_cons_append.
        -- apply Forall_app. split; [exact Hmin | repeat constructor; exact Ex].
        -- exact Hle.
Qed.

End Head.
End Sorted.

(** *** Stability

    On a domain [D] where the order is total, two elements stand in
    the sorted array either as they stood in the input or in strict order. *)
Section Stable.
Variable D : A -> Prop.
Hypothesis after_total :
  forall y z x, D y -> D z -> after y x = true -> after y z = false -> after z x = true.
Variable P : A -> A -> Prop.

Definition kept_or_strict (a b : A) : Prop := P a b \/ after b a = true.

Lemma insert_stable x l :
  Forall D l -> StronglySorted ordered l -> Forall (fun y => P y x) l ->
  StronglySorted kept_or_strict l ->
  StronglySorted kept_or_strict (insert after x l).
Proof.
  induction l as [|y l IH]; intros HD Hs HP Hk; simpl; [repeat constructor|].
  inversion HD as [|? ? Dy Dl]; subst.
  inversion Hs as [|? ? Hs' Hfs]; subst.
  inversion HP as [|? ? Py Pl]; subst.
  inversion Hk as [|? ? Hk' Hfk]; subst.
  destruct (after y x) eqn:E.
  - constructor; [exact Hk|]. constructor; [right; exact E|].
    apply Forall_forall. intros z Hz. right.
    apply (after_total y z x); auto.
    + exact (proj1 (Forall_forall _ _) Dl z Hz).
    + exact (proj1 (Forall_forall _ _) Hfs z Hz).
  - constructor; [apply IH; assumption|].
    apply Forall_forall. intros z Hz.
    apply (Permutation_in _ (Permutation_sym (insert_perm x l))) in Hz.
    destruct Hz as [<-|Hz]; [left; exact Py|].
    exact (proj1 (Forall_forall _ _) Hfk z Hz).
Qed.

Hypothesis after_irrefl : forall a, after a a = false.
Hypothesis after_trans :
  forall a b c, after a b = true -> after b c = true -> after a c = true.

Lemma js_sort_stable l :
  Forall D l -> StronglySorted P l -> StronglySorted kept_or_strict (js_sort after l).
Proof.
  induction l as [|x l IH] using rev_ind; intros HD HP; [constructor|].
  apply Forall_app in HD. destruct HD as [HD _].
  apply StronglySorted_snoc in HP. destruct HP as [HP Hx].
  rewrite js_sort_snoc. apply insert_stable.
  - apply js_sort_Forall, HD.
  - apply js_sort_sorted; assumption.
  - apply js_sort_Forall, Hx.
  - apply IH; assumption.
Qed.

End Stable.
End Sorting.
End JsArray.

(** ** The two comparators *)

Lemma createdAt_after_lt a b :
  createdAt_after a b = (createdAt b <? createdAt a)%float.
Proof. apply IEEE.sub_pos. Qed.

Lemma score_after_lt a b : score_after a b = (score a <? score b)%float.
Proof. apply IEEE.sub_pos. Qed.

Lemma createdAt_after_irrefl a : createdAt_after a a = false.
Proof. rewrite createdAt_after_lt. apply IEEE.ltb_irrefl. Qed.

Lemma createdAt_after_trans a b c :
  createdAt_after a b = true -> createdAt_after b c = true ->
  createdAt_after a c = true.
Proof.
  rewrite !createdAt_after_lt. intros H1 H2. exact (IEEE.ltb_trans _ _ _ H2 H1).
Qed.

Lemma score_after_irrefl a : score_after a a = false.
Proof. rewrite score_after_lt. apply IEEE.ltb_irrefl. Qed.

Lemma score_after_trans a b c :
  score_after a b = true -> score_after b c = true -> score_after a c = true.
Proof. rewrite !score_after_lt. apply IEEE.ltb_trans. Qed.

(** "No later record is strictly older": ascending [createdAt]. *)
Definition ascending (a b : MemoryRecord) : Prop :=
  (createdAt b <? createdAt a)%float = false.

Lemma sorted_store_ascending st :
  StronglySorted ascending (js_sort createdAt_after st).
Proof.
  eapply JsArray.StronglySorted_impl;
    [|apply (JsArray.js_sort_sorted createdAt_after createdAt_after_irrefl
               createdAt_after_trans)].
  intros a b _ _. unfold JsArray.ordered, ascending.
  rewrite createdAt_after_lt. auto.
Qed.

(** ** Sizes *)

Lemma splice1_length {A : Type} (l : list A) : forall i,
  i < length l -> S (length (splice1 i l)) = length l.
Proof.
  induction l as [|x l IH]; intros [|i] H; simpl in *; try lia.
  rewrite IH; lia.
Qed.

Lemma findIndex_Some {A : Type} (p : A -> bool) (l : list A) : forall i,
  findIndex p l = Some i ->
  exists l1 x l2, l = l1 ++ x :: l2 /\ length l1 = i /\ p x = true /\
                  forallb (fun y => negb (p y)) l1 = true /\
                  splice1 i l = l1 ++ l2.
Proof.
  induction l as [|x l IH]; intros i H; simpl in H; [discriminate|].
  destruct (p x) eqn:E.
  - injection H as <-. exists [], x, l. auto.
  - destruct (findIndex p l) as [j|] eqn:Ej; [|discriminate].
    injection H as <-. destruct (IH j eq_refl) as (l1 & y & l2 & -> & <- & Hy & Hn & Hs).
    exists (x :: l1), y, l2. simpl. rewrite E, Hn, Hs. auto.
Qed.

Lemma findIndex_None {A : Type} (p : A -> bool) (l : list A) :
  findIndex p l = None <-> forallb (fun y => negb (p y)) l = true.
Proof.
  induction l as [|x l IH]; simpl; [tauto|].
  destruct (p x); simpl; [split; discriminate|].
  rewrite <- IH. destruct (findIndex p l); simpl; split; congruence.
Qed.

Lemma delete_local_length st key :
  length (snd (delete_local st key)) <= length st.
Proof.
  unfold delete_local.
  destruct (findIndex _ st) as [i|] eqn:E; simpl; [|lia].
  destruct (findIndex_Some _ _ _ E) as (l1 & x & l2 & -> & _ & _ & _ & ->).
  rewrite !length_app. simpl. lia.
Qed.

Lemma evict_length st : length (evict st) = Nat.pred (length st).
Proof.
  unfold evict, shift. rewrite <- (JsArray.js_sort_length createdAt_after st).
  destruct (js_sort createdAt_after st); reflexivity.
Qed.

Lemma store_records_length cap st uuid e now :
  length (store_records cap st uuid e now) =
  S (if at_capacity cap st then Nat.pred (length st) else length st).
Proof.
  unfold store_records. rewrite length_app. simpl.
  destruct (at_capacity cap st); rewrite ?evict_length; lia.
Qed.

(** ** C1: the capacity bound *)

(** C1 (as amended).  With an integer capacity [1 <= maxSize < 999999]
    (the guard of line 135 treats every larger value as "no limit"),
    every state reached by [store] and [delete] from an array of at most
    [maxSize] records, the empty one in particular, holds at most
    [maxSize] records. *)
Theorem store_respects_capacity cap st0 st :
  (1 <= cap < 999999)%Z ->
  (Z.of_nat (length st0) <= cap)%Z ->
  reachable cap st0 st ->
  (Z.of_nat (length st) <= cap)%Z.
Proof.
  intros Hcap H0 Hr. induction Hr as [|st uuid e now _ IH|st key _ IH].
  - exact H0.
  - rewrite store_records_length. unfold at_capacity.
    destruct (Z.ltb_spec cap 999999); [|lia]. simpl.
    destruct (Z.leb_spec cap (Z.of_nat (length st))); lia.
  - pose proof (delete_local_length st key). lia.
Qed.

Definition sample_entry : Entry :=
  {| entry_text := "likes tea"; entry_vector := [1; 0]%float;
     entry_category := "preference"; entry_importance := 0.5%float |}.

(** Three stores into the empty store at capacity 2: the third finds
    the store full and evicts. *)
Lemma store_respects_capacity_witness :
  let st1 := store_records 2 [] "u1" sample_entry 1%float in
  let st2 := store_records 2 st1 "u2" sample_entry 2%float in
  let st3 := store_records 2 st2 "u3" sample_entry 3%float in
  at_capacity 2 st2 = true /\
  map id st3 = ["u2"; "u3"]%string /\
  (Z.of_nat (length st3) <= 2)%Z.
Proof.
  cbv zeta. split; [reflexivity|]. split; [reflexivity|].
  apply (store_respects_capacity 2 []); [lia | simpl; lia |].
  apply reach_store, reach_store, reach_store, reach_init.
Defined.

(** With [maxSize = 0] the first [store] on the empty store finds the
    guard true, shifts nothing and pushes: one record is stored. *)
Lemma capacity_zero_exceeded :
  exists db,
    constructor None "memories" (Some 0%Z) None {| files := []; directories := []; writable := true |}
      = Some db /\
    (maxSize db < 999999)%Z /\
    let '(_, db', _) :=
      store_local db sample_entry "u1" 1%float "t" {| files := []; directories := []; writable := true |} in
    reachable (maxSize db) [] (memoryStore db') /\
    ~ (Z.of_nat (length (memoryStore db')) <= maxSize db')%Z.
Proof.
  eexists. split; [reflexivity|]. split; [reflexivity|]. simpl. split.
  - apply (reach_store 0 [] [] "u1" sample_entry 1%float), reach_init.
  - cbn. lia.
Qed.

(** ** C2: what an evicting [store] removes *)

Lemma evict_oldest st :
  st <> [] ->
  exists evicted l1 l2,
    st = l1 ++ evicted :: l2 /\
    Permutation (l1 ++ l2) (evict st) /\
    Forall (fun r => (createdAt r <? createdAt evicted)%float = false) st /\
    Forall (fun r => (createdAt r <=? createdAt evicted)%float = false) l1.
Proof.
  intros Hne. unfold evict, shift.
  destruct (js_sort createdAt_after st) as [|h rest] eqn:E.
  - exfalso. apply Hne, Permutation_nil. rewrite <- E.
    symmetry. apply JsArray.js_sort_perm.
  - assert (H2 : forall r h' t, (createdAt r <=? createdAt h')%float = true ->
                  createdAt_after t h' = true -> createdAt_after t r = true).
    { intros r h' t Hr. rewrite !createdAt_after_lt. apply IEEE.leb_ltb_trans, Hr. }
    destruct (JsArray.js_sort_head createdAt_after createdAt_after_irrefl
                createdAt_after_trans _ H2 st h rest E)
      as (l1 & l2 & El & Hp & Hmin & Hle).
    exists h, l1, l2. repeat split; try assumption.
    eapply Forall_impl; [|exact Hmin].
    intros r Hr. cbv beta in Hr. rewrite createdAt_after_lt in Hr. exact Hr.
Qed.

Definition record_A : MemoryRecord :=
  {| id := "A"; text := "a"; vector := [1; 0]%float; category := "fact";
     importance := 0.5%float; createdAt := 1%float |}.
Definition record_B : MemoryRecord :=
  {| id := "B"; text := "b"; vector := [0; 1]%float; category := "fact";
     importance := 0.5%float; createdAt := 2%float |}.
Definition entry_of (r : MemoryRecord) : Entry :=
  {| entry_text := text r; entry_vector := vector r;
     entry_category := category r; entry_importance := importance r |}.
Definition entry_C : Entry :=
  {| entry_text := "c"; entry_vector := [1; 1]%float; entry_category := "fact";
     entry_importance := 0.5%float |}.

(** C2 (as amended).  When a non-empty local store whose timestamps
    are numbers (none is NaN) is at a capacity below 999999, [store]
    removes exactly one record and appends the new one.  The record
    removed has the smallest [createdAt] (it is [<=] that of every record,
    none is strictly older) and, among those, is the one stored first (no
    record before it in the array is as old).  In particular, with
    capacity 2, storing A(t=1), B(t=2), C(t=3) in this order leaves B and
    C. *)
Theorem store_evicts_oldest :
  (forall cap st uuid e now,
     (cap < 999999)%Z ->
     (cap <= Z.of_nat (length st))%Z ->
     st <> [] ->
     Forall (fun r => is_nan (createdAt r) = false) st ->
     exists evicted l1 l2 rest,
       st = l1 ++ evicted :: l2 /\
       Permutation (l1 ++ l2) rest /\
       store_records cap st uuid e now = rest ++ [make_record uuid e now] /\
       Forall (fun r => (createdAt r <? createdAt evicted)%float = false) st /\
       Forall (fun r => (createdAt evicted <=? createdAt r)%float = true) st /\
       Forall (fun r => (createdAt r <=? createdAt evicted)%float = false) l1) /\
  (let st1 := store_records 2 [] "A" (entry_of record_A) 1%float in
   let st2 := store_records 2 st1 "B" (entry_of record_B) 2%float in
   let st3 := store_records 2 st2 "C" entry_C 3%float in
   st2 = [record_A; record_B] /\ st3 = [record_B; make_record "C" entry_C 3%float]).
Proof.
  split; [|split; reflexivity].
  intros cap st uuid e now Hcap Hfull Hne Hnum.
  destruct (evict_oldest st Hne) as (ev & l1 & l2 & El & Hp & Hmin & Hle).
  exists ev, l1, l2, (evict st).
  split; [exact El|]. split; [exact Hp|]. split; [|split; [exact Hmin|split; [|exact Hle]]].
  - unfold store_records, at_capacity.
    destruct (Z.ltb_spec cap 999999); [|lia].
    destruct (Z.leb_spec cap (Z.of_nat (length st))); [|lia].
    reflexivity.
  - rewrite Forall_forall in *. intros r Hr.
    apply IEEE.leb_total; [apply Hnum, Hr | | apply Hmin, Hr].
    apply Hnum. rewrite El. apply in_or_app. right. left. reflexivity.
Qed.

Lemma store_evicts_oldest_witness :
  exists evicted l1 l2 rest,
    [record_A; record_B] = l1 ++ evicted :: l2 /\
    Permutation (l1 ++ l2) rest /\
    store_records 2 [record_A; record_B] "C" entry_C 3%float
      = rest ++ [make_record "C" entry_C 3%float] /\
    Forall (fun r => (createdAt r <? createdAt evicted)%float = false)
      [record_A; record_B] /\
    Forall (fun r => (createdAt evicted <=? createdAt r)%float = true)
      [record_A; record_B] /\
    Forall (fun r => (createdAt r <=? createdAt evicted)%float = false) l1.
Proof.
  apply (proj1 store_evicts_oldest 2%Z [record_A; record_B] "C"%string entry_C 3%float);
    [lia | simpl; lia | discriminate | repeat constructor].
Defined.

(** An empty store is at capacity when [maxSize <= 0]; [store] then
    removes nothing. *)
Lemma empty_store_at_capacity_removes_nothing :
  at_capacity 0 [] = true /\
  store_records 0 [] "u1" sample_entry 1%float = [make_record "u1" sample_entry 1%float] /\
  ~ (exists evicted l1 l2 rest,
       @nil MemoryRecord = l1 ++ evicted :: l2 /\
       store_records 0 [] "u1" sample_entry 1%float
         = rest ++ [make_record "u1" sample_entry 1%float]).
Proof.
  split; [reflexivity|]. split; [reflexivity|].
  intros (ev & l1 & l2 & rest & H & _). destruct l1; discriminate.
Qed.

(** ** C9: the eviction leaves the array sorted *)

(** C9.  An evicting [store] on a store whose timestamps are numbers
    (none is NaN) sorts the whole array by ascending [createdAt] before
    it drops the first element: the survivors are stored in that order,
    whatever order they were stored in before, and the new record follows
    them. *)
Theorem eviction_sorts_store cap st uuid e now :
  at_capacity cap st = true ->
  Forall (fun r => is_nan (createdAt r) = false) st ->
  store_records cap st uuid e now
    = shift (js_sort createdAt_after st) ++ [make_record uuid e now] /\
  Permutation st (js_sort createdAt_after st) /\
  StronglySorted ascending (js_sort createdAt_after st) /\
  StronglySorted ascending (shift (js_sort createdAt_after st)) /\
  StronglySorted (fun a b => (createdAt a <=? createdAt b)%float = true)
    (js_sort createdAt_after st) /\
  StronglySorted (fun a b => (createdAt a <=? createdAt b)%float = true)
    (shift (js_sort createdAt_after st)).
Proof.
  intros Hcap Hnum. unfold store_records. rewrite Hcap.
  pose proof (sorted_store_ascending st) as Hs.
  assert (Hle : StronglySorted (fun a b => (createdAt a <=? createdAt b)%float = true)
                  (js_sort createdAt_after st)).
  { apply (JsArray.js_sort_Forall createdAt_after) in Hnum.
    rewrite Forall_forall in Hnum.
    eapply JsArray.StronglySorted_impl; [|exact Hs].
    intros a b Ha Hb Hab. apply IEEE.leb_total; auto. }
  assert (Htl : forall (R : MemoryRecord -> MemoryRecord -> Prop),
             StronglySorted R (js_sort createdAt_after st) ->
             StronglySorted R (shift (js_sort createdAt_after st))).
  { intros R HR. unfold shift. destruct (js_sort createdAt_after st); [constructor|].
    inversion HR; assumption. }
  split; [reflexivity|]. split; [apply JsArray.js_sort_perm|].
  split; [exact Hs|]. split; [apply Htl, Hs|]. split; [exact Hle | apply Htl, Hle].
Qed.

Definition record_X : MemoryRecord :=
  {| id := "X"; text := "x"; vector := [1; 0]%float; category := "fact";
     importance := 0.5%float; createdAt := 5%float |}.
Definition record_Y : MemoryRecord :=
  {| id := "Y"; text := "y"; vector := [1; 0]%float; category := "fact";
     importance := 0.5%float; createdAt := 3%float |}.
Definition record_Z : MemoryRecord :=
  {| id := "Z"; text := "z"; vector := [1; 0]%float; category := "fact";
     importance := 0.5%float; createdAt := 4%float |}.

Lemma eviction_sorts_store_witness :
  store_records 3 [record_X; record_Y; record_Z] "C" entry_C 6%float
    = shift (js_sort createdAt_after [record_X; record_Y; record_Z])
      ++ [make_record "C" entry_C 6%float] /\
  Permutation [record_X; record_Y; record_Z]
    (js_sort createdAt_after [record_X; record_Y; record_Z]) /\
  StronglySorted ascending (js_sort createdAt_after [record_X; record_Y; record_Z]) /\
  StronglySorted ascending
    (shift (js_sort createdAt_after [record_X; record_Y; record_Z])) /\
  StronglySorted (fun a b => (createdAt a <=? createdAt b)%float = true)
    (js_sort createdAt_after [record_X; record_Y; record_Z]) /\
  StronglySorted (fun a b => (createdAt a <=? createdAt b)%float = true)
    (shift (js_sort createdAt_after [record_X; record_Y; record_Z])).
Proof.
  apply (eviction_sorts_store 3 [record_X; record_Y; record_Z] "C" entry_C 6%float);
    [reflexivity | repeat constructor].
Defined.

(** Records loaded in another order than that of their timestamps are
    re-ordered by the first evicting [store]. *)
Example eviction_reorders_store :
  map id (store_records 3 [record_X; record_Y; record_Z] "C" entry_C 6%float)
    = ["Z"; "X"; "C"]%string.
Proof. reflexivity. Qed.

(** ** C3: the local search *)

Lemma entry_scored q r : entry (scored q r) = strip r.
Proof. reflexivity. Qed.

Lemma score_after_total minScore y z x :
  (minScore <=? score y)%float = true -> (minScore <=? score z)%float = true ->
  score_after y x = true -> score_after y z = false -> score_after z x = true.
Proof.
  rewrite !score_after_lt. intros Hy Hz Hyx Hyz.
  apply (IEEE.leb_ltb_trans _ (score y)); [|exact Hyx].
  apply IEEE.leb_total; eauto using IEEE.leb_is_number.
Qed.

Section Search.
Variables (st : list MemoryRecord) (query : list float) (limit : Z) (minScore : float).

Let candidates : list SearchResult :=
  filter (fun r => (minScore <=? score r)%float) (map (scored query) st).

Lemma candidates_above : Forall (fun r => (minScore <=? score r)%float = true) candidates.
Proof. apply Forall_forall. intros r Hr. apply filter_In in Hr. tauto. Qed.

Lemma candidates_stripped : Forall (fun r => vector (entry r) = []) candidates.
Proof.
  apply Forall_forall. intros r Hr. apply filter_In in Hr. destruct Hr as [Hr _].
  apply in_map_iff in Hr. destruct Hr as (x & <- & _). reflexivity.
Qed.

Lemma search_local_prefix :
  exists k, search_local st query limit minScore
            = firstn k (js_sort score_after candidates).
Proof. apply JsArray.slice0_firstn. Qed.

Lemma search_local_above :
  Forall (fun r => (minScore <=? score r)%float = true)
    (search_local st query limit minScore).
Proof.
  destruct search_local_prefix as [k ->].
  apply JsArray.Forall_firstn, JsArray.js_sort_Forall, candidates_above.
Qed.

Lemma search_local_stripped :
  Forall (fun r => vector (entry r) = []) (search_local st query limit minScore).
Proof.
  destruct search_local_prefix as [k ->].
  apply JsArray.Forall_firstn, JsArray.js_sort_Forall, candidates_stripped.
Qed.

Lemma search_local_descending :
  StronglySorted (fun a b => (score b <=? score a)%float = true)
    (search_local st query limit minScore).
Proof.
  pose proof search_local_above as Habove.
  destruct search_local_prefix as [k E]. rewrite E in *.
  eapply JsArray.StronglySorted_impl;
    [|apply JsArray.StronglySorted_firstn,
        (JsArray.js_sort_sorted score_after score_after_irrefl score_after_trans)].
  rewrite Forall_forall in Habove.
  intros a b Ha Hb. unfold JsArray.ordered. rewrite score_after_lt. intros Hab.
  apply IEEE.leb_total; eauto using IEEE.leb_is_number.
Qed.

(** Stability: results of equal score stand as their records stand in
    the store. *)
Lemma search_local_stable (P : MemoryRecord -> MemoryRecord -> Prop) :
  StronglySorted (fun r1 r2 => P (strip r1) (strip r2)) st ->
  StronglySorted
    (fun a b => (score a =? score b)%float = true -> P (entry a) (entry b))
    (search_local st query limit minScore).
Proof.
  intros HP. destruct search_local_prefix as [k ->].
  apply JsArray.StronglySorted_firstn.
  eapply JsArray.StronglySorted_impl;
    [|apply (JsArray.js_sort_stable score_after
               (fun r => (minScore <=? score r)%float = true)
               (score_after_total minScore)
               (fun a b => P (entry a) (entry b))
               score_after_irrefl score_after_trans)].
  - intros a b _ _ [H|H] Htie; [exact H|].
    rewrite score_after_lt, (IEEE.eqb_not_ltb _ _ Htie) in H. discriminate.
  - apply candidates_above.
  - apply JsArray.StronglySorted_filter.
    apply -> (JsArray.StronglySorted_map (scored query)
                (fun a b => P (entry a) (entry b))).
    exact HP.
Qed.

End Search.

(** C3 (as amended).  For a limit [>= 0], the local [search] returns at
    most [limit] entries, each with a score [>= minScore] and an empty
    [vector], in descending order of score.  Entries of equal score stand
    in the order in which their records are stored (the sort is stable):
    any relation that holds between each record and the records stored
    after it holds between tied results.  They are therefore in ascending
    [createdAt] whenever the stored array is. *)
Theorem search_local_spec st query limit minScore :
  (0 <= limit)%Z ->
  let results := search_local st query limit minScore in
  (Z.of_nat (length results) <= limit)%Z /\
  Forall (fun r => (minScore <=? score r)%float = true) results /\
  StronglySorted (fun a b => (score b <=? score a)%float = true) results /\
  Forall (fun r => vector (entry r) = []) results /\
  (forall P : MemoryRecord -> MemoryRecord -> Prop,
     StronglySorted (fun r1 r2 => P (strip r1) (strip r2)) st ->
     StronglySorted
       (fun a b => (score a =? score b)%float = true -> P (entry a) (entry b))
       results) /\
  (StronglySorted ascending st ->
   StronglySorted
     (fun a b => (score a =? score b)%float = true -> ascending (entry a) (entry b))
     results).
Proof.
  intros Hlimit results. subst results.
  split; [apply JsArray.slice0_length, Hlimit|].
  split; [apply search_local_above|].
  split; [apply search_local_descending|].
  split; [apply search_local_stripped|].
  split; [intros P; apply search_local_stable|].
  intros Hasc. apply (search_local_stable st query limit minScore ascending).
  exact Hasc.
Qed.

(** Five records stored in ascending [createdAt]; against the query
    [[1, 0]], Y and Z score 1, D and E score the same lower value, and B
    scores 0. *)
Definition record_D : MemoryRecord := make_record "D" entry_C 6%float.
Definition record_E : MemoryRecord := make_record "E" entry_C 7%float.

Definition tied_store : list MemoryRecord :=
  [record_B; record_Y; record_Z; record_D; record_E].

(** On it a search with limit 3 drops B (below [minScore]), returns the
    tied Y and Z in stored order, then D, and cuts E, which ties with D
    and is stored after it. *)
Lemma search_local_spec_witness :
  let results := search_local tied_store [1; 0]%float 3 0.3%float in
  map (fun r => id (entry r)) results = ["Y"; "Z"; "D"]%string /\
  (score (scored [1; 0]%float record_Y) =? score (scored [1; 0]%float record_Z))%float
    = true /\
  (score (scored [1; 0]%float record_D) =? score (scored [1; 0]%float record_E))%float
    = true /\
  (Z.of_nat (length results) <= 3)%Z /\
  Forall (fun r => (0.3 <=? score r)%float = true) results /\
  StronglySorted (fun a b => (score b <=? score a)%float = true) results /\
  Forall (fun r => vector (entry r) = []) results /\
  StronglySorted
    (fun a b => (score a =? score b)%float = true ->
                (createdAt (entry a) <? createdAt (entry b))%float = true)
    results /\
  StronglySorted
    (fun a b => (score a =? score b)%float = true -> ascending (entry a) (entry b))
    results.
Proof.
  pose proof (search_local_spec tied_store [1; 0]%float 3 0.3%float) as H.
  cbv zeta in *.
  destruct H as (Hlen & Habove & Hdesc & Hstrip & Hstable & Hasc); [lia|].
  split; [reflexivity|]. split; [reflexivity|]. split; [reflexivity|].
  split; [exact Hlen|]. split; [exact Habove|]. split; [exact Hdesc|].
  split; [exact Hstrip|]. split.
  - apply (Hstable (fun r1 r2 => (createdAt r1 <? createdAt r2)%float = true)).
    unfold tied_store. repeat constructor.
  - apply Hasc. unfold tied_store. repeat constructor.
Defined.

(** Scenarios B and C of the specification. *)
Example scenario_B : search_local [] [1; 0]%float 5 0.3%float = [].
Proof. reflexivity. Qed.

Example scenario_C :
  search_local [record_A] [1; 0]%float 1 0.9%float
    = [ {| entry := strip record_A; score := 1%float |} ].
Proof. reflexivity. Qed.

(** The sort of an evicting [store] changes the order in which a later
    search returns records of equal score. *)
Example eviction_changes_tie_order :
  map (fun r => id (entry r))
    (search_local [record_X; record_Y; record_Z] [1; 0]%float 2 0.9%float)
    = ["X"; "Y"]%string /\
  map (fun r => id (entry r))
    (search_local (store_records 3 [record_X; record_Y; record_Z] "C" entry_C 6%float)
       [1; 0]%float 2 0.9%float)
    = ["Z"; "X"]%string.
Proof. split; reflexivity. Qed.

(** A snapshot may list records in any order, and the constructor loads
    it as it is.  Two records of equal score are then returned in stored
    order although the second is the older one. *)
Lemma tie_not_broken_by_createdAt :
  let d := {| files :=
                [ ("/data/memories.json"%string,
                   JsonText
                     (JObj [ ("memories",
                              JArr (map (fun r =>
                                           match JSON_stringify (value_of_record r) with
                                           | Some j => j
                                           | None => JNull
                                           end) [record_X; record_Y])) ]%string)) ];
              directories := ["/data"%string];
              writable := true |} in
  exists db,
    constructor None "memories" None (Some "/data/memories.json"%string) d = Some db /\
    memoryStore db = [record_X; record_Y] /\
    search_local (memoryStore db) [1; 0]%float 2 0.3%float
      = [ {| entry := strip record_X; score := 1%float |};
          {| entry := strip record_Y; score := 1%float |} ] /\
    (createdAt record_Y <? createdAt record_X)%float = true.
Proof.
  eexists. split; [reflexivity|]. split; [reflexivity|]. split; reflexivity.
Qed.

(** ** The similarity loop *)

Section CosineFacts.
Context {N : Type}.
Variables (zero undef : N) (add mul div : N -> N -> N) (sqrt : N -> N).
Variable is_zero : N -> bool.

Local Abbreviation loop := (cosine_loop undef add mul).

(** On vectors of equal length the loop computes the three sums. *)
Lemma cosine_loop_sums a : forall b pa pb dot nA nB,
  length a = length b -> length pa = length pb ->
  loop (length a) (length pa) (pa ++ a) (pb ++ b) dot nA nB =
  (fold_left (fun s p => add s (mul (fst p) (snd p))) (combine a b) dot,
   fold_left (fun s x => add s (mul x x)) a nA,
   fold_left (fun s x => add s (mul x x)) b nB).
Proof.
  induction a as [|x a IH]; intros [|y b] pa pb dot nA nB Hab Hp;
    try discriminate; [reflexivity|].
  simpl in Hab. injection Hab as Hab.
  cbn [length cosine_loop combine fold_left fst snd].
  unfold idx. rewrite (nth_middle pa a x undef).
  rewrite Hp, (nth_middle pb b y undef), <- Hp.
  specialize (IH b (pa ++ [x]) (pb ++ [y])).
  rewrite !length_app, <- !app_assoc in IH. simpl in IH.
  rewrite Nat.add_1_r in IH. apply IH; [exact Hab | lia].
Qed.

Lemma cosineSimilarity_formula a b :
  length a = length b ->
  cosineSimilarity_over zero undef add mul div sqrt is_zero a b =
  similarity_formula_over zero add mul div sqrt is_zero a b.
Proof.
  intros H. unfold cosineSimilarity_over, similarity_formula_over.
  pose proof (cosine_loop_sums a b [] [] zero zero zero H eq_refl) as E.
  cbn [app length] in E. rewrite E. reflexivity.
Qed.

(** Components of [b] past the length of [a] are never read. *)
Lemma idx_firstn k (b : list N) i : i < k -> idx undef (firstn k b) i = idx undef b i.
Proof.
  intros H. unfold idx. rewrite nth_firstn.
  destruct (Nat.ltb_spec i k); [reflexivity | lia].
Qed.

Lemma cosine_loop_prefix n : forall i a b dot nA nB,
  i + n <= length a ->
  loop n i a b dot nA nB = loop n i a (firstn (length a) b) dot nA nB.
Proof.
  induction n as [|n IH]; intros i a b dot nA nB H; [reflexivity|].
  cbn [cosine_loop]. rewrite idx_firstn by lia.
  apply IH. lia.
Qed.

Lemma cosineSimilarity_prefix a b :
  cosineSimilarity_over zero undef add mul div sqrt is_zero a b =
  cosineSimilarity_over zero undef add mul div sqrt is_zero a (firstn (length a) b).
Proof.
  unfold cosineSimilarity_over.
  rewrite (cosine_loop_prefix (length a) 0 a b); [reflexivity | lia].
Qed.

End CosineFacts.

(** ** C10: vectors of different lengths *)

Lemma cosine_loop_nan_stays n : forall i a b nA,
  exists nA',
    cosine_loop nan PrimFloat.add PrimFloat.mul n i a b nan nA nan = (nan, nA', nan).
Proof.
  induction n as [|n IH]; intros i a b nA; [eexists; reflexivity|].
  cbn [cosine_loop]. rewrite !IEEE.add_nan_l. apply IH.
Qed.

(** Once the index passes the end of [b], [b[i]] is [undefined]: the dot
    product and the norm of [b] become NaN and stay so. *)
Lemma cosine_loop_short n : forall i a b dot nA nB,
  i <= length b -> length b < i + n ->
  exists nA',
    cosine_loop nan PrimFloat.add PrimFloat.mul n i a b dot nA nB = (nan, nA', nan).
Proof.
  induction n as [|n IH]; intros i a b dot nA nB Hi Hn; [lia|].
  cbn [cosine_loop].
  destruct (Nat.eq_dec i (length b)) as [->|Hne].
  - unfold idx at 2 5 6. rewrite (nth_overflow b nan (Nat.le_refl _)).
    rewrite !IEEE.mul_nan_r, !IEEE.add_nan_r. apply cosine_loop_nan_stays.
  - apply IH; lia.
Qed.

Lemma cosineSimilarity_short query b :
  length b < length query -> cosineSimilarity query b = nan.
Proof.
  intros H. unfold cosineSimilarity, cosineSimilarity_over.
  destruct (cosine_loop_short (length query) 0 query b 0%float 0%float 0%float)
    as [nA' ->]; [lia | lia |].
  change (PrimFloat.sqrt nan) with nan.
  rewrite IEEE.mul_nan_r, IEEE.eqb_nan_l. apply IEEE.div_nan_l.
Qed.

Definition long_enough (query : list float) (r : MemoryRecord) : bool :=
  length query <=? length (vector r).

Lemma search_local_skips_short st query limit minScore :
  search_local st query limit minScore =
  search_local (filter (long_enough query) st) query limit minScore.
Proof.
  unfold search_local. do 2 f_equal.
  induction st as [|r st IH]; [reflexivity|].
  cbn [map filter]. unfold long_enough at 1.
  destruct (Nat.leb_spec (length query) (length (vector r))) as [H|H].
  - cbn [map filter]. destruct (minScore <=? _)%float; rewrite IH; reflexivity.
  - cbn [scored score]. rewrite (cosineSimilarity_short _ _ H), IEEE.leb_nan_r.
    exact IH.
Qed.

(** A server that is reachable and holds the collection, but whose
    similarity query fails. *)
Definition server_error : JsError :=
  {| err_name := "Error"; err_message := "Internal Server Error";
     err_status := Some 500%Z |}.

Definition search_down : QdrantClient (list Point) :=
  {| client_url := Some "http://localhost:6333"%string;
     getCollection := fun _ pts => (Return (Some (Z.of_nat (length pts))), pts);
     createCollection := fun _ _ _ pts => (Return tt, pts);
     getCollections := fun pts => (Return tt, pts);
     upsert := fun _ p pts => (Return tt, pts ++ [p]);
     client_search := fun _ _ _ _ pts => (Throw server_error, pts);
     client_delete := fun _ ids pts =>
       (Return tt,
        filter (fun p => negb (existsb (String.eqb (point_id p)) ids)) pts) |}.

(** A server that cannot be reached at all. *)
Definition connection_refused : JsError :=
  {| err_name := "TypeError"; err_message := "fetch failed"; err_status := None |}.

Definition offline : QdrantClient unit :=
  {| client_url := Some "http://localhost:6333"%string;
     getCollection := fun _ s => (Throw connection_refused, s);
     createCollection := fun _ _ _ s => (Throw connection_refused, s);
     getCollections := fun s => (Throw connection_refused, s);
     upsert := fun _ _ s => (Throw connection_refused, s);
     client_search := fun _ _ _ _ s => (Throw connection_refused, s);
     client_delete := fun _ _ s => (Throw connection_refused, s) |}.

(** The global names of a Node.js process that the module could see. *)
Definition node_globals : list string :=
  [ "globalThis"; "console"; "process"; "Buffer"; "setTimeout"; "clearTimeout";
    "setInterval"; "clearInterval"; "queueMicrotask"; "structuredClone";
    "fetch"; "URL"; "JSON"; "Math"; "Date"; "Promise"; "Error"; "Array";
    "Object"; "String"; "Number" ]%string.

Definition local_db (cap : Z) (st : list MemoryRecord) : MemoryDB :=
  {| useMemoryFallback := true; memoryStore := st; collectionName := "memories";
     maxSize := cap; initialized := true; persistPath := None |}.

Definition remote_db : MemoryDB :=
  {| useMemoryFallback := false; memoryStore := []; collectionName := "memories";
     maxSize := 0; initialized := false; persistPath := None |}.

Definition no_disk : Disk := {| files := []; directories := []; writable := true |}.

(** C10.  The local [search] returns normally whatever the lengths of
    the vectors.  A record whose vector is shorter than the query scores
    NaN, fails [score >= minScore] and is left out, so that the result is
    that of the search over the other records; a vector at least as long
    as the query is scored on its first [query.length] components only:
    its score is the quotient of the dot product by the product of the
    square roots of the norms, all three taken over the query and that
    prefix (and 0 when that product is 0). *)
Theorem search_tolerates_length_mismatch {S : Type} (client : QdrantClient S)
    (globals : list string) (w : World S) query limit minScore :
  useMemoryFallback (this w) = true ->
  search client globals query limit minScore w
    = (Return (search_local (memoryStore (this w)) query limit minScore), w) /\
  (forall r, length (vector r) < length query ->
     score (scored query r) = nan /\ (minScore <=? score (scored query r))%float = false) /\
  search_local (memoryStore (this w)) query limit minScore
    = search_local (filter (long_enough query) (memoryStore (this w)))
        query limit minScore /\
  (forall r, length query <= length (vector r) ->
     let prefix := firstn (length query) (vector r) in
     score (scored query r) = cosineSimilarity query prefix /\
     score (scored query r) =
       (let denom := (PrimFloat.sqrt (norm2 query) * PrimFloat.sqrt (norm2 prefix))%float in
        if (denom =? 0)%float then 0%float else (dot query prefix / denom)%float)).
Proof.
  intros Hlocal. split; [|split; [|split]].
  - unfold search, bind, get_this. rewrite Hlocal. reflexivity.
  - intros r Hr. cbn [scored score].
    rewrite (cosineSimilarity_short _ _ Hr). split; [reflexivity|apply IEEE.leb_nan_r].
  - apply search_local_skips_short.
  - intros r Hr prefix. cbn [scored score].
    assert (E : cosineSimilarity query (vector r) = cosineSimilarity query prefix)
      by apply cosineSimilarity_prefix.
    split; [exact E|]. rewrite E. unfold cosineSimilarity.
    rewrite (cosineSimilarity_formula 0%float nan PrimFloat.add PrimFloat.mul
               PrimFloat.div PrimFloat.sqrt (fun d => (d =? 0)%float) query prefix).
    + reflexivity.
    + subst prefix. rewrite length_firstn. lia.
Qed.

Definition record_short : MemoryRecord :=
  {| id := "S"; text := "s"; vector := [1]%float; category := "fact";
     importance := 0.5%float; createdAt := 7%float |}.
Definition record_long : MemoryRecord :=
  {| id := "L"; text := "l"; vector := [1; 0; 9]%float; category := "fact";
     importance := 0.5%float; createdAt := 8%float |}.

Lemma search_tolerates_length_mismatch_witness :
  let w := {| this := local_db 1000 [record_short; record_long];
              server := tt; disk := no_disk |} in
  search offline node_globals [1; 0]%float 5 0.3%float w
    = (Return (search_local (memoryStore (this w)) [1; 0]%float 5 0.3%float), w) /\
  (forall r, length (vector r) < length [1; 0]%float ->
     score (scored [1; 0]%float r) = nan /\
     (0.3 <=? score (scored [1; 0]%float r))%float = false) /\
  search_local (memoryStore (this w)) [1; 0]%float 5 0.3%float
    = search_local (filter (long_enough [1; 0]%float) (memoryStore (this w)))
        [1; 0]%float 5 0.3%float /\
  (forall r, length [1; 0]%float <= length (vector r) ->
     let prefix := firstn (length [1; 0]%float) (vector r) in
     score (scored [1; 0]%float r) = cosineSimilarity [1; 0]%float prefix /\
     score (scored [1; 0]%float r) =
       (let denom :=
          (PrimFloat.sqrt (norm2 [1; 0]%float) * PrimFloat.sqrt (norm2 prefix))%float in
        if (denom =? 0)%float then 0%float
        else (dot [1; 0]%float prefix / denom)%float)).
Proof.
  apply (search_tolerates_length_mismatch offline node_globals
           {| this := local_db 1000 [record_short; record_long];
              server := tt; disk := no_disk |} [1; 0]%float 5 0.3%float).
  reflexivity.
Defined.

(** The scores of the two records of the witness: NaN for the short one,
    and for the long one the similarity of [[1, 0]] with its prefix
    [[1, 0]], which is 1; its third component is not read. *)
Example length_mismatch_scores :
  score (scored [1; 0]%float record_short) = nan /\
  score (scored [1; 0]%float record_long) = 1%float /\
  score (scored [1; 0]%float record_long)
    = (dot [1; 0] [1; 0]
       / (PrimFloat.sqrt (norm2 [1; 0]) * PrimFloat.sqrt (norm2 [1; 0])))%float.
Proof. repeat split. Qed.

Example length_mismatch_run :
  search_local [record_short; record_long] [1; 0]%float 5 0.3%float
    = [ {| entry := strip record_long; score := 1%float |} ].
Proof. reflexivity. Qed.

(** ** The remote adapter *)

Section Remote.
Context {S : Type}.
Variable client : QdrantClient S.
Variable globals : list string.

Lemma ensureCollection_ready (w : World S) :
  useMemoryFallback (this w) || initialized (this w) = true ->
  ensureCollection client w = (Return tt, w).
Proof.
  intros H. unfold ensureCollection, bind, get_this. rewrite H. reflexivity.
Qed.

(** What the [catch] of [search] does with a failure of the query. *)
Lemma search_remote_failure (w w1 : World S) query limit minScore err s2 :
  useMemoryFallback (this w) = false ->
  ensureCollection client w = (Return tt, w1) ->
  client_search client (collectionName (this w1)) query limit minScore (server w1)
    = (Throw err, s2) ->
  search client globals query limit minScore w =
  (if resolves globals search_locals "api"
   then Return []
   else Throw (ReferenceError "api"),
   {| this := this w1; server := s2; disk := disk w1 |}).
Proof.
  intros Hremote Hensure Hsearch.
  unfold search, bind at 1, get_this. rewrite Hremote.
  unfold bind at 1. rewrite Hensure.
  unfold bind at 1, get_this, try_catch, bind at 1, call. rewrite Hsearch.
  unfold bind, identifier.
  destruct (resolves globals search_locals "api"); reflexivity.
Qed.

End Remote.

(** C4 (the code at the failing input).  In remote mode, when the
    similarity query of the client throws, the handler of the [catch]
    evaluates [api], which no scope of [MemoryDB.search] binds:
    [search] then rejects with a [ReferenceError] instead of returning
    the empty list. *)
Theorem search_failure_escapes {S : Type} (client : QdrantClient S)
    (globals : list string) (w w1 : World S) query limit minScore err s2 :
  useMemoryFallback (this w) = false ->
  ensureCollection client w = (Return tt, w1) ->
  client_search client (collectionName (this w1)) query limit minScore (server w1)
    = (Throw err, s2) ->
  existsb (String.eqb "api") globals = false ->
  search client globals query limit minScore w =
  (Throw (ReferenceError "api"), {| this := this w1; server := s2; disk := disk w1 |}).
Proof.
  intros Hremote Hensure Hsearch Hapi.
  rewrite (search_remote_failure client globals w w1 query limit minScore err s2
             Hremote Hensure Hsearch).
  unfold resolves. rewrite !existsb_app, Hapi. reflexivity.
Qed.

Lemma search_failure_escapes_witness :
  search search_down node_globals [1; 0]%float 5 0.3%float
    {| this := remote_db; server := []; disk := no_disk |} =
  (Throw (ReferenceError "api"),
   {| this := set_initialized remote_db; server := []; disk := no_disk |}).
Proof.
  apply (search_failure_escapes search_down node_globals
           {| this := remote_db; server := []; disk := no_disk |}
           {| this := set_initialized remote_db; server := []; disk := no_disk |}
           [1; 0]%float 5 0.3%float server_error []);
    reflexivity.
Defined.

(** A failure of the provisioning step, which runs before the [try],
    propagates as it is. *)
Example search_offline_propagates :
  search offline node_globals [1; 0]%float 5 0.3%float
    {| this := remote_db; server := tt; disk := no_disk |} =
  (Throw connection_refused, {| this := remote_db; server := tt; disk := no_disk |}).
Proof. reflexivity. Qed.

(** ** C5: [delete] *)

Lemma forallb_negb_eqb st key :
  forallb (fun y => negb (id y =? key)%string) st = true <->
  ~ exists x, In x st /\ id x = key.
Proof.
  rewrite forallb_forall. split.
  - intros H (x & Hx & E). specialize (H x Hx). apply negb_true_iff in H.
    apply String.eqb_neq in H. contradiction.
  - intros H x Hx. apply negb_true_iff, String.eqb_neq. intros E.
    apply H. exists x. tauto.
Qed.

Lemma delete_local_spec st key :
  match delete_local st key with
  | (true, st') =>
      exists l1 x l2,
        st = l1 ++ x :: l2 /\ id x = key /\ st' = l1 ++ l2 /\
        ~ (exists y, In y l1 /\ id y = key)
  | (false, st') =>
      st' = st /\ ~ (exists x, In x st /\ id x = key)
  end.
Proof.
  unfold delete_local.
  destruct (findIndex _ st) as [i|] eqn:E.
  - destruct (findIndex_Some _ _ _ E) as (l1 & x & l2 & -> & _ & Hx & Hn & ->).
    exists l1, x, l2. repeat split; auto.
    + apply String.eqb_eq, Hx.
    + apply forallb_negb_eqb, Hn.
  - split; [reflexivity|]. apply forallb_negb_eqb, findIndex_None, E.
Qed.

Lemma delete_remote {S : Type} (client : QdrantClient S) (w : World S) key savedAt :
  useMemoryFallback (this w) = false ->
  delete client key savedAt w =
  match ensureCollection client w with
  | (Throw e, w1) => (Throw e, w1)
  | (Return _, w1) =>
      match client_delete client (collectionName (this w1)) [key] (server w1) with
      | (Throw e, s2) => (Throw e, {| this := this w1; server := s2; disk := disk w1 |})
      | (Return _, s2) =>
          (Return true, {| this := this w1; server := s2; disk := disk w1 |})
      end
  end.
Proof.
  intros Hmode. unfold delete, bind at 1, get_this. rewrite Hmode. unfold bind at 1.
  destruct (ensureCollection client w) as [[u|e] w1]; [|reflexivity].
  unfold bind at 1, get_this, bind at 1, call.
  destruct (client_delete client (collectionName (this w1)) [key] (server w1))
    as [[u'|e] s2]; reflexivity.
Qed.

(** C5 (as amended).  On the local store [delete(id)] returns [true]
    exactly when a record with that [id] is stored; it then removes the
    first such record and nothing else, and otherwise leaves the store
    and the snapshot as they are.  On the remote store [delete(id)]
    returns [true] whenever the provisioning step and the server's
    deletion complete, without learning whether a point had that id; a
    failure of either call is rethrown. *)
Theorem delete_spec {S : Type} (client : QdrantClient S) (w : World S) key savedAt :
  (useMemoryFallback (this w) = true ->
   exists b w',
     delete client key savedAt w = (Return b, w') /\
     (b = true <-> exists x, In x (memoryStore (this w)) /\ id x = key) /\
     (b = true ->
      exists l1 x l2,
        memoryStore (this w) = l1 ++ x :: l2 /\ id x = key /\
        memoryStore (this w') = l1 ++ l2 /\
        ~ (exists y, In y l1 /\ id y = key)) /\
     (b = false -> w' = w)) /\
  (useMemoryFallback (this w) = false ->
   match ensureCollection client w with
   | (Throw e, w1) => delete client key savedAt w = (Throw e, w1)
   | (Return _, w1) =>
       match client_delete client (collectionName (this w1)) [key] (server w1) with
       | (Throw e, s2) =>
           delete client key savedAt w
             = (Throw e, {| this := this w1; server := s2; disk := disk w1 |})
       | (Return _, s2) =>
           delete client key savedAt w
             = (Return true, {| this := this w1; server := s2; disk := disk w1 |})
       end
   end).
Proof.
  split; intros Hmode.
  - unfold delete, bind, get_this. rewrite Hmode.
    pose proof (delete_local_spec (memoryStore (this w)) key) as H.
    destruct (delete_local (memoryStore (this w)) key) as [[|] st'].
    + destruct H as (l1 & x & l2 & E & Hx & -> & Hn).
      eexists true, _. split; [reflexivity|]. split; [|split].
      * split; [|reflexivity]. intros _. exists x. rewrite E.
        split; [apply in_elt | exact Hx].
      * intros _. exists l1, x, l2. auto.
      * discriminate.
    + destruct H as [-> Hn].
      exists false, w. split; [reflexivity|]. split; [|split].
      * split; [discriminate | intros H; contradiction].
      * discriminate.
      * reflexivity.
  - rewrite (delete_remote client w key savedAt Hmode).
    destruct (ensureCollection client w) as [[u|e] w1]; [|reflexivity].
    destruct (client_delete client (collectionName (this w1)) [key] (server w1))
      as [[u'|e] s2]; reflexivity.
Qed.

(** Against a server that holds no point at all, the remote [delete] of
    an id nobody stored answers [true]. *)
Lemma remote_delete_of_absent_id :
  let w := {| this := remote_db; server := @nil Point; disk := no_disk |} in
  ~ (exists p, In p (server w) /\ point_id p = "ghost"%string) /\
  delete search_down "ghost" "t" w
    = (Return true, {| this := set_initialized remote_db; server := []; disk := no_disk |}).
Proof.
  split; [intros (p & [] & _) | reflexivity].
Qed.

Example local_delete_run :
  let w := {| this := local_db 1000 [record_A; record_B]; server := tt;
              disk := no_disk |} in
  fst (delete offline "A" "t" w) = Return true /\
  memoryStore (this (snd (delete offline "A" "t" w))) = [record_B] /\
  delete offline "nobody" "t" w = (Return false, w).
Proof. repeat split. Qed.

(** *** Arrays built under a clock that never runs backwards *)

Lemma StronglySorted_remove {A : Type} (R : A -> A -> Prop) l1 x l2 :
  StronglySorted R (l1 ++ x :: l2) -> StronglySorted R (l1 ++ l2).
Proof.
  induction l1 as [|a l1 IH]; simpl; intros H; inversion H as [|? ? Hs Hf]; subst.
  - exact Hs.
  - constructor; [apply IH, Hs|].
    apply Forall_app in Hf. destruct Hf as [Hf1 Hf2]. inversion Hf2; subst.
    apply Forall_app. split; assumption.
Qed.

Lemma store_records_ascending cap st uuid e now :
  StronglySorted ascending st ->
  Forall (fun r => (createdAt r <=? now)%float = true) st ->
  StronglySorted ascending (store_records cap st uuid e now).
Proof.
  intros Hs Hnow. unfold store_records.
  assert (Hnew : forall l, Forall (fun r => (createdAt r <=? now)%float = true) l ->
            Forall (fun y => ascending y (make_record uuid e now)) l).
  { intros l. apply Forall_impl. intros r Hr. apply IEEE.leb_not_ltb, Hr. }
  apply JsArray.StronglySorted_snoc.
  destruct (at_capacity cap st); [|split; auto].
  pose proof (sorted_store_ascending st) as Hsorted.
  pose proof (JsArray.js_sort_Forall createdAt_after _ st Hnow) as Hall.
  unfold evict, shift. destruct (js_sort createdAt_after st) as [|h rest].
  - split; constructor.
  - inversion Hsorted; subst. inversion Hall; subst. split; auto.
Qed.

Lemma delete_local_ascending st key :
  StronglySorted ascending st -> StronglySorted ascending (snd (delete_local st key)).
Proof.
  intros Hs. pose proof (delete_local_spec st key) as H.
  destruct (delete_local st key) as [[|] st']; cbn [snd].
  - destruct H as (l1 & x & l2 & -> & _ & -> & _).
    exact (StronglySorted_remove _ _ _ _ Hs).
  - destruct H as [-> _]. exact Hs.
Qed.

(** ** C8: [healthCheck] *)

(** C8 (as amended).  [healthCheck] always returns an object and never
    throws.  In local mode the object is [{healthy: true, mode:
    'memory'}]; in remote mode its [mode] is ['qdrant'], with [healthy:
    true] and the client's [url] when the listing of collections
    succeeds, and with [healthy: false] and the error's message when it
    fails. *)
Theorem healthCheck_spec {S : Type} (client : QdrantClient S) (w : World S) :
  exists h w',
    healthCheck client w = (Return h, w') /\
    this w' = this w /\
    (useMemoryFallback (this w) = true ->
     w' = w /\
     h = {| healthy := true; mode := "memory";
            health_url := None; health_error := None |}) /\
    (useMemoryFallback (this w) = false ->
     mode h = "qdrant"%string /\
     match fst (getCollections client (server w)) with
     | Return _ =>
         healthy h = true /\ health_url h = client_url client /\
         health_error h = None
     | Throw e =>
         healthy h = false /\ health_error h = Some (err_message e)
     end).
Proof.
  unfold healthCheck, bind at 1, get_this.
  destruct (useMemoryFallback (this w)) eqn:Hmode.
  - eexists _, w. split; [reflexivity|]. repeat split; discriminate.
  - unfold try_catch, bind, call, ret.
    destruct (getCollections client (server w)) as [[u|e] s1]; cbn [fst];
      eexists _, _; (split; [reflexivity|]); repeat split; discriminate.
Qed.

(** The local answer names the mode ['memory'], not ['local']; the
    remote one names it ['qdrant']. *)
Lemma local_health_mode :
  exists h,
    healthCheck offline {| this := local_db 1000 []; server := tt; disk := no_disk |}
      = (Return h, {| this := local_db 1000 []; server := tt; disk := no_disk |}) /\
    h = {| healthy := true; mode := "memory"; health_url := None; health_error := None |} /\
    mode h <> "local"%string.
Proof.
  eexists. split; [reflexivity|]. split; [reflexivity|]. discriminate.
Qed.

Example remote_health_run :
  fst (healthCheck offline {| this := remote_db; server := tt; disk := no_disk |})
    = Return {| healthy := false; mode := "qdrant"; health_url := None;
                health_error := Some "fetch failed"%string |} /\
  fst (healthCheck search_down {| this := remote_db; server := []; disk := no_disk |})
    = Return {| healthy := true; mode := "qdrant";
                health_url := Some "http://localhost:6333"%string;
                health_error := None |}.
Proof. split; reflexivity. Qed.

(** ** C6: the snapshot round trip *)












(** *** The directory of the snapshot *)










Definition persistent_db (st : list MemoryRecord) : MemoryDB :=
  {| useMemoryFallback := true; memoryStore := st; collectionName := "memories";
     maxSize := 1000; initialized := true;
     persistPath := Some "/data/memories.json"%string |}.


(** Scenario D, on the records of scenario A: a fresh store on the same
    path counts the same records and answers a search as before. *)
Example scenario_D :
  let db := persistent_db [record_A; record_B; record_X] in
  let d' := _saveToDisk db "2026-02-17T00:00:00.000Z" no_disk in
  exists db',
    constructor None "memories" None (Some "/data/memories.json"%string) d' = Some db' /\
    count_local (memoryStore db') = 3 /\
    search_local (memoryStore db') [1; 0]%float 1 0.3%float
      = search_local (memoryStore db) [1; 0]%float 1 0.3%float.
Proof. eexists. repeat split. Qed.

(** A path without a directory part is never written: [dir] is [''],
    [mkdirSync('')] throws inside the [try], and a store restarted on
    that path is empty. *)
Example bare_file_name_is_not_saved :
  let db := {| useMemoryFallback := true; memoryStore := [record_A];
               collectionName := "memories"; maxSize := 1000; initialized := true;
               persistPath := Some "snap.json"%string |} in
  dir_of "snap.json" = ""%string /\
  dir_of "/x.json" = ""%string /\
  _saveToDisk db "2026-02-17T00:00:00.000Z" no_disk = no_disk /\
  exists db',
    constructor None "memories" None (Some "snap.json"%string)
      (_saveToDisk db "2026-02-17T00:00:00.000Z" no_disk) = Some db' /\
    memoryStore db' = [].
Proof. repeat split. eexists. split; reflexivity. Qed.



Lemma delete_spec_witness :
  (exists b w',
     delete offline "A" "t"
       {| this := local_db 1000 [record_A; record_B]; server := tt; disk := no_disk |}
       = (Return b, w') /\
     (b = true <-> exists x, In x [record_A; record_B] /\ id x = "A"%string) /\
     (b = true ->
      exists l1 x l2,
        [record_A; record_B] = l1 ++ x :: l2 /\ id x = "A"%string /\
        memoryStore (this w') = l1 ++ l2 /\
        ~ (exists y, In y l1 /\ id y = "A"%string)) /\
     (b = false ->
      w' = {| this := local_db 1000 [record_A; record_B]; server := tt;
              disk := no_disk |})) /\
  delete search_down "ghost" "t" {| this := remote_db; server := []; disk := no_disk |}
    = (Return true, {| this := set_initialized remote_db; server := []; disk := no_disk |}).
Proof.
  split.
  - apply (proj1 (delete_spec offline
             {| this := local_db 1000 [record_A; record_B]; server := tt;
                disk := no_disk |} "A" "t")).
    reflexivity.
  - apply (proj2 (delete_spec search_down
             {| this := remote_db; server := []; disk := no_disk |} "ghost" "t")).
    reflexivity.
Defined.

(** ** C7: the similarity, in exact arithmetic and in binary64 *)

Module Exact.
Local Open Scope R_scope.

(** Sums over the paired components. *)
Fixpoint sum_xy (l : list (R * R)) : R :=
  match l with [] => 0 | p :: l' => fst p * snd p + sum_xy l' end.
Fixpoint sum_xx (l : list (R * R)) : R :=
  match l with [] => 0 | p :: l' => fst p * fst p + sum_xx l' end.
Fixpoint sum_yy (l : list (R * R)) : R :=
  match l with [] => 0 | p :: l' => snd p * snd p + sum_yy l' end.

Lemma fold_sum {A : Type} (f : A -> R) l : forall init,
  fold_left (fun s p => s + f p) l init = init + fold_left (fun s p => s + f p) l 0.
Proof.
  induction l as [|p l IH]; intros init; simpl; [lra|].
  rewrite (IH (init + f p)), (IH (0 + f p)). lra.
Qed.

Lemma dot_exact_sum a b : dot_exact a b = sum_xy (combine a b).
Proof.
  unfold dot_exact, dot_over. induction (combine a b) as [|p l IH]; [reflexivity|].
  cbn [fold_left sum_xy]. rewrite fold_sum, IH. lra.
Qed.

Lemma norm2_exact_sum_l a : forall b,
  length a = length b -> norm2_exact a = sum_xx (combine a b).
Proof.
  unfold norm2_exact, norm2_over.
  induction a as [|x a IH]; intros [|y b] H; try discriminate; [reflexivity|].
  injection H as H. cbn [fold_left combine sum_xx fst].
  rewrite fold_sum, (IH b H). lra.
Qed.

Lemma norm2_exact_sum_r b : forall a,
  length a = length b -> norm2_exact b = sum_yy (combine a b).
Proof.
  unfold norm2_exact, norm2_over.
  induction b as [|y b IH]; intros [|x a] H; try discriminate; [reflexivity|].
  injection H as H. cbn [fold_left combine sum_yy snd].
  rewrite fold_sum, (IH a H). lra.
Qed.

Lemma sum_xx_nonneg l : 0 <= sum_xx l.
Proof. induction l as [|p l IH]; simpl; [lra|]. pose proof (Rle_0_sqr (fst p)). unfold Rsqr in *. lra. Qed.

Lemma sum_yy_nonneg l : 0 <= sum_yy l.
Proof. induction l as [|p l IH]; simpl; [lra|]. pose proof (Rle_0_sqr (snd p)). unfold Rsqr in *. lra. Qed.

(** Cauchy-Schwarz. *)
Lemma cauchy_schwarz l : sum_xy l * sum_xy l <= sum_xx l * sum_yy l.
Proof.
  induction l as [|[x y] l IH]; simpl; [lra|].
  pose proof (sum_xx_nonneg l) as HA. pose proof (sum_yy_nonneg l) as HB.
  set (d := sum_xy l) in *. set (A := sum_xx l) in *. set (B := sum_yy l) in *.
  assert (H : 2 * (x * y * d) <= x * x * B + A * (y * y)).
  { apply Rsqr_incr_0_var.
    - unfold Rsqr.
      pose proof (Rle_0_sqr (x * x * B - A * (y * y))) as H1. unfold Rsqr in H1.
      assert (H2 : 0 <= (x * y) * (x * y) * (A * B - d * d)).
      { apply Rmult_le_pos; [|lra]. pose proof (Rle_0_sqr (x * y)). unfold Rsqr in *. lra. }
      lra.
    - pose proof (Rle_0_sqr x). pose proof (Rle_0_sqr y). unfold Rsqr in *.
      assert (0 <= x * x * B) by (apply Rmult_le_pos; lra).
      assert (0 <= A * (y * y)) by (apply Rmult_le_pos; lra).
      lra. }
  lra.
Qed.

Lemma Req0_true x : Req0 x = true <-> x = 0.
Proof. unfold Req0. destruct (Req_dec_T x 0); split; congruence. Qed.

Section Vectors.
Variables a b : list R.
Hypothesis same_length : length a = length b.

Lemma norm2_exact_nonneg : 0 <= norm2_exact a.
Proof. rewrite (norm2_exact_sum_l a b same_length). apply sum_xx_nonneg. Qed.

Lemma dot_exact_bound :
  Rabs (dot_exact a b) <= R_sqrt.sqrt (norm2_exact a) * R_sqrt.sqrt (norm2_exact b).
Proof.
  rewrite dot_exact_sum, (norm2_exact_sum_l a b same_length),
    (norm2_exact_sum_r b a same_length).
  set (l := combine a b).
  rewrite <- sqrt_mult by (apply sum_xx_nonneg || apply sum_yy_nonneg).
  rewrite <- sqrt_Rsqr_abs. apply sqrt_le_1_alt. unfold Rsqr. apply cauchy_schwarz.
Qed.

Lemma cosineSimilarity_exact_formula :
  cosineSimilarity_exact a b =
  if Req0 (R_sqrt.sqrt (norm2_exact a) * R_sqrt.sqrt (norm2_exact b)) then 0
  else dot_exact a b / (R_sqrt.sqrt (norm2_exact a) * R_sqrt.sqrt (norm2_exact b)).
Proof.
  unfold cosineSimilarity_exact.
  rewrite (cosineSimilarity_formula 0 0 Rplus Rmult Rdiv R_sqrt.sqrt Req0 a b same_length).
  reflexivity.
Qed.

Lemma cosineSimilarity_exact_range : -1 <= cosineSimilarity_exact a b <= 1.
Proof.
  rewrite cosineSimilarity_exact_formula.
  pose proof dot_exact_bound as Hb.
  set (den := R_sqrt.sqrt (norm2_exact a) * R_sqrt.sqrt (norm2_exact b)) in *.
  destruct (Req0 den) eqn:E; [lra|].
  assert (Hpos : 0 < den).
  { assert (den <> 0) by (intros H; apply Req0_true in H; congruence).
    assert (0 <= den) by (apply Rmult_le_pos; apply sqrt_pos).
    lra. }
  pose proof (Rle_abs (dot_exact a b)) as Hu.
  pose proof (Rle_abs (- dot_exact a b)) as Hl. rewrite Rabs_Ropp in Hl.
  assert (Hi : 0 < / den) by (apply Rinv_0_lt_compat; exact Hpos).
  assert (E1 : den * / den = 1) by (apply Rinv_r; lra).
  unfold Rdiv. split.
  - assert (0 <= (den + dot_exact a b) * / den) by (apply Rmult_le_pos; lra). lra.
  - assert (0 <= (den - dot_exact a b) * / den) by (apply Rmult_le_pos; lra). lra.
Qed.

Lemma cosineSimilarity_exact_zero_norm :
  norm2_exact a = 0 \/ norm2_exact b = 0 -> cosineSimilarity_exact a b = 0.
Proof.
  intros H. rewrite cosineSimilarity_exact_formula.
  assert (E : R_sqrt.sqrt (norm2_exact a) * R_sqrt.sqrt (norm2_exact b) = 0).
  { destruct H as [-> | ->]; rewrite sqrt_0; lra. }
  rewrite (proj2 (Req0_true _) E). reflexivity.
Qed.

End Vectors.

Lemma dot_exact_self a : dot_exact a a = norm2_exact a.
Proof.
  rewrite dot_exact_sum, (norm2_exact_sum_l a a eq_refl).
  induction a as [|x a IH]; [reflexivity|]. simpl. rewrite IH. reflexivity.
Qed.

Lemma norm2_exact_pos a : Exists (fun c => c <> 0) a -> 0 < norm2_exact a.
Proof.
  rewrite (norm2_exact_sum_l a a eq_refl).
  induction 1 as [x a Hx | x a _ IH]; simpl.
  - pose proof (sum_xx_nonneg (combine a a)).
    assert (0 < x * x) by (apply Rsqr_pos_lt in Hx; exact Hx). lra.
  - pose proof (Rle_0_sqr x). unfold Rsqr in *. lra.
Qed.

Lemma cosineSimilarity_exact_self a :
  Exists (fun c => c <> 0) a -> cosineSimilarity_exact a a = 1.
Proof.
  intros H. apply norm2_exact_pos in H.
  rewrite (cosineSimilarity_exact_formula a a eq_refl), dot_exact_self.
  rewrite sqrt_sqrt by lra.
  destruct (Req0 (norm2_exact a)) eqn:E.
  - apply Req0_true in E. lra.
  - field. lra.
Qed.

End Exact.

(** C7 (as amended).  For vectors of equal length the function evaluates
    [dot(a,b) / (sqrt(normA) * sqrt(normB))] over left-to-right sums, and
    returns exactly [0] when that denominator compares equal to [0]; in
    binary64 this is the case when one computed norm is [0] and the other
    is finite.  Read in exact arithmetic, the same loop yields a value in
    [[-1, 1]], [0] whenever either norm is [0], and [1] for
    [similarity(a, a)] with [a] non-zero. *)
Theorem cosineSimilarity_spec (a b : list float) (x y : list R) :
  length a = length b ->
  length x = length y ->
  (cosineSimilarity a b =
     let denom := (PrimFloat.sqrt (norm2 a) * PrimFloat.sqrt (norm2 b))%float in
     if (denom =? 0)%float then 0%float else (dot a b / denom)%float) /\
  ((PrimFloat.sqrt (norm2 a) =? 0)%float = true ->
   is_finite (PrimFloat.sqrt (norm2 b)) = true -> cosineSimilarity a b = 0%float) /\
  (is_finite (PrimFloat.sqrt (norm2 a)) = true ->
   (PrimFloat.sqrt (norm2 b) =? 0)%float = true -> cosineSimilarity a b = 0%float) /\
  (cosineSimilarity_exact x y =
     if Req0 (R_sqrt.sqrt (norm2_exact x) * R_sqrt.sqrt (norm2_exact y)) then 0%R
     else (dot_exact x y / (R_sqrt.sqrt (norm2_exact x) * R_sqrt.sqrt (norm2_exact y)))%R) /\
  (-1 <= cosineSimilarity_exact x y <= 1)%R /\
  (norm2_exact x = 0%R \/ norm2_exact y = 0%R -> cosineSimilarity_exact x y = 0%R) /\
  (Exists (fun c => c <> 0%R) x -> cosineSimilarity_exact x x = 1%R).
Proof.
  intros Hab Hxy.
  assert (F : cosineSimilarity a b =
     let denom := (PrimFloat.sqrt (norm2 a) * PrimFloat.sqrt (norm2 b))%float in
     if (denom =? 0)%float then 0%float else (dot a b / denom)%float).
  { unfold cosineSimilarity.
    rewrite (cosineSimilarity_formula 0%float nan PrimFloat.add PrimFloat.mul
               PrimFloat.div PrimFloat.sqrt (fun d => (d =? 0)%float) a b Hab).
    reflexivity. }
  split; [exact F|]. split; [|split].
  - intros Hz Hf. rewrite F. cbv zeta. rewrite (IEEE.mul_zero_finite _ _ Hz Hf).
    reflexivity.
  - intros Hf Hz. rewrite F. cbv zeta. rewrite (IEEE.mul_finite_zero _ _ Hf Hz).
    reflexivity.
  - split; [apply Exact.cosineSimilarity_exact_formula, Hxy|].
    split; [apply Exact.cosineSimilarity_exact_range, Hxy|].
    split; [apply Exact.cosineSimilarity_exact_zero_norm, Hxy|].
    apply Exact.cosineSimilarity_exact_self.
Qed.

Lemma cosineSimilarity_spec_witness :
  (cosineSimilarity [0; 0]%float [1; 2]%float =
     let denom := (PrimFloat.sqrt (norm2 [0; 0]%float)
                   * PrimFloat.sqrt (norm2 [1; 2]%float))%float in
     if (denom =? 0)%float then 0%float
     else (dot [0; 0]%float [1; 2]%float / denom)%float) /\
  ((PrimFloat.sqrt (norm2 [0; 0]%float) =? 0)%float = true ->
   is_finite (PrimFloat.sqrt (norm2 [1; 2]%float)) = true ->
   cosineSimilarity [0; 0]%float [1; 2]%float = 0%float) /\
  (is_finite (PrimFloat.sqrt (norm2 [0; 0]%float)) = true ->
   (PrimFloat.sqrt (norm2 [1; 2]%float) =? 0)%float = true ->
   cosineSimilarity [0; 0]%float [1; 2]%float = 0%float) /\
  (cosineSimilarity_exact [3; 4]%R [4; 3]%R =
     if Req0 (R_sqrt.sqrt (norm2_exact [3; 4]%R) * R_sqrt.sqrt (norm2_exact [4; 3]%R))
     then 0%R
     else (dot_exact [3; 4]%R [4; 3]%R
           / (R_sqrt.sqrt (norm2_exact [3; 4]%R) * R_sqrt.sqrt (norm2_exact [4; 3]%R)))%R) /\
  (-1 <= cosineSimilarity_exact [3; 4]%R [4; 3]%R <= 1)%R /\
  (norm2_exact [3; 4]%R = 0%R \/ norm2_exact [4; 3]%R = 0%R ->
   cosineSimilarity_exact [3; 4]%R [4; 3]%R = 0%R) /\
  (Exists (fun c => c <> 0%R) [3; 4]%R -> cosineSimilarity_exact [3; 4]%R [3; 4]%R = 1%R).
Proof.
  apply (cosineSimilarity_spec [0; 0]%float [1; 2]%float [3; 4]%R [4; 3]%R);
    reflexivity.
Defined.

(** What runs is binary64: the quotient of rounded sums can exceed [1],
    and a zero vector against one whose norm overflows yields [0 *
    Infinity = NaN] for the denominator, which is not [=== 0]. *)
Lemma cosineSimilarity_binary64 :
  cosineSimilarity [0.1; 0.7]%float [0.1; 0.7]%float = 1.0000000000000002%float /\
  (1 <? cosineSimilarity [0.1; 0.7]%float [0.1; 0.7]%float)%float = true /\
  norm2 [0]%float = 0%float /\
  cosineSimilarity [0]%float [1e200]%float = nan /\
  (cosineSimilarity [0]%float [1e200]%float =? 0)%float = false.
Proof. repeat split. Qed.

Example similarity_examples :
  cosineSimilarity [1; 0]%float [1; 0]%float = 1%float /\
  cosineSimilarity [1; 0]%float [0; 1]%float = 0%float /\
  cosineSimilarity [0; 0]%float [1; 2]%float = 0%float /\
  cosineSimilarity [1; 0]%float [-1; 0]%float = (-1)%float.
Proof. repeat split. Qed.

(* ================================================================= *)
(** * Part III. The rest of the class and of the module             *)
(* ================================================================= *)

(** ** Provisioning of the remote collection ([ensureCollection]) *)

(** The test of line 104: [err.status === 404 ||
    err.message?.includes('not found')]. *)
Definition not_found (err : JsError) : bool :=
  match err_status err with
  | Some s => (s =? 404)%Z
  | None => false
  end || includes (err_message err) "not found".

Definition with_server {S : Type} (w : World S) (db : MemoryDB) (s : S) : World S :=
  {| this := db; server := s; disk := disk w |}.

Lemma ensureCollection_cases {S : Type} (client : QdrantClient S) (w : World S) :
  useMemoryFallback (this w) || initialized (this w) = false ->
  ensureCollection client w =
  match getCollection client (collectionName (this w)) (server w) with
  | (Return _, s1) => (Return tt, with_server w (set_initialized (this w)) s1)
  | (Throw err, s1) =>
      if not_found err
      then match createCollection client (collectionName (this w)) VECTOR_DIM
                   "Cosine" s1 with
           | (Return _, s2) => (Return tt, with_server w (set_initialized (this w)) s2)
           | (Throw err2, s2) => (Throw err2, with_server w (this w) s2)
           end
      else (Throw err, with_server w (this w) s1)
  end.
Proof.
  intros H. unfold ensureCollection, bind at 1, get_this. rewrite H.
  unfold bind at 1, try_catch, bind at 1, call, not_found, with_server.
  destruct (getCollection client (collectionName (this w)) (server w)) as [[i|err] s1];
    cbn [this server disk].
  - reflexivity.
  - destruct (match err_status err with Some s => (s =? 404)%Z | None => false end
              || includes (err_message err) "not found"); [|reflexivity].
    cbn [this server disk].
    destruct (createCollection client (collectionName (this w)) VECTOR_DIM "Cosine" s1)
      as [[[]|err2] s2]; reflexivity.
Qed.

Lemma ensureCollection_success {S : Type} (client : QdrantClient S) (w w1 : World S) u :
  ensureCollection client w = (Return u, w1) ->
  useMemoryFallback (this w1) || initialized (this w1) = true.
Proof.
  destruct (useMemoryFallback (this w) || initialized (this w)) eqn:E.
  - unfold ensureCollection, bind, get_this. rewrite E. intros [= _ <-]. exact E.
  - rewrite (ensureCollection_cases client w E).
    destruct (getCollection client (collectionName (this w)) (server w)) as [[i|err] s1].
    + intros [= _ <-]. cbn. apply orb_true_r.
    + destruct (not_found err); [|discriminate].
      destruct (createCollection client _ _ _ s1) as [[[]|err2] s2]; [|discriminate].
      intros [= _ <-]. cbn. apply orb_true_r.
Qed.

(** X1.  Provisioning is memoised: once [ensureCollection] has
    succeeded, calling it again returns at once, without any call to the
    server and without changing the instance. *)
Theorem ensureCollection_memoised {S : Type} (client : QdrantClient S) (w w1 : World S) :
  ensureCollection client w = (Return tt, w1) ->
  ensureCollection client w1 = (Return tt, w1).
Proof.
  intros H. apply ensureCollection_ready. exact (ensureCollection_success _ _ _ _ H).
Qed.

Lemma ensureCollection_memoised_witness :
  ensureCollection search_down
    {| this := set_initialized remote_db; server := []; disk := no_disk |}
  = (Return tt, {| this := set_initialized remote_db; server := []; disk := no_disk |}).
Proof.
  apply (ensureCollection_memoised search_down
           {| this := remote_db; server := []; disk := no_disk |}).
  reflexivity.
Defined.

(** X2.  In remote mode, before the first success: a failure of the
    lookup that is not "not found" is rethrown as it is, nothing is
    created and the instance stays uninitialised (the next call tries
    again); a "not found" failure makes the class create the collection
    with 384 dimensions and the cosine distance, and the outcome is then
    that of the creation. *)
Theorem ensureCollection_failures {S : Type} (client : QdrantClient S) (w : World S)
    err s1 :
  useMemoryFallback (this w) = false ->
  initialized (this w) = false ->
  getCollection client (collectionName (this w)) (server w) = (Throw err, s1) ->
  (not_found err = false ->
   ensureCollection client w = (Throw err, with_server w (this w) s1)) /\
  (not_found err = true ->
   (forall s2,
      createCollection client (collectionName (this w)) 384 "Cosine" s1 = (Return tt, s2) ->
      ensureCollection client w = (Return tt, with_server w (set_initialized (this w)) s2)) /\
   (forall err2 s2,
      createCollection client (collectionName (this w)) 384 "Cosine" s1 = (Throw err2, s2) ->
      ensureCollection client w = (Throw err2, with_server w (this w) s2))).
Proof.
  intros Hm Hi Hget.
  assert (E : useMemoryFallback (this w) || initialized (this w) = false)
    by (rewrite Hm, Hi; reflexivity).
  pose proof (ensureCollection_cases client w E) as H. rewrite Hget in H.
  split; intros Hnf; rewrite Hnf in H; [exact H|].
  change VECTOR_DIM with 384%Z in H.
  split; [intros s2 Hc | intros err2 s2 Hc]; rewrite Hc in H; exact H.
Qed.

(** The answer of a server that does not hold the collection. *)
Definition collection_missing : JsError :=
  {| err_name := "ApiError";
     err_message := "Not found: Collection `memories` doesn't exist!";
     err_status := Some 404%Z |}.

(** A server without the collection that accepts its creation; its state
    is the list of the collections it holds. *)
Definition unprovisioned : QdrantClient (list string) :=
  {| client_url := Some "http://localhost:6333"%string;
     getCollection := fun name held =>
       if existsb (String.eqb name) held then (Return (Some 0%Z), held)
       else (Throw collection_missing, held);
     createCollection := fun name _ _ held => (Return tt, name :: held);
     getCollections := fun held => (Return tt, held);
     upsert := fun _ _ held => (Return tt, held);
     client_search := fun _ _ _ _ held => (Return [], held);
     client_delete := fun _ _ held => (Return tt, held) |}.

(** A server without the collection that refuses its creation. *)
Definition read_only : QdrantClient unit :=
  {| client_url := Some "http://localhost:6333"%string;
     getCollection := fun _ s => (Throw collection_missing, s);
     createCollection := fun _ _ _ s => (Throw server_error, s);
     getCollections := fun s => (Return tt, s);
     upsert := fun _ _ s => (Throw server_error, s);
     client_search := fun _ _ _ _ s => (Return [], s);
     client_delete := fun _ _ s => (Throw server_error, s) |}.

(** The three outcomes: an unreachable server, a missing collection that
    is then created, a missing collection whose creation fails. *)
Lemma ensureCollection_failures_witness :
  (not_found connection_refused = false /\
   ensureCollection offline {| this := remote_db; server := tt; disk := no_disk |}
   = (Throw connection_refused, {| this := remote_db; server := tt; disk := no_disk |})) /\
  (not_found collection_missing = true /\
   ensureCollection unprovisioned {| this := remote_db; server := []; disk := no_disk |}
   = (Return tt, {| this := set_initialized remote_db; server := ["memories"%string];
                    disk := no_disk |})) /\
  ensureCollection read_only {| this := remote_db; server := tt; disk := no_disk |}
  = (Throw server_error, {| this := remote_db; server := tt; disk := no_disk |}).
Proof.
  split; [|split].
  - split; [reflexivity|].
    apply (proj1 (ensureCollection_failures offline
                    {| this := remote_db; server := tt; disk := no_disk |}
                    connection_refused tt eq_refl eq_refl eq_refl)).
    reflexivity.
  - split; [reflexivity|].
    apply (proj1 (proj2 (ensureCollection_failures unprovisioned
                           {| this := remote_db; server := []; disk := no_disk |}
                           collection_missing [] eq_refl eq_refl eq_refl)
                    eq_refl)).
    reflexivity.
  - apply (proj2 (proj2 (ensureCollection_failures read_only
                           {| this := remote_db; server := tt; disk := no_disk |}
                           collection_missing tt eq_refl eq_refl eq_refl)
                    eq_refl)).
    reflexivity.
Defined.

(** ** What the local search returns *)

Lemma search_local_In st query limit minScore r :
  In r (search_local st query limit minScore) ->
  exists rec, In rec st /\ r = scored query rec /\
              (minScore <=? score r)%float = true.
Proof.
  intros H. destruct (search_local_prefix st query limit minScore) as [k E].
  rewrite E in H.
  assert (Hc : In r (filter (fun r => (minScore <=? score r)%float)
                       (map (scored query) st))).
  { apply (JsArray.js_sort_In score_after). rewrite <- (firstn_skipn k).
    apply in_or_app. left. exact H. }
  apply filter_In in Hc. destruct Hc as [Hm Hs].
  apply in_map_iff in Hm. destruct Hm as (rec & <- & Hrec).
  exists rec. auto.
Qed.

Lemma search_local_all st query limit minScore :
  (Z.of_nat (length st) <= limit)%Z ->
  Permutation (search_local st query limit minScore)
    (filter (fun r => (minScore <=? score r)%float) (map (scored query) st)).
Proof.
  intros H. unfold search_local, slice0.
  destruct (Z.ltb_spec limit 0); [lia|].
  rewrite firstn_all2; [symmetry; apply JsArray.js_sort_perm|].
  rewrite JsArray.js_sort_length.
  pose proof (filter_length_le (fun r => (minScore <=? score r)%float)
                (map (scored query) st)) as Hl.
  rewrite length_map in Hl. lia.
Qed.

(** X3.  The local search invents nothing and, given room, omits
    nothing: every entry returned is the projection of a stored record,
    with the cosine of the query and that record's vector as score; and
    when [limit] is at least the number of stored records, the entries
    returned are exactly the stored records whose score is [>=
    minScore]. *)
Theorem search_local_sound_complete st query limit minScore :
  (forall r, In r (search_local st query limit minScore) ->
     exists rec, In rec st /\ id (entry r) = id rec /\ entry r = strip rec /\
                 score r = cosineSimilarity query (vector rec) /\
                 (minScore <=? score r)%float = true) /\
  ((Z.of_nat (length st) <= limit)%Z ->
   forall rec, In rec st ->
     (minScore <=? cosineSimilarity query (vector rec))%float = true ->
     In (scored query rec) (search_local st query limit minScore)).
Proof.
  split.
  - intros r Hr. destruct (search_local_In _ _ _ _ _ Hr) as (rec & Hrec & -> & Hs).
    exists rec. auto.
  - intros Hl rec Hrec Hs.
    apply (Permutation_in _ (Permutation_sym (search_local_all st query limit minScore Hl))).
    apply filter_In. split; [apply in_map, Hrec | exact Hs].
Qed.

Lemma StronglySorted_app_cross {A : Type} (R : A -> A -> Prop) l1 : forall l2,
  StronglySorted R (l1 ++ l2) ->
  forall a b, In a l1 -> In b l2 -> R a b.
Proof.
  induction l1 as [|x l1 IH]; intros l2 H a b Ha Hb; [destruct Ha|].
  simpl in H. inversion H as [|? ? Hs Hf]; subst.
  destruct Ha as [<-|Ha]; [|exact (IH l2 Hs a b Ha Hb)].
  rewrite Forall_forall in Hf. apply Hf, in_or_app. right. exact Hb.
Qed.

(** X4.  The local search returns the best candidates: the records left
    out for lack of room all score at most as much as each record
    returned, and none is left out unless [limit] entries are returned. *)
Theorem search_local_top st query limit minScore :
  (0 <= limit)%Z ->
  exists rest,
    Permutation (search_local st query limit minScore ++ rest)
      (filter (fun r => (minScore <=? score r)%float) (map (scored query) st)) /\
    (forall a b, In a (search_local st query limit minScore) -> In b rest ->
       (score b <=? score a)%float = true) /\
    (rest = [] \/ Z.of_nat (length (search_local st query limit minScore)) = limit).
Proof.
  intros Hlimit. unfold search_local, slice0.
  destruct (Z.ltb_spec limit 0); [lia|].
  set (cands := filter (fun r => (minScore <=? score r)%float) (map (scored query) st)).
  set (sorted := js_sort score_after cands).
  exists (skipn (Z.to_nat limit) sorted).
  assert (Habove : Forall (fun r => (minScore <=? score r)%float = true) sorted).
  { apply JsArray.js_sort_Forall, Forall_forall. intros r Hr.
    apply filter_In in Hr. tauto. }
  rewrite Forall_forall in Habove.
  split; [|split].
  - rewrite firstn_skipn. symmetry. apply JsArray.js_sort_perm.
  - intros a b Ha Hb.
    assert (Hs : StronglySorted (JsArray.ordered score_after)
                   (firstn (Z.to_nat limit) sorted ++ skipn (Z.to_nat limit) sorted)).
    { rewrite firstn_skipn.
      apply (JsArray.js_sort_sorted score_after score_after_irrefl score_after_trans). }
    pose proof (StronglySorted_app_cross _ _ _ Hs a b Ha Hb) as Hab.
    unfold JsArray.ordered in Hab. rewrite score_after_lt in Hab.
    assert (In a sorted) by (rewrite <- (firstn_skipn (Z.to_nat limit)); apply in_or_app; auto).
    assert (In b sorted) by (rewrite <- (firstn_skipn (Z.to_nat limit)); apply in_or_app; auto).
    apply IEEE.leb_total; eauto using IEEE.leb_is_number.
  - destruct (Nat.le_gt_cases (length sorted) (Z.to_nat limit)) as [Hle|Hgt].
    + left. apply skipn_all2. exact Hle.
    + right. rewrite length_firstn. lia.
Qed.

Lemma search_local_top_witness :
  exists rest,
    Permutation (search_local [record_X; record_Y; record_Z] [1; 0]%float 2 0.3%float ++ rest)
      (filter (fun r => (0.3 <=? score r)%float)
         (map (scored [1; 0]%float) [record_X; record_Y; record_Z])) /\
    (forall a b,
       In a (search_local [record_X; record_Y; record_Z] [1; 0]%float 2 0.3%float) ->
       In b rest -> (score b <=? score a)%float = true) /\
    (rest = [] \/
     Z.of_nat (length (search_local [record_X; record_Y; record_Z] [1; 0]%float 2 0.3%float))
     = 2%Z).
Proof.
  apply (search_local_top [record_X; record_Y; record_Z] [1; 0]%float 2 0.3%float). lia.
Defined.

(** ** How the local operations compose *)

Definition ids (st : list MemoryRecord) : list string := map id st.

Ltac distinct_ids :=
  unfold ids; cbn [map id];
  repeat (apply NoDup_cons; [simpl; intuition discriminate|]); apply NoDup_nil.

Lemma evict_incl st r : In r (evict st) -> In r st.
Proof.
  unfold evict, shift. intros H. apply (JsArray.js_sort_In createdAt_after).
  destruct (js_sort createdAt_after st); [destruct H | right; exact H].
Qed.

Lemma evict_NoDup st : NoDup (ids st) -> NoDup (ids (evict st)).
Proof.
  intros H. unfold evict, shift, ids in *.
  apply (Permutation_NoDup (Permutation_map id (JsArray.js_sort_perm createdAt_after st))) in H.
  destruct (js_sort createdAt_after st); [constructor|].
  inversion H; assumption.
Qed.

(** X5.  [store] keeps identifiers unique: if no two stored records
    share an [id] and [randomUUID()] returns an [id] not in use, then no
    two records share an [id] after the call, and every [id] then
    present is the new one or was present before. *)
Theorem store_keeps_ids_unique cap st uuid e now :
  NoDup (ids st) ->
  ~ In uuid (ids st) ->
  NoDup (ids (store_records cap st uuid e now)) /\
  incl (ids (store_records cap st uuid e now)) (uuid :: ids st).
Proof.
  intros Hnd Hfresh. unfold store_records, ids. rewrite map_app. cbn [map make_record id].
  assert (Hkept : forall r, In r (if at_capacity cap st then evict st else st) -> In r st).
  { destruct (at_capacity cap st); [apply evict_incl | auto]. }
  assert (Hnd' : NoDup (map id (if at_capacity cap st then evict st else st))).
  { destruct (at_capacity cap st); [apply evict_NoDup, Hnd | exact Hnd]. }
  split.
  - apply NoDup_app. repeat split; try assumption.
    + repeat constructor. intros [].
    + intros x Hx [<-|[]]. apply Hfresh.
      apply in_map_iff in Hx. destruct Hx as (r & <- & Hr).
      apply in_map, Hkept, Hr.
  - intros x Hx. apply in_app_or in Hx. destruct Hx as [Hx|[<-|[]]]; [|left; reflexivity].
    right. apply in_map_iff in Hx. destruct Hx as (r & <- & Hr).
    apply in_map, Hkept, Hr.
Qed.

Lemma store_keeps_ids_unique_witness :
  NoDup (ids (store_records 2 [record_A; record_B] "C" entry_C 3%float)) /\
  incl (ids (store_records 2 [record_A; record_B] "C" entry_C 3%float))
    ("C"%string :: ids [record_A; record_B]).
Proof.
  apply (store_keeps_ids_unique 2 [record_A; record_B] "C" entry_C 3%float).
  - distinct_ids.
  - simpl. intuition discriminate.
Defined.

(** X6.  A record just stored is found again: when [limit] is at least
    the number of records then stored, a search returns the entry of the
    new record exactly when the cosine of the query and the new vector is
    [>= minScore], provided identifiers are unique. *)
Theorem store_then_search cap st uuid e now query limit minScore :
  NoDup (ids st) ->
  ~ In uuid (ids st) ->
  (Z.of_nat (length (store_records cap st uuid e now)) <= limit)%Z ->
  ((exists r, In r (search_local (store_records cap st uuid e now) query limit minScore) /\
              id (entry r) = uuid)
   <-> (minScore <=? cosineSimilarity query (entry_vector e))%float = true).
Proof.
  intros Hnd Hfresh Hlimit. split.
  - intros (r & Hr & Hid).
    destruct (search_local_In _ _ _ _ _ Hr) as (rec & Hrec & -> & Hs).
    cbn [scored entry strip id score] in Hid, Hs.
    unfold store_records in Hrec. apply in_app_or in Hrec.
    destruct Hrec as [Hrec|[<-|[]]]; [|exact Hs].
    exfalso. apply Hfresh. rewrite <- Hid. apply in_map.
    destruct (at_capacity cap st); [apply evict_incl|]; exact Hrec.
  - intros Hs. exists (scored query (make_record uuid e now)). split; [|reflexivity].
    apply (Permutation_in _ (Permutation_sym (search_local_all _ query limit minScore Hlimit))).
    apply filter_In. split; [|exact Hs].
    apply in_map. unfold store_records. apply in_or_app. right. left. reflexivity.
Qed.

Lemma store_then_search_witness :
  (exists r, In r (search_local (store_records 2 [record_A; record_B] "C" entry_C 3%float)
                     [1; 1]%float 5 0.9%float) /\
             id (entry r) = "C"%string)
  <-> (0.9 <=? cosineSimilarity [1; 1]%float (entry_vector entry_C))%float = true.
Proof.
  apply (store_then_search 2 [record_A; record_B] "C" entry_C 3%float [1; 1]%float 5 0.9%float).
  - distinct_ids.
  - simpl. intuition discriminate.
  - vm_compute. discriminate.
Defined.

(** X7.  A deleted record is not found again: when identifiers are
    unique and the local [delete(id)] has returned [true], no record with
    that [id] is stored any more and no later search returns it, while
    every other record is still stored. *)
Theorem delete_then_search st key st' :
  NoDup (ids st) ->
  delete_local st key = (true, st') ->
  ~ In key (ids st') /\
  (forall query limit minScore r,
     In r (search_local st' query limit minScore) -> id (entry r) <> key) /\
  (forall rec, In rec st -> id rec <> key -> In rec st').
Proof.
  intros Hnd Hdel. pose proof (delete_local_spec st key) as H. rewrite Hdel in H.
  destruct H as (l1 & x & l2 & -> & Hx & -> & _).
  unfold ids in *. rewrite map_app in Hnd. cbn [map] in Hnd.
  assert (Hout : ~ In key (map id (l1 ++ l2))).
  { rewrite map_app, <- Hx. apply NoDup_remove_2, Hnd. }
  split; [exact Hout|]. split.
  - intros query limit minScore r Hr Hid.
    destruct (search_local_In _ _ _ _ _ Hr) as (rec & Hrec & -> & _).
    apply Hout. rewrite <- Hid. cbn [scored entry strip id].
    apply (in_map id), Hrec.
  - intros rec Hrec Hne. apply in_app_or in Hrec. apply in_or_app.
    destruct Hrec as [Hrec|[<-|Hrec]]; auto. contradiction.
Qed.

Lemma delete_then_search_witness :
  ~ In "A"%string (ids [record_B]) /\
  (forall query limit minScore r,
     In r (search_local [record_B] query limit minScore) -> id (entry r) <> "A"%string) /\
  (forall rec, In rec [record_A; record_B] -> id rec <> "A"%string -> In rec [record_B]).
Proof.
  apply (delete_then_search [record_A; record_B] "A" [record_B]).
  - distinct_ids.
  - reflexivity.
Defined.

(** *** First in, first out

    The arrays built from the empty one by [store] and [delete] when
    [Date.now()] never returns less than a timestamp already stored. *)
Inductive timeline (cap : Z) : list MemoryRecord -> Prop :=
| timeline_empty : timeline cap []
| timeline_store st uuid e now :
    timeline cap st ->
    Forall (fun r => (createdAt r <=? now)%float = true) st ->
    timeline cap (store_records cap st uuid e now)
| timeline_delete st key :
    timeline cap st -> timeline cap (snd (delete_local st key)).

Lemma timeline_ascending cap st : timeline cap st -> StronglySorted ascending st.
Proof.
  induction 1 as [|st uuid e now _ IH Hnow|st key _ IH].
  - constructor.
  - apply store_records_ascending; assumption.
  - apply delete_local_ascending, IH.
Qed.

(** An array that is already in order is left as it is by the sort. *)
Lemma js_sort_sorted_id st :
  StronglySorted ascending st -> js_sort createdAt_after st = st.
Proof.
  induction st as [|x st IH] using rev_ind; intros H; [reflexivity|].
  apply JsArray.StronglySorted_snoc in H. destruct H as [Hs Hx].
  rewrite JsArray.js_sort_snoc, (IH Hs). clear IH Hs.
  induction st as [|y st IH]; [reflexivity|].
  inversion Hx as [|? ? Hy Hrest]; subst. cbn [insert app].
  rewrite createdAt_after_lt. unfold ascending in Hy. rewrite Hy, (IH Hrest). reflexivity.
Qed.

(** X8.  Under such a clock the stored array is always in ascending
    [createdAt] order, and eviction is first in, first out: a [store] at
    capacity drops the first element of the array, keeps the others in
    place and appends the new record. *)
Theorem eviction_is_fifo cap st uuid e now :
  timeline cap st ->
  StronglySorted ascending st /\
  (at_capacity cap st = true ->
   store_records cap st uuid e now = tl st ++ [make_record uuid e now]).
Proof.
  intros Ht. pose proof (timeline_ascending cap st Ht) as Hs. split; [exact Hs|].
  intros Hcap. unfold store_records, evict, shift. rewrite Hcap, (js_sort_sorted_id st Hs).
  reflexivity.
Qed.

Lemma eviction_is_fifo_witness :
  StronglySorted ascending [record_A; record_B] /\
  (at_capacity 2 [record_A; record_B] = true ->
   store_records 2 [record_A; record_B] "C" entry_C 3%float
   = tl [record_A; record_B] ++ [make_record "C" entry_C 3%float]).
Proof.
  apply (eviction_is_fifo 2 [record_A; record_B] "C" entry_C 3%float).
  apply (timeline_store 2 [record_A] "B" (entry_of record_B) 2%float).
  - apply (timeline_store 2 [] "A" (entry_of record_A) 1%float); constructor.
  - repeat constructor.
Defined.

(** ** Persistence across the operations *)







(** A run of it: two records stored at capacity 1 on an empty disk, then
    a restart on the same path. *)
Example restart_after_two_stores :
  let db0 := {| useMemoryFallback := true; memoryStore := []; collectionName := "memories";
                maxSize := 1; initialized := true;
                persistPath := Some "/data/memories.json"%string |} in
  let '(_, db1, d1) := store_local db0 (entry_of record_A) "A" 1%float "t1" no_disk in
  let '(_, db2, d2) := store_local db1 (entry_of record_B) "B" 2%float "t2" d1 in
  exists db',
    constructor None "memories" (Some 1%Z) (Some "/data/memories.json"%string) d2
      = Some db' /\
    memoryStore db' = [record_B].
Proof. eexists. split; reflexivity. Qed.

(** X10.  Loading never fails and never half-loads: on a path whose file
    is absent, is not JSON, or is a JSON document without a usable
    [memories] member (not an object, or an object whose [memories] is
    missing, [null], [false], [0] or ['']), the constructor yields a local
    store with no record. *)
Theorem degraded_load_is_empty name size path d :
  path <> ""%string ->
  (content d path = None \/
   content d path = Some Garbage \/
   (exists doc, content d path = Some (JsonText doc) /\
      match JSON_parse doc with
      | VObj fields => falsy (get_field "memories" fields) = true
      | _ => True
      end)) ->
  exists db,
    constructor None name size (Some path) d = Some db /\
    useMemoryFallback db = true /\ memoryStore db = [].
Proof.
  intros Hp H. unfold constructor, _loadFromDisk, existsSync.
  cbn [truthy negb orb persistPath].
  destruct (String.eqb_spec path "") as [|_]; [contradiction|]. cbn [negb andb].
  destruct H as [-> | [-> | (doc & -> & H)]].
  - destruct (false || is_directory d path);
      (eexists; split; [reflexivity|]; split; reflexivity).
  - eexists. split; [reflexivity|]. split; reflexivity.
  - cbn [orb]. unfold loadedMemories.
    destruct (JSON_parse doc); try rewrite H;
      (eexists; split; [reflexivity|]; split; reflexivity).
Qed.

Lemma degraded_load_is_empty_witness :
  exists db,
    constructor None "memories" None (Some "/data/memories.json"%string)
      {| files := [ ("/data/memories.json"%string,
                     JsonText (JObj [("version", JStr "1.0"); ("memories", JNull)]%string)) ];
         directories := ["/data"%string];
         writable := true |} = Some db /\
    useMemoryFallback db = true /\ memoryStore db = [].
Proof.
  apply degraded_load_is_empty; [discriminate|].
  right. right. eexists. split; reflexivity.
Defined.

(** ** Counting *)

(** X11.  In local mode [count()] is the number of stored records; a
    [store] raises it by one, except at capacity on a non-empty store,
    where it leaves it as it is; a [delete] that returns [true] lowers it
    by exactly one and one that returns [false] leaves it as it is. *)
Theorem count_tracks_mutations {Srv : Type} (client : QdrantClient Srv) (w : World Srv) :
  useMemoryFallback (this w) = true ->
  let n := Z.of_nat (length (memoryStore (this w))) in
  count client w = (Return n, w) /\
  (forall e uuid now now' savedAt,
     let '(_, w1) := store client e uuid now now' savedAt w in
     fst (count client w1) =
     Return (if at_capacity (maxSize (this w)) (memoryStore (this w)) && (0 <? n)%Z
             then n else (n + 1)%Z)) /\
  (forall key savedAt,
     let '(r, w1) := delete client key savedAt w in
     (r = Return true /\ fst (count client w1) = Return (n - 1)%Z) \/
     (r = Return false /\ fst (count client w1) = Return n)).
Proof.
  intros Hlocal n. split; [|split].
  - unfold count, bind, get_this. rewrite Hlocal. reflexivity.
  - intros e uuid now now' savedAt.
    unfold store, bind, get_this. rewrite Hlocal. unfold store_local.
    unfold count, bind, get_this. cbn [this set_memoryStore useMemoryFallback memoryStore fst].
    rewrite Hlocal. cbn [fst ret]. f_equal.
    rewrite store_records_length. subst n.
    destruct (at_capacity _ _); cbn [andb].
    + destruct (memoryStore (this w)); cbn [length Nat.pred]; [reflexivity|].
      destruct (Z.ltb_spec 0 (Z.of_nat (S (length l)))); lia.
    + lia.
  - intros key savedAt. unfold delete, bind, get_this. rewrite Hlocal.
    pose proof (delete_local_spec (memoryStore (this w)) key) as H.
    destruct (delete_local (memoryStore (this w)) key) as [[|] st'].
    + left. split; [reflexivity|].
      unfold count, bind, get_this.
      cbn [this set_memoryStore useMemoryFallback memoryStore fst].
      rewrite Hlocal. cbn [fst ret]. f_equal.
      destruct H as (l1 & x & l2 & E & _ & -> & _). subst n. rewrite E.
      rewrite !length_app. cbn [length]. lia.
    + right. split; [reflexivity|].
      unfold count, bind, get_this, ret. rewrite Hlocal. reflexivity.
Qed.

Lemma count_tracks_mutations_witness :
  let w := {| this := local_db 2 [record_A; record_B]; server := tt; disk := no_disk |} in
  let n := Z.of_nat (length (memoryStore (this w))) in
  count offline w = (Return n, w) /\
  (forall e uuid now now' savedAt,
     let '(_, w1) := store offline e uuid now now' savedAt w in
     fst (count offline w1) =
     Return (if at_capacity (maxSize (this w)) (memoryStore (this w)) && (0 <? n)%Z
             then n else (n + 1)%Z)) /\
  (forall key savedAt,
     let '(r, w1) := delete offline key savedAt w in
     (r = Return true /\ fst (count offline w1) = Return (n - 1)%Z) \/
     (r = Return false /\ fst (count offline w1) = Return n)).
Proof.
  apply (count_tracks_mutations offline
           {| this := local_db 2 [record_A; record_B]; server := tt; disk := no_disk |}).
  reflexivity.
Defined.

(** ** What each mode leaves alone *)

(** Two worlds that differ at most by the server and by the
    [initialized] flag of the instance. *)
Definition same_instance {S : Type} (w w1 : World S) : Prop :=
  disk w1 = disk w /\
  (this w1 = this w \/ this w1 = set_initialized (this w)).

Lemma same_instance_refl {S : Type} (w : World S) : same_instance w w.
Proof. split; [reflexivity | left; reflexivity]. Qed.

Lemma same_instance_trans {S : Type} (w w1 w2 : World S) :
  same_instance w w1 -> same_instance w1 w2 -> same_instance w w2.
Proof.
  intros [D1 T1] [D2 T2]. split; [congruence|].
  destruct T1 as [T1|T1], T2 as [T2|T2]; rewrite T2, T1; auto.
Qed.

Lemma same_instance_call {S A : Type} (f : S -> outcome A * S) (w : World S) :
  same_instance w (snd (call f w)).
Proof.
  unfold call. destruct (f (server w)) as [r s']. cbn [snd].
  split; [reflexivity | left; reflexivity].
Qed.

Lemma ensureCollection_frame {S : Type} (client : QdrantClient S) (w : World S) :
  same_instance w (snd (ensureCollection client w)).
Proof.
  destruct (useMemoryFallback (this w) || initialized (this w)) eqn:E.
  - unfold ensureCollection, bind, get_this. rewrite E. apply same_instance_refl.
  - rewrite (ensureCollection_cases client w E).
    destruct (getCollection client (collectionName (this w)) (server w)) as [[i|err] s1].
    + split; [reflexivity | right; reflexivity].
    + destruct (not_found err).
      * destruct (createCollection client (collectionName (this w)) VECTOR_DIM "Cosine" s1)
          as [[u|err2] s2].
        -- split; [reflexivity | right; reflexivity].
        -- split; [reflexivity | left; reflexivity].
      * split; [reflexivity | left; reflexivity].
Qed.

Lemma same_instance_mode {S : Type} (w w1 : World S) :
  same_instance w w1 -> useMemoryFallback (this w1) = useMemoryFallback (this w).
Proof. intros [_ [->| ->]]; reflexivity. Qed.

(** Running [m] after [ensureCollection], for an [m] that is one call of
    the client followed by a pure step. *)
Lemma after_ensureCollection_frame {S A B : Type} (client : QdrantClient S)
    (f : MemoryDB -> S -> outcome A * S) (k : A -> B) (w : World S) :
  same_instance w
    (snd (bind (ensureCollection client)
            (fun _ => bind get_this (fun db1 => bind (call (f db1)) (fun a => ret (k a)))) w)).
Proof.
  pose proof (ensureCollection_frame client w) as H0.
  unfold bind at 1. destruct (ensureCollection client w) as [[u|err] w1]; cbn [snd] in *.
  - unfold bind, get_this.
    pose proof (same_instance_call (f (this w1)) w1) as H1.
    destruct (call (f (this w1)) w1) as [[a|err] w2]; cbn [snd] in *;
      eapply same_instance_trans; eauto.
  - exact H0.
Qed.

(** X13.  In remote mode the instance is a stateless proxy: whatever the
    server answers, and whether the method returns or rejects, [store],
    [delete], [count] and [healthCheck] leave the snapshot file and the
    in-memory array untouched and the mode remote; at most the
    [initialized] flag is raised. *)
Theorem remote_mode_keeps_no_state {Srv : Type} (client : QdrantClient Srv)
    (w : World Srv) :
  useMemoryFallback (this w) = false ->
  (forall e uuid now now' savedAt,
     same_instance w (snd (store client e uuid now now' savedAt w))) /\
  (forall key savedAt, same_instance w (snd (delete client key savedAt w))) /\
  same_instance w (snd (count client w)) /\
  same_instance w (snd (healthCheck client w)).
Proof.
  intros Hremote. repeat match goal with |- _ /\ _ => split end; intros.
  - unfold store. unfold bind at 1, get_this at 1. rewrite Hremote.
    apply (after_ensureCollection_frame client
             (fun db1 => upsert client (collectionName db1)
                {| point_id := uuid; point_vector := entry_vector e;
                   point_payload := {| p_text := entry_text e;
                                       p_category := entry_category e;
                                       p_importance := entry_importance e;
                                       p_createdAt := now |} |})
             (fun _ => make_record uuid e now')).
  - unfold delete. unfold bind at 1, get_this at 1. rewrite Hremote.
    apply (after_ensureCollection_frame client
             (fun db1 => client_delete client (collectionName db1) [key])
             (fun _ => true)).
  - unfold count. unfold bind at 1, get_this at 1. rewrite Hremote.
    apply (after_ensureCollection_frame client
             (fun db1 => getCollection client (collectionName db1))
             (fun info => match info with Some n => n | None => 0%Z end)).
  - unfold healthCheck, bind, get_this, try_catch. rewrite Hremote.
    pose proof (same_instance_call (getCollections client) w) as H.
    destruct (call (getCollections client) w) as [[u|err] w1]; exact H.
Qed.

Lemma remote_mode_keeps_no_state_witness :
  let w := {| this := remote_db; server := []; disk := no_disk |} in
  (forall e uuid now now' savedAt,
     same_instance w (snd (store search_down e uuid now now' savedAt w))) /\
  (forall key savedAt, same_instance w (snd (delete search_down key savedAt w))) /\
  same_instance w (snd (count search_down w)) /\
  same_instance w (snd (healthCheck search_down w)).
Proof.
  apply (remote_mode_keeps_no_state search_down
           {| this := remote_db; server := []; disk := no_disk |}).
  reflexivity.
Defined.

(** X14.  A rejection of [ensureCollection] is the rejection of the
    method that awaited it: [store], [search], [delete] and [count] then
    reject with the same error, in the same world, without a further call
    of the client; the [try] of [search] does not cover it. *)
Theorem ensureCollection_rejection_propagates {Srv : Type} (client : QdrantClient Srv)
    (globals : list string) (w w1 : World Srv) (err : JsError) :
  ensureCollection client w = (Throw err, w1) ->
  (forall e uuid now now' savedAt,
     store client e uuid now now' savedAt w = (Throw err, w1)) /\
  (forall query limit minScore,
     search client globals query limit minScore w = (Throw err, w1)) /\
  (forall key savedAt, delete client key savedAt w = (Throw err, w1)) /\
  count client w = (Throw err, w1).
Proof.
  intros H.
  assert (Hremote : useMemoryFallback (this w) = false).
  { destruct (useMemoryFallback (this w)) eqn:E; [|reflexivity].
    unfold ensureCollection, bind, get_this in H. rewrite E in H. discriminate. }
  repeat match goal with |- _ /\ _ => split end; intros.
  - unfold store. unfold bind at 1, get_this at 1. rewrite Hremote.
    unfold bind at 1. rewrite H. reflexivity.
  - unfold search. unfold bind at 1, get_this at 1. rewrite Hremote.
    unfold bind at 1. rewrite H. reflexivity.
  - unfold delete. unfold bind at 1, get_this at 1. rewrite Hremote.
    unfold bind at 1. rewrite H. reflexivity.
  - unfold count. unfold bind at 1, get_this at 1. rewrite Hremote.
    unfold bind at 1. rewrite H. reflexivity.
Qed.

Lemma ensureCollection_rejection_propagates_witness :
  let w := {| this := remote_db; server := tt; disk := no_disk |} in
  (forall e uuid now now' savedAt,
     store offline e uuid now now' savedAt w = (Throw connection_refused, w)) /\
  (forall query limit minScore,
     search offline node_globals query limit minScore w = (Throw connection_refused, w)) /\
  (forall key savedAt, delete offline key savedAt w = (Throw connection_refused, w)) /\
  count offline w = (Throw connection_refused, w).
Proof.
  apply (ensureCollection_rejection_propagates offline node_globals
           {| this := remote_db; server := tt; disk := no_disk |}).
  reflexivity.
Defined.

(** ** Loading the embedding model *)

Section EmbeddingsFacts.
Import Embeddings.
Context {P H : Type}.
Variable lib : Transformers P H.

Local Abbreviation load := (pipeline lib "feature-extraction" "Xenova/all-MiniLM-L6-v2").

(** The state of the library after [j] calls of [pipeline] in a row
    that all reject; [None] when one of them resolves. *)
Fixpoint failures (j : nat) (h : H) : option H :=
  match j with
  | O => Some h
  | Datatypes.S j' =>
      match load h with
      | (Throw _, h') => failures j' h'
      | (Return _, _) => None
      end
  end.

(** The delays awaited before the attempts [a + 1], ..., [a + j]. *)
Definition delays (a : Z) (j : nat) : list float :=
  map (fun i => backoff (a + Z.of_nat i)) (seq 0 j).

Lemma delays_step a j :
  backoff a :: delays (a + 1) j = delays a (Datatypes.S j).
Proof.
  unfold delays. cbn [seq map]. rewrite Z.add_0_r. f_equal.
  rewrite <- seq_shift, map_map. apply map_ext. intros i. f_equal. lia.
Qed.

Lemma init_loop_spec (fuel : nat) :
  forall (a : Z) (w : World P H),
    (1 <= a <= maxRetries (self w))%Z ->
    (Z.to_nat (maxRetries (self w) - a) < fuel)%nat ->
    exists (j : nat) (h : H),
      (a + Z.of_nat j <= maxRetries (self w))%Z /\
      failures j (runtime w) = Some h /\
      match load h with
      | (Return p, h') =>
          init_loop lib fuel a w =
          Some (Return tt,
                {| self := {| pipe := Some p; initAttempts := a + Z.of_nat j;
                              maxRetries := maxRetries (self w) |};
                   runtime := h'; timers := timers w ++ delays a j |})
      | (Throw err, h') =>
          (a + Z.of_nat j = maxRetries (self w))%Z /\
          init_loop lib fuel a w =
          Some (Throw (Error ("Failed to initialize embeddings after "
                              ++ string_of_Z (maxRetries (self w))
                              ++ " attempts: " ++ err_message err)%string),
                {| self := self w; runtime := h'; timers := timers w ++ delays a j |})
      end.
Proof.
  induction fuel as [|fuel IH]; intros a w Ha Hfuel; [lia|].
  cbn [init_loop]. destruct (Z.leb_spec a (maxRetries (self w))) as [_|]; [|lia].
  destruct (load (runtime w)) as [[p|err] h1] eqn:E1.
  - exists 0%nat, (runtime w). cbn [failures]. rewrite E1.
    unfold delays. cbn [seq map]. rewrite app_nil_r, Z.add_0_r.
    split; [lia|]. split; reflexivity.
  - destruct (Z.eqb_spec a (maxRetries (self w))) as [Ea|Na].
    + exists 0%nat, (runtime w). cbn [failures]. rewrite E1.
      unfold delays. cbn [seq map]. rewrite app_nil_r, Z.add_0_r.
      split; [lia|]. split; [reflexivity|]. split; [exact Ea | reflexivity].
    + destruct (IH (a + 1)%Z
                  {| self := self w; runtime := h1;
                     timers := timers w ++ [backoff a] |})
        as (j & h & Hle & Hf & Hres); cbn [self runtime timers] in *; [lia|lia|].
      exists (Datatypes.S j), h. cbn [failures]. rewrite E1.
      split; [lia|]. split; [exact Hf|].
      rewrite <- delays_step.
      replace (a + Z.of_nat (Datatypes.S j))%Z with (a + 1 + Z.of_nat j)%Z by lia.
      destruct (load h) as [[p|err'] h'].
      * rewrite Hres, <- app_assoc. reflexivity.
      * destruct Hres as [Hn Hres]. split; [exact Hn|].
        rewrite Hres, <- app_assoc. reflexivity.
Qed.

(** X15.  [init] on an instance without a pipe and with
    [maxRetries >= 1] always settles, after at most [maxRetries] calls of
    [pipeline]: it stops at the first call that resolves, say the
    [(j+1)]-th, keeps its pipe, records [initAttempts = j + 1], and has
    awaited the delays [1000 * 2^0, ..., 1000 * 2^(j-1)] between the
    attempts; if all [maxRetries] calls reject it rejects with
    ["Failed to initialize embeddings after <maxRetries> attempts: "]
    followed by the message of the last rejection, the instance
    unchanged, and no delay awaited after the last attempt. *)
Theorem init_retries_with_backoff (w : World P H) :
  pipe (self w) = None ->
  (1 <= maxRetries (self w))%Z ->
  exists (j : nat) (h : H),
    (Z.of_nat j < maxRetries (self w))%Z /\
    failures j (runtime w) = Some h /\
    match load h with
    | (Return p, h') =>
        init lib w =
        Some (Return tt,
              {| self := {| pipe := Some p; initAttempts := Z.of_nat j + 1;
                            maxRetries := maxRetries (self w) |};
                 runtime := h'; timers := timers w ++ delays 1 j |})
    | (Throw err, h') =>
        (Z.of_nat j + 1 = maxRetries (self w))%Z /\
        init lib w =
        Some (Throw (Error ("Failed to initialize embeddings after "
                            ++ string_of_Z (maxRetries (self w))
                            ++ " attempts: " ++ err_message err)%string),
              {| self := self w; runtime := h'; timers := timers w ++ delays 1 j |})
    end.
Proof.
  intros Hpipe Hn. unfold init. rewrite Hpipe.
  destruct (init_loop_spec (Datatypes.S (Z.to_nat (maxRetries (self w)))) 1 w)
    as (j & h & Hle & Hf & Hres); [lia|lia|].
  exists j, h. split; [lia|]. split; [exact Hf|].
  destruct (load h) as [[p|err] h'].
  - replace (Z.of_nat j + 1)%Z with (1 + Z.of_nat j)%Z by lia. exact Hres.
  - destruct Hres as [Hj Hres]. split; [lia | exact Hres].
Qed.

Lemma init_settles (w : World P H) : init lib w <> None.
Proof.
  unfold init. destruct (pipe (self w)); [discriminate|].
  destruct (Z.le_gt_cases 1 (maxRetries (self w))) as [Hn|Hn].
  - destruct (init_loop_spec (Datatypes.S (Z.to_nat (maxRetries (self w)))) 1 w)
      as (j & h & _ & _ & Hres); [lia|lia|].
    destruct (load h) as [[p|err] h']; [|destruct Hres as [_ Hres]];
      rewrite Hres; discriminate.
  - cbn [init_loop]. destruct (Z.leb_spec 1 (maxRetries (self w))); [lia|discriminate].
Qed.

(** X16.  [embed] always settles, and the model is loaded once: when an
    [embed] has returned a vector the instance holds a pipe, and from
    then on [init] returns at once and every [embed] is exactly one call
    of that pipe, with no call of [pipeline] and no delay, whatever
    happened to the library in between. *)
Theorem embed_loads_once (w : World P H) (text : string) :
  embed lib text w <> None /\
  forall (v : list float) (w1 : World P H),
    embed lib text w = Some (Return v, w1) ->
    exists p,
      pipe (self w1) = Some p /\
      forall (w2 : World P H) (text' : string),
        self w2 = self w1 ->
        init lib w2 = Some (Return tt, w2) /\
        embed lib text' w2 =
        Some (let '(r, h) := run lib p text' (runtime w2) in
              (r, {| self := self w2; runtime := h; timers := timers w2 |})).
Proof.
  split.
  - unfold embed. pose proof (init_settles w) as Hs.
    destruct (init lib w) as [[[u|err] w']|]; [| discriminate | congruence].
    destruct (pipe (self w')); [|discriminate].
    destruct (run lib p text (runtime w')); discriminate.
  - unfold embed at 1. intros v w1 Hrun.
    destruct (init lib w) as [[[u|err] w']|]; try discriminate.
    destruct (pipe (self w')) as [p|] eqn:Hp; [|discriminate].
    destruct (run lib p text (runtime w')) as [r h]. injection Hrun as -> <-.
    cbn [self]. exists p. split; [exact Hp|].
    intros w2 text' Hself.
    assert (Hinit : init lib w2 = Some (Return tt, w2)).
    { unfold init. rewrite Hself, Hp. reflexivity. }
    split; [exact Hinit|].
    unfold embed. rewrite Hinit, Hself, Hp.
    destruct (run lib p text' (runtime w2)); reflexivity.
Qed.

End EmbeddingsFacts.

(** A library whose first two calls of [pipeline] reject; its state
    counts the calls. *)
Definition flaky : Embeddings.Transformers unit nat :=
  {| Embeddings.pipeline := fun _ _ n =>
       if (n <? 2)%nat then (Throw connection_refused, Datatypes.S n)
       else (Return tt, Datatypes.S n);
     Embeddings.run := fun _ _ n => (Return [1; 0]%float, n) |}.

Definition fresh_embeddings : Embeddings.World unit nat :=
  {| Embeddings.self := Embeddings.constructor; Embeddings.runtime := 0%nat;
     Embeddings.timers := [] |}.

Example init_third_attempt :
  Embeddings.init flaky fresh_embeddings =
  Some (Return tt,
        {| Embeddings.self := {| Embeddings.pipe := Some tt;
                                 Embeddings.initAttempts := 3;
                                 Embeddings.maxRetries := 3 |};
           Embeddings.runtime := 3%nat;
           Embeddings.timers := [1000; 2000]%float |}).
Proof. vm_compute. reflexivity. Qed.

Lemma init_retries_with_backoff_witness :
  exists (j : nat) (h : nat),
    (Z.of_nat j < 3)%Z /\
    failures flaky j 0%nat = Some h /\
    match Embeddings.pipeline flaky "feature-extraction" "Xenova/all-MiniLM-L6-v2" h with
    | (Return p, h') =>
        Embeddings.init flaky fresh_embeddings =
        Some (Return tt,
              {| Embeddings.self := {| Embeddings.pipe := Some p;
                                       Embeddings.initAttempts := Z.of_nat j + 1;
                                       Embeddings.maxRetries := 3 |};
                 Embeddings.runtime := h';
                 Embeddings.timers := [] ++ delays 1 j |})
    | (Throw err, h') =>
        (Z.of_nat j + 1 = 3)%Z /\
        Embeddings.init flaky fresh_embeddings =
        Some (Throw (Error ("Failed to initialize embeddings after "
                            ++ string_of_Z 3
                            ++ " attempts: " ++ err_message err)%string),
              {| Embeddings.self := Embeddings.constructor; Embeddings.runtime := h';
                 Embeddings.timers := [] ++ delays 1 j |})
    end.
Proof.
  apply (init_retries_with_backoff flaky fresh_embeddings); [reflexivity|].
  cbn. lia.
Defined.

Definition loaded_embeddings : Embeddings.World unit nat :=
  {| Embeddings.self := {| Embeddings.pipe := Some tt; Embeddings.initAttempts := 3;
                           Embeddings.maxRetries := 3 |};
     Embeddings.runtime := 3%nat;
     Embeddings.timers := [1000; 2000]%float |}.

Lemma embed_loads_once_witness :
  exists p,
    Embeddings.pipe (Embeddings.self loaded_embeddings) = Some p /\
    forall (w2 : Embeddings.World unit nat) (text' : string),
      Embeddings.self w2 = Embeddings.self loaded_embeddings ->
      Embeddings.init flaky w2 = Some (Return tt, w2) /\
      Embeddings.embed flaky text' w2 =
      Some (let '(r, h) := Embeddings.run flaky p text' (Embeddings.runtime w2) in
            (r, {| Embeddings.self := Embeddings.self w2; Embeddings.runtime := h;
                   Embeddings.timers := Embeddings.timers w2 |})).
Proof.
  apply (proj2 (embed_loads_once flaky fresh_embeddings "I prefer tea"%string)
           [1; 0]%float loaded_embeddings).
  vm_compute. reflexivity.
Defined.

(** ** The matcher on the patterns of the module *)

Module RegExpFacts.
Import RegExp.

(** A greedy [*] over a character class: as far as the class goes, then
    back one code unit at a time until the rest of the pattern
    matches. *)
Fixpoint star_class (p : N -> bool) (prev : option N) (s : jsstring)
    (k : option N -> jsstring -> option jsstring) : option jsstring :=
  match s with
  | c :: rest =>
      if p c
      then match star_class p (Some c) rest k with
           | Some x => Some x
           | None => k prev s
           end
      else k prev s
  | [] => k prev s
  end.

Lemma iterate_class p k n :
  forall prev s, (length s <= n)%nat ->
    iterate (exec (Class p)) k n prev s = star_class p prev s k.
Proof.
  induction n as [|n IH]; intros prev s Hn.
  - destruct s; [reflexivity | cbn [length] in Hn; lia].
  - destruct s as [|c rest]; [reflexivity|].
    cbn [iterate exec star_class]. destruct (p c); [|reflexivity].
    replace (length rest <? length (c :: rest))%nat with true
      by (symmetry; apply Nat.ltb_lt; cbn [length]; lia).
    rewrite IH by (cbn [length] in Hn; lia). reflexivity.
Qed.

Lemma exec_seq r1 r2 prev s k :
  exec (Seq r1 r2) prev s k = exec r1 prev s (fun prev' s' => exec r2 prev' s' k).
Proof. reflexivity. Qed.

Lemma exec_class p prev c rest k :
  exec (Class p) prev (c :: rest) k = if p c then k (Some c) rest else None.
Proof. reflexivity. Qed.

Lemma exec_alt r1 r2 prev s k :
  exec (Alt r1 r2) prev s k =
  match exec r1 prev s k with
  | Some x => Some x
  | None => exec r2 prev s k
  end.
Proof. reflexivity. Qed.

Lemma exec_boundary prev s k :
  exec WordBoundary prev s k =
  if xorb (word_at prev) (word_at (hd_error s)) then k prev s else None.
Proof. reflexivity. Qed.

Lemma exec_star_class p prev s k :
  exec (Star (Class p)) prev s k = star_class p prev s k.
Proof. cbn [exec]. apply iterate_class. lia. Qed.

(** With nothing after it the [*] takes the longest run. *)
Fixpoint dropWhile (p : N -> bool) (s : jsstring) : jsstring :=
  match s with
  | c :: rest => if p c then dropWhile p rest else s
  | [] => []
  end.

Lemma star_class_greedy p prev s :
  star_class p prev s (fun _ s' => Some s') = Some (dropWhile p s).
Proof.
  revert prev. induction s as [|c rest IH]; intros prev; [reflexivity|].
  cbn [star_class dropWhile]. destruct (p c); [|reflexivity].
  rewrite IH. reflexivity.
Qed.

(** When the rest of the pattern fails wherever it is tried, so does
    the [*]. *)
Lemma star_class_fails p k :
  forall s prev,
    (forall a b prev', s = a ++ b -> k prev' b = None) ->
    star_class p prev s k = None.
Proof.
  induction s as [|c rest IH]; intros prev Hk.
  - apply (Hk [] []). reflexivity.
  - cbn [star_class]. destruct (p c).
    + rewrite IH.
      * apply (Hk [] (c :: rest)). reflexivity.
      * intros a b prev' ->. apply (Hk (c :: a) b). reflexivity.
    + apply (Hk [] (c :: rest)). reflexivity.
Qed.

(** A word under the [i] flag matches its spellings in either case. *)
Lemma exec_chars pat :
  forall w b prev k,
    map fold w = map fold pat ->
    exists prev', exec (chars pat) prev (w ++ b) k = k prev' b.
Proof.
  induction pat as [|x pat IH]; intros w b prev k Hw.
  - destruct w; [|discriminate]. exists prev. reflexivity.
  - destruct w as [|c w]; [discriminate|]. cbn [map] in Hw. injection Hw as Hc Hw.
    cbn [chars exec app]. unfold ichr. cbn [exec]. rewrite Hc, N.eqb_refl.
    apply IH. exact Hw.
Qed.

Lemma test_from_app r a s :
  forall prev,
    (forall prev', match_at r prev' s <> None) ->
    test_from r prev (a ++ s) = true.
Proof.
  induction a as [|c a IH]; intros prev Hs.
  - cbn [app]. specialize (Hs prev).
    destruct s; cbn [test_from]; destruct (match_at r prev _); congruence.
  - cbn [app test_from]. destruct (match_at r prev (c :: a ++ s)); [reflexivity|].
    apply IH, Hs.
Qed.

Lemma test_from_fails r (Q : jsstring -> Prop) :
  (forall c s, Q (c :: s) -> Q s) ->
  (forall prev s, Q s -> match_at r prev s = None) ->
  forall s prev, Q s -> test_from r prev s = false.
Proof.
  intros Htl Hnone. induction s as [|c s IH]; intros prev HQ.
  - cbn [test_from]. rewrite Hnone by exact HQ. reflexivity.
  - cbn [test_from]. rewrite Hnone by exact HQ. apply IH. eapply Htl, HQ.
Qed.

(** *** Global replacement *)

Section Replace.
Variable r : regex.
Variable by_ : jsstring.
(** What a match of [r] leaves, for an [r] that looks at nothing before
    the match and never matches the empty string. *)
Variable rest_of : jsstring -> option jsstring.
Hypothesis match_at_rest : forall prev s, match_at r prev s = rest_of s.
Hypothesis rest_of_nil : rest_of [] = None.
Hypothesis rest_of_suffix :
  forall s s', rest_of s = Some s' -> exists c mid, s = c :: mid ++ s'.

Lemma replace_from_prev s : forall n prev prev',
  replace_from r by_ prev s n = replace_from r by_ prev' s n.
Proof.
  induction s as [|c rest IH]; intros n prev prev'.
  - cbn [replace_from]. rewrite !match_at_rest. reflexivity.
  - cbn [replace_from]. rewrite !match_at_rest. reflexivity.
Qed.

Lemma replace_from_skip mid : forall s' prev,
  replace_from r by_ prev (mid ++ s') (length mid) = replace_from r by_ None s' 0.
Proof.
  induction mid as [|c mid IH]; intros s' prev.
  - cbn [app length]. apply replace_from_prev.
  - cbn [app length replace_from]. apply IH.
Qed.

Lemma replace_nil : replace r by_ [] = [].
Proof. unfold replace. cbn [replace_from]. rewrite match_at_rest, rest_of_nil. reflexivity. Qed.

Lemma replace_cons c rest :
  replace r by_ (c :: rest) =
  match rest_of (c :: rest) with
  | Some s' => by_ ++ replace r by_ s'
  | None => c :: replace r by_ rest
  end.
Proof.
  unfold replace. cbn [replace_from]. rewrite match_at_rest.
  destruct (rest_of (c :: rest)) as [s'|] eqn:E.
  - destruct (rest_of_suffix _ _ E) as (c' & mid & Hs). injection Hs as <- ->.
    replace (length (c :: mid ++ s') - length s')%nat with (Datatypes.S (length mid))
      by (cbn [length]; rewrite length_app; lia).
    rewrite replace_from_skip. reflexivity.
  - f_equal. apply replace_from_prev.
Qed.

(** Induction along the matches. *)
Lemma replace_ind (Q : jsstring -> jsstring -> Prop) :
  Q [] [] ->
  (forall c rest s' t, rest_of (c :: rest) = Some s' -> Q s' t -> Q (c :: rest) (by_ ++ t)) ->
  (forall c rest t, rest_of (c :: rest) = None -> Q rest t -> Q (c :: rest) (c :: t)) ->
  forall s, Q s (replace r by_ s).
Proof.
  intros Hnil Hmatch Hkeep s.
  remember (length s) as n eqn:Hn. revert s Hn.
  induction n as [n IH] using lt_wf_ind. intros s Hn.
  destruct s as [|c rest]; [rewrite replace_nil; exact Hnil|].
  rewrite replace_cons. destruct (rest_of (c :: rest)) as [s'|] eqn:E.
  - apply (Hmatch c rest s'); [exact E|].
    destruct (rest_of_suffix _ _ E) as (c' & mid & Hs).
    apply (IH (length s')); [|reflexivity].
    rewrite Hn, Hs. cbn [length]. rewrite length_app. lia.
  - apply Hkeep; [exact E|]. apply (IH (length rest)); [|reflexivity].
    rewrite Hn. cbn [length]. lia.
Qed.

End Replace.

End RegExpFacts.

(** ** Sanitised input *)

Module SanitizeFacts.
Import RegExp RegExpFacts JsString.

Local Open Scope N_scope.

(** *** The three patterns, as functions of the input *)

Fixpoint through_gt (s : jsstring) : option jsstring :=
  match s with
  | [] => None
  | c :: rest => if c =? 62 then Some rest else through_gt rest
  end.

Definition tag_rest (s : jsstring) : option jsstring :=
  match s with
  | c :: rest => if c =? 60 then through_gt rest else None
  | [] => None
  end.

Definition control_rest (s : jsstring) : option jsstring :=
  match s with
  | c :: rest => if is_control c then Some rest else None
  | [] => None
  end.

Definition space_rest (s : jsstring) : option jsstring :=
  match s with
  | c :: rest => if is_space c then Some (trimStart rest) else None
  | [] => None
  end.

Lemma star_class_gt rest : forall prev,
  star_class (fun c => negb (c =? 62)) prev rest
    (fun prev' s' => exec (chr 62) prev' s' (fun _ s'' => Some s'')) = through_gt rest.
Proof.
  induction rest as [|c rest IH]; intros prev; [reflexivity|].
  cbn [star_class through_gt]. unfold chr at 2 3. cbn [exec].
  rewrite (N.eqb_sym 62 c). destruct (c =? 62); cbn [negb]; [reflexivity|].
  rewrite IH. destruct (through_gt rest); reflexivity.
Qed.

Lemma match_at_TAG prev s : match_at TAG prev s = tag_rest s.
Proof.
  unfold match_at, TAG. destruct s as [|c rest]; [reflexivity|].
  unfold chr at 1. rewrite exec_seq, exec_class. cbn [tag_rest].
  rewrite (N.eqb_sym 60 c). destruct (c =? 60); [|reflexivity].
  rewrite exec_seq, exec_star_class. apply star_class_gt.
Qed.

Lemma match_at_CONTROL prev s : match_at CONTROL prev s = control_rest s.
Proof. destruct s; reflexivity. Qed.

Lemma dropWhile_space s : dropWhile is_space s = trimStart s.
Proof. induction s as [|c s IH]; [reflexivity|]. cbn. rewrite IH. reflexivity. Qed.

Lemma match_at_SPACES prev s : match_at SPACES prev s = space_rest s.
Proof.
  unfold match_at, SPACES, Plus. destruct s as [|c rest]; [reflexivity|].
  rewrite exec_seq, exec_class. cbn [space_rest]. destruct (is_space c); [|reflexivity].
  rewrite exec_star_class, star_class_greedy, dropWhile_space. reflexivity.
Qed.

Lemma through_gt_split rest s' :
  through_gt rest = Some s' -> exists mid, rest = mid ++ 62 :: s'.
Proof.
  revert s'. induction rest as [|c rest IH]; intros s' H; [discriminate|].
  cbn [through_gt] in H. destruct (N.eqb_spec c 62) as [->|_].
  - injection H as <-. exists []. reflexivity.
  - destruct (IH _ H) as [mid ->]. exists (c :: mid). reflexivity.
Qed.

Lemma through_gt_none rest : through_gt rest = None <-> existsb (N.eqb 62) rest = false.
Proof.
  induction rest as [|c rest IH]; [tauto|].
  cbn [through_gt existsb]. rewrite (N.eqb_sym 62 c).
  destruct (c =? 62); cbn [orb]; [split; discriminate | exact IH].
Qed.

Lemma trimStart_split s :
  exists ws, s = ws ++ trimStart s /\ forallb is_space ws = true.
Proof.
  induction s as [|c s (ws & E & Hws)]; [exists []; split; reflexivity|].
  cbn [trimStart]. destruct (is_space c) eqn:Ec.
  - exists (c :: ws). cbn [app forallb]. rewrite Ec, Hws, <- E. split; reflexivity.
  - exists []. split; reflexivity.
Qed.

Lemma tag_rest_suffix s s' :
  tag_rest s = Some s' -> exists c mid, s = c :: mid ++ s'.
Proof.
  destruct s as [|c rest]; [discriminate|]. cbn [tag_rest].
  destruct (c =? 60); [|discriminate]. intros H.
  destruct (through_gt_split _ _ H) as [mid ->].
  exists c, (mid ++ [62]). rewrite <- app_assoc. reflexivity.
Qed.

Lemma control_rest_suffix s s' :
  control_rest s = Some s' -> exists c mid, s = c :: mid ++ s'.
Proof.
  destruct s as [|c rest]; [discriminate|]. cbn [control_rest].
  destruct (is_control c); [|discriminate]. intros [= <-]. exists c, []. reflexivity.
Qed.

Lemma space_rest_suffix s s' :
  space_rest s = Some s' -> exists c mid, s = c :: mid ++ s'.
Proof.
  destruct s as [|c rest]; [discriminate|]. cbn [space_rest].
  destruct (is_space c); [|discriminate]. intros [= <-].
  destruct (trimStart_split rest) as (ws & E & _). exists c, ws. rewrite <- E. reflexivity.
Qed.

(** *** What a stage may do to the text *)

(** [thin s t]: [t] is [s] with code units deleted and white space
    replaced by U+0020. *)
Inductive thin : jsstring -> jsstring -> Prop :=
| thin_nil : thin [] []
| thin_keep c s t : thin s t -> thin (c :: s) (c :: t)
| thin_drop c s t : thin s t -> thin (c :: s) t
| thin_space c s t : is_space c = true -> thin s t -> thin (c :: s) (32 :: t).

Lemma thin_app_drop mid s t : thin s t -> thin (mid ++ s) t.
Proof. intros H. induction mid; [exact H | apply thin_drop; assumption]. Qed.

Lemma thin_refl s : thin s s.
Proof. induction s; constructor; assumption. Qed.

Lemma thin_prefix s post : thin (s ++ post) s.
Proof.
  induction s as [|c s IH]; cbn [app].
  - induction post; constructor; assumption.
  - apply thin_keep, IH.
Qed.

Lemma thin_length s t : thin s t -> (length t <= length s)%nat.
Proof. induction 1; cbn [length]; lia. Qed.

Lemma thin_In s t x : thin s t -> In x t -> x = 32 \/ In x s.
Proof.
  induction 1 as [|c s t _ IH|c s t _ IH|c s t _ _ IH]; cbn [In]; intros Hx.
  - contradiction.
  - destruct Hx as [->|Hx]; [auto | destruct (IH Hx); auto].
  - destruct (IH Hx); auto.
  - destruct Hx as [<-|Hx]; [auto | destruct (IH Hx); auto].
Qed.

Lemma thin_forallb (p : N -> bool) s t :
  p 32 = true -> thin s t -> forallb p s = true -> forallb p t = true.
Proof.
  intros H32. induction 1 as [|c s t _ IH|c s t _ IH|c s t _ _ IH]; cbn [forallb];
    intros Hs; try apply andb_prop in Hs as [Hc Hs].
  - reflexivity.
  - rewrite Hc, IH by exact Hs. reflexivity.
  - apply IH, Hs.
  - rewrite H32, IH by exact Hs. reflexivity.
Qed.

(** [<] with a [>] somewhere after it. *)
Fixpoint has_tag (s : jsstring) : bool :=
  match s with
  | [] => false
  | c :: rest => (c =? 60) && existsb (N.eqb 62) rest || has_tag rest
  end.

Lemma thin_no_gt s t :
  thin s t -> existsb (N.eqb 62) s = false -> existsb (N.eqb 62) t = false.
Proof.
  intros Hthin Hs. destruct (existsb (N.eqb 62) t) eqn:E; [|reflexivity].
  apply existsb_exists in E as (x & Hx & Ex). apply N.eqb_eq in Ex. subst x.
  destruct (thin_In _ _ _ Hthin Hx) as [?|Hin]; [discriminate|].
  assert (existsb (N.eqb 62) s = true) by (apply existsb_exists; exists 62; auto).
  congruence.
Qed.

Lemma thin_has_tag s t : thin s t -> has_tag s = false -> has_tag t = false.
Proof.
  induction 1 as [|c s t Ht IH|c s t Ht IH|c s t Hc Ht IH]; cbn [has_tag]; intros Hs.
  - reflexivity.
  - apply orb_false_elim in Hs as [Hc Hs]. rewrite (IH Hs), orb_false_r.
    destruct (c =? 60); [|reflexivity]. cbn [andb] in *.
    apply (thin_no_gt _ _ Ht Hc).
  - apply orb_false_elim in Hs as [_ Hs]. apply IH, Hs.
  - apply orb_false_elim in Hs as [_ Hs]. rewrite (IH Hs). reflexivity.
Qed.

(** *** White space *)

Definition starts_space (s : jsstring) : bool :=
  match s with
  | c :: _ => is_space c
  | [] => false
  end.

(** Every white-space code unit is a U+0020 followed by something that
    is not white space, or by nothing. *)
Fixpoint single_spaced (s : jsstring) : bool :=
  match s with
  | [] => true
  | c :: rest =>
      (if is_space c then (c =? 32) && negb (starts_space rest) else true)
      && single_spaced rest
  end.

Lemma trimStart_starts s : starts_space (trimStart s) = false.
Proof.
  induction s as [|c s IH]; [reflexivity|]. cbn [trimStart].
  destruct (is_space c) eqn:E; [exact IH | cbn [starts_space]; exact E].
Qed.

Lemma trimStart_id s : starts_space s = false -> trimStart s = s.
Proof. destruct s as [|c s]; [reflexivity|]. cbn. intros ->. reflexivity. Qed.

Lemma trimEnd_split s :
  exists ws, s = trimEnd s ++ ws /\ forallb is_space ws = true.
Proof.
  unfold trimEnd. destruct (trimStart_split (rev s)) as (ws & E & Hws).
  exists (rev ws). split.
  - rewrite <- rev_app_distr, <- E, rev_involutive. reflexivity.
  - rewrite forallb_forall in *. intros x Hx. apply Hws, in_rev, Hx.
Qed.

Lemma trimEnd_idem s : trimEnd (trimEnd s) = trimEnd s.
Proof.
  unfold trimEnd. rewrite rev_involutive.
  rewrite (trimStart_id (trimStart (rev s))) by apply trimStart_starts. reflexivity.
Qed.

Lemma starts_space_app a b : a <> [] -> starts_space (a ++ b) = starts_space a.
Proof. destruct a; [congruence | reflexivity]. Qed.

Lemma trimEnd_starts s : starts_space s = false -> starts_space (trimEnd s) = false.
Proof.
  intros Hs. destruct (trimEnd_split s) as (ws & E & _).
  destruct (trimEnd s) as [|c e] eqn:Ee; [reflexivity|].
  rewrite E in Hs. exact Hs.
Qed.

Lemma trim_idem s : trim (trim s) = trim s.
Proof.
  unfold trim.
  rewrite (trimStart_id (trimEnd (trimStart s)))
    by apply trimEnd_starts, trimStart_starts.
  apply trimEnd_idem.
Qed.

Lemma trim_thin s : thin s (trim s).
Proof.
  unfold trim. destruct (trimStart_split s) as (pre & E & _).
  destruct (trimEnd_split (trimStart s)) as (post & E' & _).
  rewrite E at 1. apply thin_app_drop. rewrite E' at 1. apply thin_prefix.
Qed.

Lemma single_spaced_app_r a b : single_spaced (a ++ b) = true -> single_spaced b = true.
Proof.
  induction a as [|c a IH]; [auto|]. cbn [app single_spaced].
  intros H. apply andb_prop in H as [_ H]. apply IH, H.
Qed.

Lemma single_spaced_app_l a b : single_spaced (a ++ b) = true -> single_spaced a = true.
Proof.
  induction a as [|c a IH]; [reflexivity|]. cbn [app single_spaced].
  intros H. apply andb_prop in H as [Hc H]. rewrite (IH H), andb_true_r.
  destruct (is_space c); [|reflexivity].
  apply andb_prop in Hc as [-> Hc]. cbn [andb].
  destruct a as [|d a]; [reflexivity | exact Hc].
Qed.

Lemma trim_single_spaced s : single_spaced s = true -> single_spaced (trim s) = true.
Proof.
  unfold trim. destruct (trimStart_split s) as (pre & E & _).
  destruct (trimEnd_split (trimStart s)) as (post & E' & _).
  intros H. rewrite E in H. apply single_spaced_app_r in H.
  rewrite E' in H. apply single_spaced_app_l in H. exact H.
Qed.

(** *** The stages *)

Local Abbreviation strip := (replace TAG []).
Local Abbreviation purge := (replace CONTROL []).
Local Abbreviation collapse := (replace SPACES [32]).

Lemma strip_spec s : thin s (strip s) /\ has_tag (strip s) = false.
Proof.
  apply (replace_ind TAG [] tag_rest match_at_TAG eq_refl tag_rest_suffix
           (fun s t => thin s t /\ has_tag t = false)).
  - split; [constructor | reflexivity].
  - intros c rest s' t E [Ht Hn]. cbn [app]. split; [|exact Hn].
    destruct (tag_rest_suffix _ _ E) as (c' & mid & ->).
    apply thin_drop, thin_app_drop, Ht.
  - intros c rest t E [Ht Hn]. split; [apply thin_keep, Ht|].
    cbn [has_tag]. rewrite Hn, orb_false_r.
    cbn [tag_rest] in E. destruct (c =? 60); [|reflexivity]. cbn [andb].
    apply (thin_no_gt _ _ Ht), through_gt_none, E.
Qed.

Lemma strip_id s : has_tag s = false -> strip s = s.
Proof.
  induction s as [|c rest IH]; intros H.
  - apply (replace_nil TAG [] tag_rest match_at_TAG eq_refl).
  - rewrite (replace_cons TAG [] tag_rest match_at_TAG tag_rest_suffix).
    cbn [has_tag] in H. apply orb_false_elim in H as [Hc H].
    cbn [tag_rest]. destruct (c =? 60).
    + cbn [andb] in Hc. apply through_gt_none in Hc. rewrite Hc, (IH H). reflexivity.
    + rewrite (IH H). reflexivity.
Qed.

Lemma purge_filter s : purge s = filter (fun c => negb (is_control c)) s.
Proof.
  apply (replace_ind CONTROL [] control_rest match_at_CONTROL eq_refl control_rest_suffix
           (fun s t => t = filter (fun c => negb (is_control c)) s)).
  - reflexivity.
  - intros c rest s' t E ->. cbn [control_rest] in E. cbn [filter app].
    destruct (is_control c); [|discriminate]. injection E as <-. reflexivity.
  - intros c rest t E ->. cbn [control_rest] in E. cbn [filter].
    destruct (is_control c); [discriminate | reflexivity].
Qed.

Lemma filter_thin (p : N -> bool) s : thin s (filter p s).
Proof.
  induction s as [|c s IH]; [constructor|]. cbn [filter].
  destruct (p c); [apply thin_keep | apply thin_drop]; exact IH.
Qed.

Lemma collapse_spec s :
  thin s (collapse s) /\ single_spaced (collapse s) = true
  /\ starts_space (collapse s) = starts_space s.
Proof.
  apply (replace_ind SPACES [32] space_rest match_at_SPACES eq_refl space_rest_suffix
           (fun s t => thin s t /\ single_spaced t = true
                       /\ starts_space t = starts_space s)).
  - repeat split. constructor.
  - intros c rest s' t E (Ht & Hs & Hh). cbn [space_rest] in E.
    destruct (is_space c) eqn:Ec; [|discriminate]. injection E as <-.
    cbn [app]. split; [|split].
    + destruct (trimStart_split rest) as (ws & Er & _). rewrite Er at 1.
      apply thin_space; [exact Ec|]. apply thin_app_drop, Ht.
    + cbn [single_spaced]. rewrite Hs, Hh, trimStart_starts. reflexivity.
    + cbn [starts_space]. rewrite Ec. reflexivity.
  - intros c rest t E (Ht & Hs & Hh). cbn [space_rest] in E.
    destruct (is_space c) eqn:Ec; [discriminate|]. split; [|split].
    + apply thin_keep, Ht.
    + cbn [single_spaced]. rewrite Ec, Hs. reflexivity.
    + cbn [starts_space]. reflexivity.
Qed.

Lemma collapse_id s : single_spaced s = true -> collapse s = s.
Proof.
  induction s as [|c rest IH]; intros H.
  - apply (replace_nil SPACES [32] space_rest match_at_SPACES eq_refl).
  - rewrite (replace_cons SPACES [32] space_rest match_at_SPACES space_rest_suffix).
    cbn [single_spaced] in H. apply andb_prop in H as [Hc H].
    cbn [space_rest]. destruct (is_space c).
    + apply andb_prop in Hc as [Hc Hr]. apply N.eqb_eq in Hc. subst c.
      apply negb_true_iff in Hr. rewrite (trimStart_id _ Hr), (IH H). reflexivity.
    + rewrite (IH H). reflexivity.
Qed.

Lemma sanitizeInput_Text s :
  sanitizeInput (Text s) = trim (collapse (purge (strip s))).
Proof.
  destruct s; [|reflexivity]. cbn [sanitizeInput].
  rewrite (replace_nil TAG [] tag_rest match_at_TAG eq_refl).
  rewrite (replace_nil CONTROL [] control_rest match_at_CONTROL eq_refl).
  rewrite (replace_nil SPACES [32] space_rest match_at_SPACES eq_refl).
  reflexivity.
Qed.

(** The checks a sanitised text passes. *)
Definition clean (s : jsstring) : Prop :=
  has_tag s = false /\
  forallb (fun c => negb (is_control c)) s = true /\
  single_spaced s = true /\
  trim s = s.

Lemma sanitizeInput_clean s :
  clean (sanitizeInput (Text s)) /\
  (length (sanitizeInput (Text s)) <= length s)%nat.
Proof.
  rewrite sanitizeInput_Text.
  destruct (strip_spec s) as [T1 H1].
  pose proof (filter_thin (fun c => negb (is_control c)) (strip s)) as T2.
  rewrite <- purge_filter in T2.
  destruct (collapse_spec (purge (strip s))) as (T3 & S3 & _).
  pose proof (trim_thin (collapse (purge (strip s)))) as T4.
  split; [split; [|split; [|split]]|].
  - apply (thin_has_tag _ _ T4), (thin_has_tag _ _ T3), (thin_has_tag _ _ T2), H1.
  - apply (thin_forallb _ _ _ eq_refl T4), (thin_forallb _ _ _ eq_refl T3).
    rewrite purge_filter. apply forallb_forall. intros x Hx.
    apply filter_In in Hx as [_ Hx]. exact Hx.
  - apply trim_single_spaced, S3.
  - apply trim_idem.
  - apply thin_length in T1, T2, T3, T4. lia.
Qed.

Lemma sanitizeInput_fixed s : clean s -> sanitizeInput (Text s) = s.
Proof.
  intros (H1 & H2 & H3 & H4). rewrite sanitizeInput_Text.
  rewrite (strip_id _ H1), purge_filter.
  replace (filter (fun c => negb (is_control c)) s) with s.
  - rewrite (collapse_id _ H3). exact H4.
  - symmetry. apply forallb_filter_id, H2.
Qed.

(** *** The checks, spelled out *)

Lemma has_tag_iff s :
  has_tag s = false <-> (forall l1 l2 l3, s <> l1 ++ 60 :: l2 ++ 62 :: l3).
Proof.
  split.
  - intros H l1 l2 l3 ->. revert H. induction l1 as [|c l1 IH]; cbn [app has_tag].
    + intros H. apply orb_false_elim in H as [H _]. cbn [andb N.eqb Pos.eqb] in H.
      assert (existsb (N.eqb 62) (l2 ++ 62 :: l3) = true); [|congruence].
      apply existsb_exists. exists 62. split; [|reflexivity].
      apply in_or_app. right. left. reflexivity.
    + intros H. apply orb_false_elim in H as [_ H]. apply IH, H.
  - induction s as [|c s IH]; intros H; [reflexivity|]. cbn [has_tag].
    rewrite IH by (intros l1 l2 l3 ->; apply (H (c :: l1) l2 l3); reflexivity).
    rewrite orb_false_r. destruct (N.eqb_spec c 60) as [->|_]; [|reflexivity].
    cbn [andb]. destruct (existsb (N.eqb 62) s) eqn:E; [|reflexivity].
    apply existsb_exists in E as (x & Hx & Ex). apply N.eqb_eq in Ex. subst x.
    apply in_split in Hx as (l2 & l3 & ->). exfalso. apply (H [] l2 l3). reflexivity.
Qed.

Lemma single_spaced_iff s :
  single_spaced s = true <->
  (forall c, In c s -> is_space c = true -> c = 32) /\
  (forall l1 a b l2, s = l1 ++ a :: b :: l2 -> is_space a && is_space b = false).
Proof.
  split.
  - intros H. split.
    + induction s as [|x s IH]; cbn [In]; [contradiction|].
      cbn [single_spaced] in H. apply andb_prop in H as [Hx H].
      intros c [<-|Hc] Hs; [|exact (IH H c Hc Hs)].
      rewrite Hs in Hx. apply andb_prop in Hx as [Hx _]. apply N.eqb_eq, Hx.
    + intros l1 a b l2 ->. apply single_spaced_app_r in H.
      cbn [single_spaced starts_space] in H. apply andb_prop in H as [Ha _].
      destruct (is_space a); [|reflexivity].
      apply andb_prop in Ha as [_ Ha]. apply negb_true_iff in Ha. rewrite Ha. reflexivity.
  - intros [H32 Hadj]. induction s as [|x s IH]; [reflexivity|].
    cbn [single_spaced]. rewrite IH.
    + rewrite andb_true_r. destruct (is_space x) eqn:Ex; [|reflexivity].
      rewrite (H32 x (or_introl eq_refl) Ex). cbn [N.eqb Pos.eqb andb].
      destruct s as [|b l2]; [reflexivity|]. cbn [starts_space].
      specialize (Hadj [] x b l2 eq_refl). rewrite Ex in Hadj. cbn [andb] in Hadj.
      rewrite Hadj. reflexivity.
    + intros c Hc. apply H32. right. exact Hc.
    + intros l1 a b l2 ->. apply (Hadj (x :: l1) a b l2). reflexivity.
Qed.

End SanitizeFacts.

(** A text is sanitised when no [<] has a [>] after it, it holds no
    control character, its only white space is single U+0020 between
    other characters, and none at either end. *)
Definition sanitized (s : jsstring) : Prop :=
  (forall l1 l2 l3, s <> l1 ++ 60%N :: l2 ++ 62%N :: l3) /\
  (forall c, In c s -> is_control c = false) /\
  (forall c, In c s -> JsString.is_space c = true -> c = 32%N) /\
  (forall l1 a b l2, s = l1 ++ a :: b :: l2 ->
     JsString.is_space a && JsString.is_space b = false) /\
  JsString.trim s = s.

Lemma sanitized_clean s : sanitized s <-> SanitizeFacts.clean s.
Proof.
  unfold sanitized, SanitizeFacts.clean.
  rewrite SanitizeFacts.has_tag_iff, SanitizeFacts.single_spaced_iff, forallb_forall.
  split.
  - intros (H1 & H2 & H3 & H4 & H5). repeat split; auto.
    intros x Hx. rewrite (H2 x Hx). reflexivity.
  - intros (H1 & H2 & (H3 & H4) & H5). repeat split; auto.
    intros c Hc. apply negb_true_iff, H2, Hc.
Qed.

(** X17.  Whatever it is given, [sanitizeInput] returns a sanitised
    text: no [<] with a [>] after it, no control character, white space
    only as single U+0020 between other characters.  The result is never
    longer than the input, and it is [''] for an argument that is not a
    string. *)
Theorem sanitizeInput_sanitizes (text : argument) :
  sanitized (sanitizeInput text) /\
  match text with
  | Text s => (length (sanitizeInput text) <= length s)%nat
  | NotAString => sanitizeInput text = []
  end.
Proof.
  destruct text as [|s].
  - split; [|reflexivity]. apply sanitized_clean.
    apply (SanitizeFacts.sanitizeInput_clean []).
  - destruct (SanitizeFacts.sanitizeInput_clean s) as [Hc Hl].
    split; [apply sanitized_clean, Hc | exact Hl].
Qed.

(** X18.  The texts [sanitizeInput] returns unchanged are exactly the
    sanitised ones; in particular sanitising twice is sanitising
    once. *)
Theorem sanitizeInput_fixed_points :
  (forall s, sanitizeInput (Text s) = s <-> sanitized s) /\
  (forall text, sanitizeInput (Text (sanitizeInput text)) = sanitizeInput text).
Proof.
  split.
  - intros s. split.
    + intros E. rewrite <- E. apply sanitized_clean, SanitizeFacts.sanitizeInput_clean.
    + intros H. apply SanitizeFacts.sanitizeInput_fixed, sanitized_clean, H.
  - intros text. apply SanitizeFacts.sanitizeInput_fixed.
    destruct text as [|s].
    + apply (SanitizeFacts.sanitizeInput_clean []).
    + apply SanitizeFacts.sanitizeInput_clean.
Qed.

(** ** What is captured, what is flagged *)

Module CaptureFacts.
Import RegExp RegExpFacts JsString.

Local Open Scope N_scope.

Lemma startsWith_app p b : startsWith (p ++ b) p = true.
Proof.
  induction p as [|x p IH]; [destruct b; reflexivity|].
  cbn [app startsWith]. rewrite N.eqb_refl, IH. reflexivity.
Qed.

Lemma includes_app a p b : includes (a ++ p ++ b) p = true.
Proof.
  induction a as [|c a IH]; cbn [app].
  - destruct (p ++ b) eqn:E; cbn [includes]; rewrite <- E, startsWith_app; reflexivity.
  - cbn [includes]. rewrite IH. apply orb_true_r.
Qed.

Lemma startsWith_head s x p : startsWith s (x :: p) = true -> In x s.
Proof.
  destruct s as [|c s]; cbn [startsWith]; [discriminate|].
  intros H. apply andb_prop in H as [H _]. apply N.eqb_eq in H. left. exact H.
Qed.

Lemma includes_head s x p : includes s (x :: p) = true -> In x s.
Proof.
  induction s as [|c s IH]; cbn [includes].
  - rewrite orb_false_r. apply startsWith_head.
  - intros H. apply orb_prop in H as [H|H].
    + apply startsWith_head in H. exact H.
    + right. apply IH, H.
Qed.

Lemma includes_without s x p : ~ In x s -> includes s (x :: p) = false.
Proof.
  intros H. destruct (includes s (x :: p)) eqn:E; [|reflexivity].
  apply includes_head in E. contradiction.
Qed.

Lemma emojiCount_plain s :
  (forall c, In c s -> is_high c = false) -> emojiCount s = O.
Proof.
  induction s as [|hi tl IH]; intros H; [reflexivity|].
  cbn [emojiCount]. destruct tl as [|lo rest]; [reflexivity|].
  rewrite (H hi (or_introl eq_refl)). cbn [andb].
  apply IH. intros c Hc. apply H. right. exact Hc.
Qed.

Lemma test_class p s : test (Class p) s = existsb p s.
Proof.
  unfold test. generalize (@None N).
  induction s as [|c s IH]; intros prev; [reflexivity|].
  cbn [test_from existsb]. unfold match_at at 1. rewrite exec_class.
  destruct (p c); [reflexivity|]. apply IH.
Qed.

Lemma match_at_alts rs r prev s :
  In r rs -> match_at r prev s <> None -> match_at (alts rs) prev s <> None.
Proof.
  unfold match_at. induction rs as [|r1 rs IH]; [contradiction|].
  intros Hin Hr. destruct rs as [|r2 rs].
  - destruct Hin as [->|[]]. exact Hr.
  - change (alts (r1 :: r2 :: rs)) with (Alt r1 (alts (r2 :: rs))). cbn [exec].
    destruct (exec r1 prev s (fun _ s' => Some s')) eqn:E; [discriminate|].
    destruct Hin as [->|Hin]; [congruence|]. apply IH; assumption.
Qed.

Lemma match_at_chars pat w b prev :
  map fold w = map fold pat -> match_at (chars pat) prev (w ++ b) <> None.
Proof.
  intros Hw. unfold match_at.
  destruct (exec_chars pat w b prev (fun _ s' => Some s') Hw) as [prev' ->]. discriminate.
Qed.

End CaptureFacts.

(** The words that trigger a capture wherever they occur: remember,
    prefer, decide, is my, always, never, important, and their Chinese
    counterparts. *)
Definition trigger_words : list jsstring :=
  [ lit "remember"; [35760; 20303]; [20445; 23384];
    lit "prefer"; [21916; 27426]; [20559; 22909];
    lit "decide"; [20915; 23450];
    lit "is my";
    lit "always"; lit "never"; lit "important";
    [24635; 26159]; [20174; 19981]; [37325; 35201] ]%N.

Lemma match_at_optional_suffix pat r w b prev :
  map RegExp.fold w = map RegExp.fold pat ->
  RegExp.match_at (RegExp.Seq (RegExp.chars pat) (RegExp.Opt r)) prev (w ++ b) <> None.
Proof.
  intros Hw. unfold RegExp.match_at. rewrite RegExpFacts.exec_seq.
  destruct (RegExpFacts.exec_chars pat w b prev
              (fun prev' s' => RegExp.exec (RegExp.Opt r) prev' s' (fun _ s'' => Some s''))
              Hw) as [prev' ->].
  cbn [RegExp.Opt RegExp.exec].
  destruct (RegExp.exec r prev' b (fun _ s'' => Some s'')); discriminate.
Qed.

Ltac by_trigger n :=
  exists (nth n MEMORY_TRIGGERS RegExp.Empty); split;
  [ unfold MEMORY_TRIGGERS; cbn [nth In]; auto 10
  | let Hw := fresh "Hw" in
    intros ? ? ? Hw; unfold MEMORY_TRIGGERS; cbn [nth];
    match type of Hw with
    | _ = map _ ?pat =>
        first
          [ apply (CaptureFacts.match_at_alts _ (RegExp.chars pat));
            [ unfold RegExp.ilit; cbn [In]; solve [auto 10]
            | apply CaptureFacts.match_at_chars; exact Hw ]
          | apply (CaptureFacts.match_at_alts _
                     (RegExp.Seq (RegExp.chars pat) (RegExp.Opt (RegExp.ichr 100))));
            [ unfold RegExp.ilit; cbn [In]; solve [auto 10]
            | apply match_at_optional_suffix; exact Hw ] ]
    end ].

Lemma trigger_word_matches word :
  In word trigger_words ->
  exists r, In r MEMORY_TRIGGERS /\
    forall w b prev, map RegExp.fold w = map RegExp.fold word ->
      RegExp.match_at r prev (w ++ b) <> None.
Proof.
  unfold trigger_words. cbn [In]. intros Hin.
  repeat (destruct Hin as [<-|Hin]); try contradiction;
    first [ solve [by_trigger 0%nat] | solve [by_trigger 1%nat] | solve [by_trigger 2%nat]
          | solve [by_trigger 3%nat] | solve [by_trigger 5%nat] ].
Qed.

(** X19.  What the recall hook injects is never captured back: a text
    that contains [<relevant-memories>] anywhere, and so every text
    [formatRelevantMemoriesContext] produces, is rejected by
    [shouldCapture], whatever the limit. *)
Theorem recalled_context_is_not_captured :
  (forall a b maxChars,
     shouldCapture (Text (a ++ lit "<relevant-memories>" ++ b)) maxChars = false) /\
  (forall memories maxChars,
     shouldCapture (Text (formatRelevantMemoriesContext memories)) maxChars = false).
Proof.
  assert (H : forall a b maxChars,
             shouldCapture (Text (a ++ lit "<relevant-memories>" ++ b)) maxChars = false).
  { intros a b maxChars.
    pose proof (CaptureFacts.includes_app a (lit "<relevant-memories>") b) as Hinc.
    destruct (a ++ lit "<relevant-memories>" ++ b) as [|c s]; [reflexivity|].
    unfold shouldCapture. cbv zeta.
    destruct (_ || _); [reflexivity|]. rewrite Hinc. reflexivity. }
  split; [exact H|].
  intros memories maxChars. unfold formatRelevantMemoriesContext. cbv zeta.
  apply (H []).
Qed.

(** X20.  A text that contains one of the trigger words, in either case
    of its letters, is captured, provided its length is within the limits
    (at least 6 code units with a Chinese character, at least 10 without,
    at most [maxChars]) and it holds no [<], no [*] and no high
    surrogate. *)
Theorem trigger_word_is_captured (word a w b : jsstring) (maxChars : Z) :
  In word trigger_words ->
  map RegExp.fold w = map RegExp.fold word ->
  ((if existsb (fun c => (19968 <=? c) && (c <=? 40869))%N (a ++ w ++ b)
    then 6 else 10) <= Z.of_nat (length (a ++ w ++ b)) <= maxChars)%Z ->
  (forall c, In c (a ++ w ++ b) -> c <> 60%N /\ c <> 42%N /\ is_high c = false) ->
  shouldCapture (Text (a ++ w ++ b)) (Some maxChars) = true.
Proof.
  intros Hword Hw Hlen Hplain.
  destruct (trigger_word_matches word Hword) as (r & Hr & Hmatch).
  assert (Htest : RegExp.test r (a ++ w ++ b) = true).
  { apply RegExpFacts.test_from_app. intros prev'. apply Hmatch, Hw. }
  set (t := a ++ w ++ b) in *.
  assert (H60 : ~ In 60%N t) by (intros Hin; destruct (Hplain _ Hin) as (? & ? & ?); congruence).
  assert (H42 : ~ In 42%N t) by (intros Hin; destruct (Hplain _ Hin) as (? & ? & ?); congruence).
  assert (Hemoji : emojiCount t = O).
  { apply CaptureFacts.emojiCount_plain. intros c Hc. apply (Hplain c Hc). }
  assert (I1 : JsString.includes t (lit "<relevant-memories>") = false)
    by exact (CaptureFacts.includes_without t 60%N (lit "relevant-memories>") H60).
  assert (I2 : JsString.includes t (lit "**") = false)
    by exact (CaptureFacts.includes_without t 42%N (lit "*") H42).
  assert (I3 : JsString.startsWith t (lit "<") = false).
  { destruct (JsString.startsWith t (lit "<")) eqn:E; [|reflexivity].
    apply (CaptureFacts.startsWith_head t 60%N []) in E. contradiction. }
  assert (Hshape : shouldCapture (Text t) (Some maxChars) =
            if (Z.of_nat (length t) <?
                (if RegExp.test CHINESE t then 6 else 10))%Z
               || (maxChars <? Z.of_nat (length t))%Z then false
            else if JsString.includes t (lit "<relevant-memories>") then false
            else if JsString.startsWith t (lit "<") && JsString.includes t (lit "</")
            then false
            else if JsString.includes t (lit "**") && JsString.includes t [10; 45]%N
            then false
            else if (3 <? emojiCount t)%nat then false
            else existsb (fun r => RegExp.test r t) MEMORY_TRIGGERS).
  { destruct t as [|c s]; [|reflexivity]. cbn [length existsb] in Hlen. lia. }
  rewrite Hshape. unfold CHINESE. rewrite CaptureFacts.test_class.
  replace ((Z.of_nat (length t) <? _)%Z || (maxChars <? Z.of_nat (length t))%Z) with false.
  2:{ symmetry. apply orb_false_intro; apply Z.ltb_ge; lia. }
  rewrite I1, I2, I3, Hemoji. cbn [andb].
  cbn [Nat.ltb Nat.leb]. apply existsb_exists. exists r. split; assumption.
Qed.

Lemma trigger_word_is_captured_witness :
  shouldCapture (Text (lit "Please " ++ lit "REMEMBER" ++ lit " my keys")) (Some 500%Z)
  = true.
Proof.
  apply (trigger_word_is_captured (lit "remember") (lit "Please ") (lit "REMEMBER")
           (lit " my keys") 500).
  - left. reflexivity.
  - reflexivity.
  - vm_compute. split; discriminate.
  - intros c Hc. vm_compute in Hc.
    repeat (destruct Hc as [<-|Hc]; [repeat split; discriminate|]). contradiction.
Defined.

(** X21.  A text without [+] and without [@] is never flagged as
    holding personal data. *)
Theorem containsPII_needs_plus_or_at (text : jsstring) :
  ~ In 43%N text -> ~ In 64%N text -> containsPII text = false.
Proof.
  intros Hplus Hat. unfold containsPII, PII_PATTERNS. cbn [existsb].
  rewrite orb_false_r. apply orb_false_intro.
  - (* the phone pattern starts with a plus sign *)
    apply (RegExpFacts.test_from_fails _ (fun s => ~ In 43%N s)); [| |exact Hplus].
    + intros c s H Hin. apply H. right. exact Hin.
    + intros prev s H. unfold RegExp.match_at. rewrite RegExpFacts.exec_seq.
      destruct s as [|c s]; [reflexivity|]. unfold RegExp.chr.
      rewrite RegExpFacts.exec_class.
      destruct (N.eqb_spec 43 c) as [<-|_]; [|reflexivity].
      exfalso. apply H. left. reflexivity.
  - (* the mail pattern needs an at sign after the local part *)
    apply (RegExpFacts.test_from_fails _ (fun s => ~ In 64%N s)); [| |exact Hat].
    + intros c s H Hin. apply H. right. exact Hin.
    + intros prev s H. unfold RegExp.match_at. rewrite RegExpFacts.exec_seq.
      rewrite RegExpFacts.exec_boundary. destruct (xorb _ _); [|reflexivity].
      unfold RegExp.Plus. rewrite !RegExpFacts.exec_seq.
      destruct s as [|c s]; [reflexivity|]. rewrite RegExpFacts.exec_class.
      destruct (_ || _); [|reflexivity].
      rewrite RegExpFacts.exec_star_class. apply RegExpFacts.star_class_fails.
      intros x y prev' ->. rewrite RegExpFacts.exec_seq.
      destruct y as [|d y]; [reflexivity|]. unfold RegExp.chr.
      rewrite RegExpFacts.exec_class.
      destruct (N.eqb_spec 64 d) as [<-|_]; [|reflexivity].
      exfalso. apply H. right. apply in_or_app. right. left. reflexivity.
Qed.

Lemma containsPII_needs_plus_or_at_witness :
  containsPII (lit "call me tomorrow at 10") = false.
Proof.
  apply containsPII_needs_plus_or_at; vm_compute; intuition discriminate.
Defined.

(** X22.  [detectCategory] answers with one of [MEMORY_CATEGORIES],
    whatever the text and whatever lower-casing does to it; and a text
    whose lower-cased form holds the two ideographs of "to like" is a
    preference, whatever else it holds. *)
Theorem detectCategory_in_categories (toLowerCase : jsstring -> jsstring)
    (text : jsstring) :
  In (detectCategory toLowerCase text) MEMORY_CATEGORIES /\
  (forall a b, toLowerCase text = a ++ [21916; 27426]%N ++ b ->
     detectCategory toLowerCase text = "preference"%string).
Proof.
  split.
  - unfold detectCategory, MEMORY_CATEGORIES. cbv zeta.
    repeat (destruct (RegExp.test _ _)); cbn [In]; auto 10.
  - intros a b E. unfold detectCategory. cbv zeta. rewrite E.
    replace (RegExp.test _ (a ++ [21916; 27426]%N ++ b)) with true; [reflexivity|].
    symmetry. apply RegExpFacts.test_from_app. intros prev'.
    unfold RegExp.match_at. cbn [RegExp.exec].
    destruct (RegExp.exec _ prev' _ _) eqn:E1; [discriminate|].
    apply (CaptureFacts.match_at_chars [21916; 27426]%N [21916; 27426]%N b prev').
    reflexivity.
Qed.

(** *** Telephone numbers *)

Module PhoneFacts.
Import RegExp RegExpFacts.

Local Open Scope N_scope.

Definition is_digit (c : N) : bool := (48 <=? c) && (c <=? 57).

Lemma digit_is_word c : is_digit c = true -> is_word c = true.
Proof. unfold is_digit, is_word. intros ->. reflexivity. Qed.

(** The code unit before the position reached after reading [ds]. *)
Definition last_of (prev : option N) (ds : jsstring) : option N :=
  match rev ds with
  | c :: _ => Some c
  | [] => prev
  end.

Lemma last_of_cons prev c ds : last_of prev (c :: ds) = last_of (Some c) ds.
Proof.
  unfold last_of. cbn [rev]. destruct (rev ds) as [|x l] eqn:E; reflexivity.
Qed.

Lemma last_of_word prev ds :
  word_at prev = true -> forallb is_digit ds = true -> word_at (last_of prev ds) = true.
Proof.
  revert prev. induction ds as [|c ds IH]; intros prev Hp Hd; [exact Hp|].
  cbn [forallb] in Hd. apply andb_prop in Hd as [Hc Hd].
  rewrite last_of_cons. apply IH; [apply digit_is_word, Hc | exact Hd].
Qed.

Lemma exec_times n : forall ds rest prev k,
  length ds = n -> forallb is_digit ds = true ->
  exec (times n digit) prev (ds ++ rest) k = k (last_of prev ds) rest.
Proof.
  induction n as [|n IH]; intros ds rest prev k Hn Hd.
  - destruct ds; [reflexivity | discriminate].
  - destruct ds as [|c ds]; [discriminate|].
    cbn [forallb] in Hd. apply andb_prop in Hd as [Hc Hd].
    cbn [times app]. rewrite exec_seq. unfold digit at 1. rewrite exec_class.
    fold (is_digit c). rewrite Hc, last_of_cons. apply IH; [|exact Hd].
    cbn [length] in Hn. lia.
Qed.

Lemma exec_upto n : forall ds rest prev,
  (length ds <= n)%nat -> forallb is_digit ds = true ->
  word_at prev = true -> word_at (hd_error rest) = false ->
  exec (upto n digit) prev (ds ++ rest)
    (fun prev' s' => exec WordBoundary prev' s' (fun _ s'' => Some s'')) <> None.
Proof.
  induction n as [|n IH]; intros ds rest prev Hn Hd Hp Hr.
  - destruct ds; [|cbn [length] in Hn; lia].
    cbn [upto app exec]. rewrite Hp, Hr. discriminate.
  - cbn [upto]. unfold Opt. rewrite exec_alt.
    destruct ds as [|c ds].
    + match goal with |- match ?e with _ => _ end <> None => destruct e end;
        [discriminate|].
      cbn [app exec]. rewrite Hp, Hr. discriminate.
    + cbn [forallb] in Hd. apply andb_prop in Hd as [Hc Hd].
      rewrite exec_seq. cbn [app]. unfold digit at 1. rewrite exec_class.
      fold (is_digit c). rewrite Hc.
      pose proof (IH ds rest (Some c)) as H.
      match goal with |- match ?e with _ => _ end <> None => destruct e end;
        [discriminate|].
      exfalso. apply H; auto.
      * cbn [length] in Hn. lia.
      * apply digit_is_word, Hc.
Qed.

End PhoneFacts.

(** X23.  A plus sign followed by 10 to 13 digits is flagged as personal
    data wherever it stands in the text, provided the digits end the
    text or are followed by something that is neither a letter, a digit
    nor an underscore. *)
Theorem containsPII_flags_phone_numbers (a ds b : jsstring) :
  (10 <= length ds <= 13)%nat ->
  forallb PhoneFacts.is_digit ds = true ->
  RegExp.word_at (hd_error b) = false ->
  containsPII (a ++ 43%N :: ds ++ b) = true.
Proof.
  intros Hlen Hd Hb. unfold containsPII, PII_PATTERNS. cbn [existsb].
  apply orb_true_intro. left.
  apply RegExpFacts.test_from_app. intros prev'.
  unfold RegExp.match_at. rewrite RegExpFacts.exec_seq. unfold RegExp.chr at 1.
  rewrite RegExpFacts.exec_class. cbn [N.eqb Pos.eqb]. rewrite RegExpFacts.exec_seq.
  rewrite <- (firstn_skipn 10 ds), <- app_assoc.
  assert (H10 : length (firstn 10 ds) = 10%nat) by (rewrite length_firstn; lia).
  assert (Hd12 : forallb PhoneFacts.is_digit (firstn 10 ds) = true /\
                 forallb PhoneFacts.is_digit (skipn 10 ds) = true).
  { apply andb_prop. rewrite <- forallb_app, firstn_skipn. exact Hd. }
  destruct Hd12 as [Hd1 Hd2].
  rewrite (PhoneFacts.exec_times 10 _ _ _ _ H10 Hd1), RegExpFacts.exec_seq.
  apply PhoneFacts.exec_upto.
  - rewrite length_skipn. lia.
  - exact Hd2.
  - destruct (firstn 10 ds) as [|c l] eqn:E; [discriminate|].
    rewrite PhoneFacts.last_of_cons. apply PhoneFacts.last_of_word.
    + cbn [forallb] in Hd1. apply andb_prop in Hd1 as [Hc _].
      apply PhoneFacts.digit_is_word, Hc.
    + cbn [forallb] in Hd1. apply andb_prop in Hd1 as [_ Hl]. exact Hl.
  - exact Hb.
Qed.

Lemma containsPII_flags_phone_numbers_witness :
  containsPII (lit "call " ++ 43%N :: lit "12345678901" ++ lit " now") = true.
Proof.
  apply (containsPII_flags_phone_numbers (lit "call ") (lit "12345678901") (lit " now")).
  - vm_compute. split; lia.
  - reflexivity.
  - reflexivity.
Defined.
